(** * Priority queues and ordered trees of algorithms-2: model and proofs

    The development embeds the C sources under [src/heaps] in Rocq:

    - [binary_heap.c]   : module [ArrayHeap]
    - [binary_tree.c]   : module [BST]
    - [treap.c]         : module [Treap]
    - [leftist_heap.c]  : module [Leftist]
    - [skew_heap.c]     : module [Skew]
    - [binomial_heap.c] : module [Binomial]

    C [int] values are integers of [Z]; keys are only ever compared, so no
    wrap-around has to be written out.  Pointers are [option addr]
    ([None] is [NULL]); where a property depends on sharing, the nodes
    live in a store (a finite map from addresses to node records) that
    every operation threads through. *)

From Stdlib Require Import ZArith List Lia Permutation Sorted.
From stdpp Require Import base gmap sets list sorting.

(** ** Outcomes of a C call *)

(** A call either returns, or stops at a failed [assert] (the process
    aborts with a diagnostic), or dereferences a pointer that is [NULL] or
    was freed (undefined behaviour), or is still running when the step
    budget given to the model is used up. *)
Inductive outcome (A : Type) : Type :=
  | Ok (a : A)
  | Abort
  | Fault
  | OutOfFuel.
Arguments Ok {A} a.
Arguments Abort {A}.
Arguments Fault {A}.
Arguments OutOfFuel {A}.

#[global] Instance outcome_ret : MRet outcome := fun A a => Ok a.
#[global] Instance outcome_bind : MBind outcome := fun A B f m =>
  match m with
  | Ok a => f a
  | Abort => Abort
  | Fault => Fault
  | OutOfFuel => OutOfFuel
  end.

Definition assert (b : bool) : outcome unit :=
  if b then Ok tt else Abort.

Abbreviation addr := nat.
Abbreviation ptr := (option nat).
Abbreviation NULL := (@None addr).

(** ** binomial_heap.c *)

Module Binomial.

Record BinomialNode := mkNode {
  key : Z;
  degree : Z;
  parent : ptr;
  child : ptr;
  sibling : ptr
}.

Abbreviation store := (gmap addr BinomialNode).

(** [BinomialHeap] is a heap-allocated struct with the single field
    [head]; it is passed here by value, the nodes it reaches stay in the
    store. *)
Record BinomialHeap := mkHeap { head : ptr }.

Definition load (s : store) (p : ptr) : outcome BinomialNode :=
  match p with
  | None => Fault
  | Some a => match s !! a with Some n => Ok n | None => Fault end
  end.

Definition update (s : store) (p : ptr) (f : BinomialNode -> BinomialNode)
  : outcome store :=
  match p with
  | None => Fault
  | Some a => match s !! a with Some n => Ok (<[a := f n]> s) | None => Fault end
  end.

Definition set_key v n := mkNode v (degree n) (parent n) (child n) (sibling n).
Definition set_degree v n := mkNode (key n) v (parent n) (child n) (sibling n).
Definition set_parent v n := mkNode (key n) (degree n) v (child n) (sibling n).
Definition set_child v n := mkNode (key n) (degree n) (parent n) v (sibling n).
Definition set_sibling v n := mkNode (key n) (degree n) (parent n) (child n) v.

Definition malloc (s : store) : addr := fresh (dom s).

Definition free (s : store) (p : ptr) : outcome store :=
  match p with
  | None => Ok s
  | Some a => match s !! a with Some _ => Ok (delete a s) | None => Fault end
  end.

Definition binomial_new_node (s : store) (k : Z) : store * ptr :=
  let a := malloc s in
  (<[a := mkNode k 0 NULL NULL NULL]> s, Some a).

Definition binomial_create : BinomialHeap := mkHeap NULL.

Definition binomial_link (s : store) (a b : ptr) : outcome (store * ptr) :=
  na ← load s a;
  nb ← load s b;
  let '(a, b) := if (key nb <? key na)%Z then (b, a) else (a, b) in
  s ← update s b (set_parent a);
  na ← load s a;
  s ← update s b (set_sibling (child na));
  s ← update s a (set_child b);
  na ← load s a;
  s ← update s a (set_degree (degree na + 1)%Z);
  Ok (s, a).

(** The cursor [pos] of [merge_roots] points either at the local variable
    [head] or at the [sibling] field of a node. *)
Inductive slot := SlotHead | SlotSibling (q : ptr).

Definition write_slot (s : store) (hd : ptr) (pos : slot) (v : ptr)
  : outcome (store * ptr) :=
  match pos with
  | SlotHead => Ok (s, v)
  | SlotSibling q => s ← update s q (set_sibling v); Ok (s, hd)
  end.

Fixpoint merge_roots_loop (fuel : nat) (s : store) (hd : ptr) (pos : slot)
    (a b : ptr) : outcome (store * ptr) :=
  match a, b with
  | Some _, Some _ =>
      match fuel with
      | O => OutOfFuel
      | S fuel =>
          na ← load s a;
          nb ← load s b;
          if (degree na <=? degree nb)%Z then
            '(s, hd) ← write_slot s hd pos a;
            na ← load s a;
            merge_roots_loop fuel s hd (SlotSibling a) (sibling na) b
          else
            '(s, hd) ← write_slot s hd pos b;
            nb ← load s b;
            merge_roots_loop fuel s hd (SlotSibling b) a (sibling nb)
      end
  | _, _ =>
      '(s, hd) ← write_slot s hd pos (match a with Some _ => a | None => b end);
      Ok (s, hd)
  end.

Definition merge_roots (fuel : nat) (s : store) (a b : ptr)
  : outcome (store * ptr) :=
  match a, b with
  | None, _ => Ok (s, b)
  | _, None => Ok (s, a)
  | _, _ => merge_roots_loop fuel s NULL SlotHead a b
  end.

Fixpoint binomial_merge_loop (fuel : nat) (s : store) (hd prev curr next : ptr)
  : outcome (store * ptr) :=
  match next with
  | None => Ok (s, hd)
  | Some _ =>
      match fuel with
      | O => OutOfFuel
      | S fuel =>
          nc ← load s curr;
          nn ← load s next;
          skip ←
            (if negb (degree nc =? degree nn)%Z then Ok true
             else match sibling nn with
                  | None => Ok false
                  | Some _ =>
                      nnn ← load s (sibling nn);
                      Ok (degree nnn =? degree nc)%Z
                  end);
          if (skip : bool) then
            nx ← load s next;
            binomial_merge_loop fuel s hd curr next (sibling nx)
          else
            '(s, curr) ← binomial_link s curr next;
            '(s, hd) ←
              match prev with
              | Some _ => s ← update s prev (set_sibling curr); Ok (s, hd)
              | None => Ok (s, curr)
              end;
            nc ← load s curr;
            binomial_merge_loop fuel s hd prev curr (sibling nc)
      end
  end.

Definition binomial_merge (fuel : nat) (s : store) (h1 h2 : BinomialHeap)
  : outcome (store * BinomialHeap) :=
  '(s, hd) ← merge_roots fuel s (head h1) (head h2);
  match hd with
  | None => Ok (s, mkHeap hd)
  | Some _ =>
      nc ← load s hd;
      '(s, hd) ← binomial_merge_loop fuel s hd NULL hd (sibling nc);
      Ok (s, mkHeap hd)
  end.

Definition binomial_insert (fuel : nat) (s : store) (heap : BinomialHeap) (k : Z)
  : outcome (store * BinomialHeap) :=
  let '(s, n) := binomial_new_node s k in
  binomial_merge fuel s heap (mkHeap n).

Definition INT_MAX : Z := 2147483647.

Fixpoint binomial_find_min_loop (fuel : nat) (s : store) (n : ptr) (min : Z)
  : outcome Z :=
  match n with
  | None => Ok min
  | Some _ =>
      match fuel with
      | O => OutOfFuel
      | S fuel =>
          nn ← load s n;
          binomial_find_min_loop fuel s (sibling nn)
            (if (key nn <? min)%Z then key nn else min)
      end
  end.

Definition binomial_find_min (fuel : nat) (s : store) (h : BinomialHeap)
  : outcome Z :=
  _ ← assert (bool_decide (head h ≠ NULL));
  binomial_find_min_loop fuel s (head h) INT_MAX.

(** The scan of [binomial_delete_min] for the minimum root; it returns
    [(min_node, min_prev)]. *)
Fixpoint delete_min_scan (fuel : nat) (s : store) (n min_node min_prev : ptr)
  : outcome (ptr * ptr) :=
  nn ← load s n;
  match sibling nn with
  | None => Ok (min_node, min_prev)
  | Some _ =>
      match fuel with
      | O => OutOfFuel
      | S fuel =>
          ns ← load s (sibling nn);
          nm ← load s min_node;
          if (key ns <? key nm)%Z
          then delete_min_scan fuel s (sibling nn) (sibling nn) n
          else delete_min_scan fuel s (sibling nn) min_node min_prev
      end
  end.

(** The reversal of the child list of the removed root. *)
Fixpoint delete_min_reverse (fuel : nat) (s : store) (child rev : ptr)
  : outcome (store * ptr) :=
  match child with
  | None => Ok (s, rev)
  | Some _ =>
      match fuel with
      | O => OutOfFuel
      | S fuel =>
          nc ← load s child;
          let next := sibling nc in
          s ← update s child (set_sibling rev);
          s ← update s child (set_parent NULL);
          delete_min_reverse fuel s next child
      end
  end.

Definition binomial_delete_min (fuel : nat) (s : store) (heap : BinomialHeap)
  : outcome (store * BinomialHeap) :=
  '(min_node, min_prev) ← delete_min_scan fuel s (head heap) (head heap) NULL;
  nm ← load s min_node;
  '(s, heap) ←
    match min_prev with
    | Some _ => s ← update s min_prev (set_sibling (sibling nm)); Ok (s, heap)
    | None => Ok (s, mkHeap (sibling nm))
    end;
  nm ← load s min_node;
  '(s, rev) ← delete_min_reverse fuel s (child nm) NULL;
  '(s, heap) ← binomial_merge fuel s heap (mkHeap rev);
  s ← free s min_node;
  Ok (s, heap).

(** Draining: [while (h->head) { visit(find_min(h)); delete_min(&h); }] *)
Fixpoint binomial_drain (fuel : nat) (s : store) (h : BinomialHeap)
  : outcome (list Z) :=
  match head h with
  | None => Ok []
  | Some _ =>
      match fuel with
      | O => OutOfFuel
      | S fuel =>
          m ← binomial_find_min fuel s h;
          '(s, h) ← binomial_delete_min fuel s h;
          rest ← binomial_drain fuel s h;
          Ok (m :: rest)
      end
  end.

(** The degrees met along the sibling chain that starts at [p]. *)
Fixpoint root_degrees (fuel : nat) (s : store) (p : ptr) : outcome (list Z) :=
  match p with
  | None => Ok []
  | Some _ =>
      match fuel with
      | O => OutOfFuel
      | S fuel =>
          n ← load s p;
          ds ← root_degrees fuel s (sibling n);
          Ok (degree n :: ds)
      end
  end.

End Binomial.

(** ** leftist_heap.c *)

Module Leftist.

Record LeftistNode := mkNode {
  key : Z;
  stored_npl : Z;     (* the field [npl] of the struct *)
  left : ptr;
  right : ptr
}.

Abbreviation store := (gmap addr LeftistNode).

Definition load (s : store) (p : ptr) : outcome LeftistNode :=
  match p with
  | None => Fault
  | Some a => match s !! a with Some n => Ok n | None => Fault end
  end.

Definition update (s : store) (p : ptr) (f : LeftistNode -> LeftistNode)
  : outcome store :=
  match p with
  | None => Fault
  | Some a => match s !! a with Some n => Ok (<[a := f n]> s) | None => Fault end
  end.

Definition set_npl v n := mkNode (key n) v (left n) (right n).
Definition set_left v n := mkNode (key n) (stored_npl n) v (right n).
Definition set_right v n := mkNode (key n) (stored_npl n) (left n) v.

Definition malloc (s : store) : addr := fresh (dom s).

Definition free (s : store) (p : ptr) : outcome store :=
  match p with
  | None => Ok s
  | Some a => match s !! a with Some _ => Ok (delete a s) | None => Fault end
  end.

Definition leftist_new_node (s : store) (k : Z) : store * ptr :=
  let a := malloc s in
  (<[a := mkNode k 0 NULL NULL]> s, Some a).

Definition npl (s : store) (n : ptr) : outcome Z :=
  match n with
  | None => Ok (-1)%Z
  | Some _ => nn ← load s n; Ok (stored_npl nn)
  end.

Fixpoint leftist_merge (fuel : nat) (s : store) (a b : ptr)
  : outcome (store * ptr) :=
  match a, b with
  | None, _ => Ok (s, b)
  | _, None => Ok (s, a)
  | Some _, Some _ =>
      match fuel with
      | O => OutOfFuel
      | S fuel =>
          na ← load s a;
          nb ← load s b;
          let '(a, b) := if (key nb <? key na)%Z then (b, a) else (a, b) in
          na ← load s a;
          '(s, r) ← leftist_merge fuel s (right na) b;
          s ← update s a (set_right r);
          na ← load s a;
          nl ← npl s (left na);
          nr ← npl s (right na);
          s ← (if (nl <? nr)%Z then
                 let tmp := left na in
                 s ← update s a (set_left (right na));
                 update s a (set_right tmp)
               else Ok s);
          na ← load s a;
          nr ← npl s (right na);
          s ← update s a (set_npl (1 + nr)%Z);
          Ok (s, a)
      end
  end.

Definition leftist_insert (fuel : nat) (s : store) (heap : ptr) (k : Z)
  : outcome (store * ptr) :=
  let '(s, n) := leftist_new_node s k in
  leftist_merge fuel s heap n.

Definition leftist_find_min (s : store) (heap : ptr) : outcome Z :=
  _ ← assert (bool_decide (heap ≠ NULL));
  n ← load s heap;
  Ok (key n).

Definition leftist_delete_min (fuel : nat) (s : store) (heap : ptr)
  : outcome (store * ptr) :=
  _ ← assert (bool_decide (heap ≠ NULL));
  n ← load s heap;
  '(s, res) ← leftist_merge fuel s (left n) (right n);
  s ← free s heap;
  Ok (s, res).

Fixpoint leftist_clone (fuel : nat) (s : store) (h : ptr)
  : outcome (store * ptr) :=
  match h with
  | None => Ok (s, NULL)
  | Some _ =>
      match fuel with
      | O => OutOfFuel
      | S fuel =>
          nh ← load s h;
          let '(s, n) := leftist_new_node s (key nh) in
          nh ← load s h;
          s ← update s n (set_npl (stored_npl nh));
          nh ← load s h;
          '(s, l) ← leftist_clone fuel s (left nh);
          s ← update s n (set_left l);
          nh ← load s h;
          '(s, r) ← leftist_clone fuel s (right nh);
          s ← update s n (set_right r);
          Ok (s, n)
      end
  end.

Definition leftist_merge_persistent (fuel : nat) (s : store) (a b : ptr)
  : outcome (store * ptr) :=
  '(s, ca) ← leftist_clone fuel s a;
  '(s, cb) ← leftist_clone fuel s b;
  leftist_merge fuel s ca cb.

(** Draining, as the test driver does it:
    [while (h) { visit(leftist_find_min(h)); h = leftist_delete_min(h); }] *)
Fixpoint leftist_drain (fuel : nat) (s : store) (h : ptr)
  : outcome (store * list Z) :=
  match h with
  | None => Ok (s, [])
  | Some _ =>
      match fuel with
      | O => OutOfFuel
      | S fuel =>
          m ← leftist_find_min s h;
          '(s, h) ← leftist_delete_min fuel s h;
          '(s, rest) ← leftist_drain fuel s h;
          Ok (s, m :: rest)
      end
  end.

(** [leftist_destroy] frees the two subtrees and then the node; the
    field [heap->right] is read after the left subtree has been freed. *)
Fixpoint leftist_destroy (fuel : nat) (s : store) (heap : ptr) : outcome store :=
  match heap with
  | None => Ok s
  | Some _ =>
      match fuel with
      | O => OutOfFuel
      | S fuel =>
          n ← load s heap;
          s ← leftist_destroy fuel s (left n);
          n ← load s heap;
          s ← leftist_destroy fuel s (right n);
          free s heap
      end
  end.

(** [leftist_print] prints the keys in in-order; the model returns them. *)
Fixpoint leftist_print (fuel : nat) (s : store) (h : ptr) : outcome (list Z) :=
  match h with
  | None => Ok []
  | Some _ =>
      match fuel with
      | O => OutOfFuel
      | S fuel =>
          n ← load s h;
          ls ← leftist_print fuel s (left n);
          n ← load s h;
          rs ← leftist_print fuel s (right n);
          Ok (ls ++ key n :: rs)
      end
  end.

(** Filling a heap, as the test driver does it:
    [for (i = 0; i < n; ++i) h = leftist_insert(h, vals[i]);] *)
Fixpoint leftist_insert_all (fuel : nat) (s : store) (h : ptr) (vals : list Z)
  : outcome (store * ptr) :=
  match vals with
  | [] => Ok (s, h)
  | v :: vals =>
      '(s, h) ← leftist_insert fuel s h v;
      leftist_insert_all fuel s h vals
  end.

End Leftist.

(** ** skew_heap.c *)

Module Skew.

Record SkewNode := mkNode {
  key : Z;
  left : ptr;
  right : ptr
}.

Abbreviation store := (gmap addr SkewNode).

Definition load (s : store) (p : ptr) : outcome SkewNode :=
  match p with
  | None => Fault
  | Some a => match s !! a with Some n => Ok n | None => Fault end
  end.

Definition update (s : store) (p : ptr) (f : SkewNode -> SkewNode)
  : outcome store :=
  match p with
  | None => Fault
  | Some a => match s !! a with Some n => Ok (<[a := f n]> s) | None => Fault end
  end.

Definition set_left v n := mkNode (key n) v (right n).
Definition set_right v n := mkNode (key n) (left n) v.

Definition malloc (s : store) : addr := fresh (dom s).

Definition free (s : store) (p : ptr) : outcome store :=
  match p with
  | None => Ok s
  | Some a => match s !! a with Some _ => Ok (delete a s) | None => Fault end
  end.

Definition skew_new_node (s : store) (k : Z) : store * ptr :=
  let a := malloc s in
  (<[a := mkNode k NULL NULL]> s, Some a).

Fixpoint skew_merge (fuel : nat) (s : store) (a b : ptr)
  : outcome (store * ptr) :=
  match a, b with
  | None, _ => Ok (s, b)
  | _, None => Ok (s, a)
  | Some _, Some _ =>
      match fuel with
      | O => OutOfFuel
      | S fuel =>
          na ← load s a;
          nb ← load s b;
          let '(a, b) := if (key nb <? key na)%Z then (b, a) else (a, b) in
          na ← load s a;
          '(s, r) ← skew_merge fuel s (right na) b;
          s ← update s a (set_right r);
          na ← load s a;
          let tmp := left na in
          s ← update s a (set_left (right na));
          s ← update s a (set_right tmp);
          Ok (s, a)
      end
  end.

Definition skew_insert (fuel : nat) (s : store) (heap : ptr) (k : Z)
  : outcome (store * ptr) :=
  let '(s, n) := skew_new_node s k in
  skew_merge fuel s heap n.

Definition skew_find_min (s : store) (heap : ptr) : outcome Z :=
  _ ← assert (bool_decide (heap ≠ NULL));
  n ← load s heap;
  Ok (key n).

Definition skew_delete_min (fuel : nat) (s : store) (heap : ptr)
  : outcome (store * ptr) :=
  _ ← assert (bool_decide (heap ≠ NULL));
  n ← load s heap;
  '(s, res) ← skew_merge fuel s (left n) (right n);
  s ← free s heap;
  Ok (s, res).

Fixpoint skew_clone (fuel : nat) (s : store) (h : ptr)
  : outcome (store * ptr) :=
  match h with
  | None => Ok (s, NULL)
  | Some _ =>
      match fuel with
      | O => OutOfFuel
      | S fuel =>
          nh ← load s h;
          let '(s, n) := skew_new_node s (key nh) in
          nh ← load s h;
          '(s, l) ← skew_clone fuel s (left nh);
          s ← update s n (set_left l);
          nh ← load s h;
          '(s, r) ← skew_clone fuel s (right nh);
          s ← update s n (set_right r);
          Ok (s, n)
      end
  end.

Definition skew_merge_persistent (fuel : nat) (s : store) (a b : ptr)
  : outcome (store * ptr) :=
  '(s, ca) ← skew_clone fuel s a;
  '(s, cb) ← skew_clone fuel s b;
  skew_merge fuel s ca cb.

(** Draining, as the test driver does it:
    [while (h) { visit(skew_find_min(h)); h = skew_delete_min(h); }] *)
Fixpoint skew_drain (fuel : nat) (s : store) (h : ptr)
  : outcome (store * list Z) :=
  match h with
  | None => Ok (s, [])
  | Some _ =>
      match fuel with
      | O => OutOfFuel
      | S fuel =>
          m ← skew_find_min s h;
          '(s, h) ← skew_delete_min fuel s h;
          '(s, rest) ← skew_drain fuel s h;
          Ok (s, m :: rest)
      end
  end.

(** [skew_destroy] frees the two subtrees and then the node; the field
    [heap->right] is read after the left subtree has been freed. *)
Fixpoint skew_destroy (fuel : nat) (s : store) (heap : ptr) : outcome store :=
  match heap with
  | None => Ok s
  | Some _ =>
      match fuel with
      | O => OutOfFuel
      | S fuel =>
          n ← load s heap;
          s ← skew_destroy fuel s (left n);
          n ← load s heap;
          s ← skew_destroy fuel s (right n);
          free s heap
      end
  end.

(** [skew_print] prints the keys in in-order; the model returns them. *)
Fixpoint skew_print (fuel : nat) (s : store) (h : ptr) : outcome (list Z) :=
  match h with
  | None => Ok []
  | Some _ =>
      match fuel with
      | O => OutOfFuel
      | S fuel =>
          n ← load s h;
          ls ← skew_print fuel s (left n);
          n ← load s h;
          rs ← skew_print fuel s (right n);
          Ok (ls ++ key n :: rs)
      end
  end.

(** Filling a heap, as the test driver does it:
    [for (i = 0; i < n; ++i) h = skew_insert(h, vals[i]);] *)
Fixpoint skew_insert_all (fuel : nat) (s : store) (h : ptr) (vals : list Z)
  : outcome (store * ptr) :=
  match vals with
  | [] => Ok (s, h)
  | v :: vals =>
      '(s, h) ← skew_insert fuel s h v;
      skew_insert_all fuel s h vals
  end.

End Skew.

(** ** binary_heap.c *)

Module ArrayHeap.

(** [data] is the whole buffer ([capacity] cells); only the first [size]
    cells are live.  Cells that C leaves indeterminate (fresh [malloc] or
    [realloc] memory) hold [indeterminate]; no operation reads them. *)
Record BinaryHeap := mkHeap {
  data : list Z;
  size : nat;
  capacity : nat;
  is_min : bool
}.

Abbreviation store := (gmap addr BinaryHeap).

Definition indeterminate : Z := 0%Z.

(** Index macros.  [PARENT] is only applied to indices that are positive,
    so the unsigned subtraction never wraps. *)
Definition PARENT (i : nat) : nat := (i - 1) / 2.
Definition LEFT (i : nat) : nat := i * 2 + 1.
Definition RIGHT (i : nat) : nat := i * 2 + 2.

Definition heap_prefers (h : BinaryHeap) (a b : Z) : bool :=
  if is_min h then (a <? b)%Z else (a >? b)%Z.

(** [h->data[i]] as an rvalue and as an lvalue; an index outside the
    buffer is undefined behaviour. *)
Definition get (h : BinaryHeap) (i : nat) : outcome Z :=
  match data h !! i with Some x => Ok x | None => Fault end.

Definition set (h : BinaryHeap) (i : nat) (v : Z) : outcome BinaryHeap :=
  if i <? length (data h)
  then Ok (mkHeap (<[i := v]> (data h)) (size h) (capacity h) (is_min h))
  else Fault.

Definition set_size (h : BinaryHeap) (n : nat) : BinaryHeap :=
  mkHeap (data h) n (capacity h) (is_min h).

(** [heap_swap(&h->data[i], &h->data[j])] *)
Definition heap_swap (h : BinaryHeap) (i j : nat) : outcome BinaryHeap :=
  t ← get h i;
  x ← get h j;
  h ← set h i x;
  set h j t.

Definition heap_resize (h : BinaryHeap) (min_capacity : nat) : BinaryHeap :=
  let new_cap := if capacity h =? 0 then 4 else capacity h * 2 in
  let new_cap := if new_cap <? min_capacity then min_capacity else new_cap in
  mkHeap (data h ++ replicate (new_cap - capacity h) indeterminate)
         (size h) new_cap (is_min h).

Fixpoint heap_sift_up_loop (fuel : nat) (h : BinaryHeap) (idx : nat)
  : outcome BinaryHeap :=
  if idx =? 0 then Ok h else
  match fuel with
  | O => OutOfFuel
  | S fuel =>
      let p := PARENT idx in
      x ← get h idx;
      y ← get h p;
      if heap_prefers h x y then
        h ← heap_swap h idx p;
        heap_sift_up_loop fuel h p
      else Ok h
  end.

(** The index strictly decreases, so [idx] iterations suffice. *)
Definition heap_sift_up (h : BinaryHeap) (idx : nat) : outcome BinaryHeap :=
  heap_sift_up_loop idx h idx.

Fixpoint heap_sift_down_loop (fuel : nat) (h : BinaryHeap) (idx : nat)
  : outcome BinaryHeap :=
  match fuel with
  | O => OutOfFuel
  | S fuel =>
      let n := size h in
      let l := LEFT idx in
      let r := RIGHT idx in
      let best := idx in
      best ← (if l <? n then
                x ← get h l; y ← get h best;
                Ok (if heap_prefers h x y then l else best)
              else Ok best);
      best ← (if r <? n then
                x ← get h r; y ← get h best;
                Ok (if heap_prefers h x y then r else best)
              else Ok best);
      if negb (best =? idx) then
        h ← heap_swap h idx best;
        heap_sift_down_loop fuel h best
      else Ok h
  end.

(** The index strictly grows while it stays below [size], so
    [size + 1] iterations suffice. *)
Definition heap_sift_down (h : BinaryHeap) (idx : nat) : outcome BinaryHeap :=
  heap_sift_down_loop (S (size h)) h idx.

Definition heap_push (h : BinaryHeap) (value : Z) : outcome BinaryHeap :=
  let h := if capacity h <? size h + 1 then heap_resize h (size h + 1) else h in
  h ← set h (size h) value;
  let h := set_size h (size h + 1) in
  heap_sift_up h (size h - 1).

Definition heap_peek (h : BinaryHeap) : outcome Z :=
  _ ← assert (0 <? size h);
  get h 0.

Definition heap_pop (h : BinaryHeap) : outcome (Z * BinaryHeap) :=
  _ ← assert (0 <? size h);
  root ← get h 0;
  let h := set_size h (size h - 1) in
  h ← (if 0 <? size h then
         x ← get h (size h);
         h ← set h 0 x;
         heap_sift_down h 0
       else Ok h);
  Ok (root, h).

(** [for (i = PARENT(n - 1); i >= 0; --i) heap_sift_down(h, i);] *)
Fixpoint heap_build_loop (i : nat) (h : BinaryHeap) : outcome BinaryHeap :=
  h ← heap_sift_down h i;
  match i with
  | O => Ok h
  | S i => heap_build_loop i h
  end.

(** The heap object that [heap_build_from_array] fills in before it
    returns the pointer to it; [arr] must hold [n] readable cells. *)
Definition heap_build (arr : list Z) (n : nat) (is_min : bool)
  : outcome BinaryHeap :=
  if length arr <? n then Fault else
  let cap := if n =? 0 then 1 else n in
  let h := mkHeap (take n arr ++ replicate (cap - n) indeterminate) n cap is_min in
  if 1 <? n then heap_build_loop (PARENT (n - 1)) h else Ok h.

Definition malloc (s : store) : addr := fresh (dom s).

(** The number of [int] cells in the block that
    [malloc(sizeof(int) * capacity)] returns: [size_t] has 64 bits and an
    [int] has 4 bytes, so the byte count is computed modulo [2 ^ 64] and
    the block is shorter than [capacity] cells when the product wraps
    ([capacity >= 2 ^ 62]). *)
Definition malloc_cells (capacity : nat) : nat :=
  Z.to_nat (((4 * Z.of_nat capacity) mod 2 ^ 64) / 4).

(** [heap_create] stores the requested capacity in [h->capacity] whatever
    the size of the block is. *)
Definition heap_create (s : store) (capacity : nat) (is_min : bool)
  : store * ptr :=
  let capacity := if capacity =? 0 then 4 else capacity in
  let a := malloc s in
  (<[a := mkHeap (replicate (malloc_cells capacity) indeterminate) 0 capacity is_min]> s,
   Some a).

Definition heap_destroy (s : store) (h : ptr) : outcome store :=
  match h with
  | None => Ok s
  | Some a => match s !! a with Some _ => Ok (delete a s) | None => Fault end
  end.

Definition heap_build_from_array (s : store) (arr : list Z) (n : nat)
    (is_min : bool) : outcome (store * ptr) :=
  h ← heap_build arr n is_min;
  let a := malloc s in
  Ok (<[a := h]> s, Some a).

Definition load (s : store) (p : ptr) : outcome BinaryHeap :=
  match p with
  | None => Fault
  | Some a => match s !! a with Some h => Ok h | None => Fault end
  end.

(** The temporary buffer of the two merge functions:
    [memcpy(buf, a->data, a->size); memcpy(buf + a->size, b->data, b->size)]. *)
Definition merge_buffer (a b : BinaryHeap) : outcome (list Z) :=
  if (length (data a) <? size a) || (length (data b) <? size b) then Fault
  else
    let total := size a + size b in
    Ok (take (size a) (data a) ++ take (size b) (data b)
        ++ replicate ((if total =? 0 then 1 else total) - total) indeterminate).

Definition heap_merge (s : store) (a b : ptr) : outcome (store * ptr) :=
  match a, b with
  | None, None => Ok (s, NULL)
  | None, Some _ =>
      hb ← load s b;
      heap_build_from_array s (data hb) (size hb) (is_min hb)
  | Some _, None =>
      ha ← load s a;
      heap_build_from_array s (data ha) (size ha) (is_min ha)
  | Some _, Some _ =>
      ha ← load s a;
      hb ← load s b;
      _ ← assert (eqb (is_min ha) (is_min hb));
      let total := size ha + size hb in
      buf ← merge_buffer ha hb;
      heap_build_from_array s buf total (is_min ha)
  end.

Definition heap_merge_destroy (s : store) (a b : ptr) : outcome (store * ptr) :=
  match a, b with
  | None, None => Ok (s, NULL)
  | None, Some _ =>
      hb ← load s b;
      '(s, r) ← heap_build_from_array s (data hb) (size hb) (is_min hb);
      s ← heap_destroy s b;
      Ok (s, r)
  | Some _, None =>
      ha ← load s a;
      '(s, r) ← heap_build_from_array s (data ha) (size ha) (is_min ha);
      s ← heap_destroy s a;
      Ok (s, r)
  | Some _, Some _ =>
      ha ← load s a;
      hb ← load s b;
      _ ← assert (eqb (is_min ha) (is_min hb));
      let total := size ha + size hb in
      buf ← merge_buffer ha hb;
      '(s, res) ← heap_build_from_array s buf total (is_min ha);
      s ← heap_destroy s a;
      s ← heap_destroy s b;
      Ok (s, res)
  end.

(** Draining, as [print_pop_sequence] and the test driver do it:
    [while (h->size > 0) visit(heap_pop(h));] *)
Fixpoint heap_drain_loop (fuel : nat) (h : BinaryHeap) : outcome (list Z) :=
  if size h =? 0 then Ok [] else
  match fuel with
  | O => OutOfFuel
  | S fuel =>
      '(x, h) ← heap_pop h;
      rest ← heap_drain_loop fuel h;
      Ok (x :: rest)
  end.

Definition heap_drain (h : BinaryHeap) : outcome (list Z) :=
  heap_drain_loop (size h) h.

(** [print_pop_sequence] pops from a copy of the heap object whose buffer
    is a fresh array with the first [size] cells of [h->data]; the model
    returns the values it prints.  The heap [h] itself is not written. *)
Definition print_pop_sequence (h : BinaryHeap) : outcome (list Z) :=
  if length (data h) <? size h then Fault else
  let copy := mkHeap (take (size h) (data h)) (size h) (size h) (is_min h) in
  heap_drain copy.


End ArrayHeap.

(** ** binary_tree.c *)

Module BST.

Record Node := mkNode {
  key : Z;
  left : ptr;
  right : ptr
}.

Abbreviation store := (gmap addr Node).

Definition load (s : store) (p : ptr) : outcome Node :=
  match p with
  | None => Fault
  | Some a => match s !! a with Some n => Ok n | None => Fault end
  end.

Definition update (s : store) (p : ptr) (f : Node -> Node) : outcome store :=
  match p with
  | None => Fault
  | Some a => match s !! a with Some n => Ok (<[a := f n]> s) | None => Fault end
  end.

Definition set_key v n := mkNode v (left n) (right n).
Definition set_left v n := mkNode (key n) v (right n).
Definition set_right v n := mkNode (key n) (left n) v.

Definition malloc (s : store) : addr := fresh (dom s).

Definition free (s : store) (p : ptr) : outcome store :=
  match p with
  | None => Ok s
  | Some a => match s !! a with Some _ => Ok (delete a s) | None => Fault end
  end.

Definition bst_create_node (s : store) (k : Z) : store * ptr :=
  let a := malloc s in
  (<[a := mkNode k NULL NULL]> s, Some a).

Fixpoint bst_insert (fuel : nat) (s : store) (root : ptr) (k : Z)
  : outcome (store * ptr) :=
  match root with
  | None => Ok (bst_create_node s k)
  | Some _ =>
      match fuel with
      | O => OutOfFuel
      | S fuel =>
          n ← load s root;
          if (k <? key n)%Z then
            '(s, l) ← bst_insert fuel s (left n) k;
            s ← update s root (set_left l);
            Ok (s, root)
          else if (k >? key n)%Z then
            '(s, r) ← bst_insert fuel s (right n) k;
            s ← update s root (set_right r);
            Ok (s, root)
          else Ok (s, root)
      end
  end.

Fixpoint bst_search_recursive (fuel : nat) (s : store) (root : ptr) (k : Z)
  : outcome ptr :=
  match root with
  | None => Ok NULL
  | Some _ =>
      match fuel with
      | O => OutOfFuel
      | S fuel =>
          n ← load s root;
          if (key n =? k)%Z then Ok root
          else if (k <? key n)%Z then bst_search_recursive fuel s (left n) k
          else bst_search_recursive fuel s (right n) k
      end
  end.

(** The loop of [bst_search_iterative]; its state is the cursor [cur]. *)
Fixpoint bst_search_iterative_loop (fuel : nat) (s : store) (cur : ptr) (k : Z)
  : outcome ptr :=
  match cur with
  | None => Ok NULL
  | Some _ =>
      match fuel with
      | O => OutOfFuel
      | S fuel =>
          n ← load s cur;
          if (key n =? k)%Z then Ok cur
          else
            let cur := if (k <? key n)%Z then left n else right n in
            bst_search_iterative_loop fuel s cur k
      end
  end.

Definition bst_search_iterative (fuel : nat) (s : store) (root : ptr) (k : Z)
  : outcome ptr :=
  let cur := root in
  bst_search_iterative_loop fuel s cur k.

Fixpoint bst_min_loop (fuel : nat) (s : store) (cur : ptr) : outcome ptr :=
  n ← load s cur;
  match left n with
  | None => Ok cur
  | Some _ =>
      match fuel with
      | O => OutOfFuel
      | S fuel => bst_min_loop fuel s (left n)
      end
  end.

Definition bst_min (fuel : nat) (s : store) (root : ptr) : outcome ptr :=
  _ ← assert (bool_decide (root ≠ NULL));
  bst_min_loop fuel s root.

Fixpoint bst_delete (fuel : nat) (s : store) (root : ptr) (k : Z)
  : outcome (store * ptr) :=
  match root with
  | None => Ok (s, NULL)
  | Some _ =>
      match fuel with
      | O => OutOfFuel
      | S fuel =>
          n ← load s root;
          if (k <? key n)%Z then
            '(s, l) ← bst_delete fuel s (left n) k;
            s ← update s root (set_left l);
            Ok (s, root)
          else if (k >? key n)%Z then
            '(s, r) ← bst_delete fuel s (right n) k;
            s ← update s root (set_right r);
            Ok (s, root)
          else
            match left n, right n with
            | None, None => s ← free s root; Ok (s, NULL)
            | None, Some _ => let r := right n in s ← free s root; Ok (s, r)
            | Some _, None => let l := left n in s ← free s root; Ok (s, l)
            | Some _, Some _ =>
                succ ← bst_min fuel s (right n);
                ns ← load s succ;
                s ← update s root (set_key (key ns));
                n ← load s root;
                ns ← load s succ;
                '(s, r) ← bst_delete fuel s (right n) (key ns);
                s ← update s root (set_right r);
                Ok (s, root)
            end
      end
  end.

(** The traversals take a visitor; the model returns the keys in the
    order in which the visitor is called. *)
Fixpoint bst_preorder (fuel : nat) (s : store) (root : ptr) : outcome (list Z) :=
  match root with
  | None => Ok []
  | Some _ =>
      match fuel with
      | O => OutOfFuel
      | S fuel =>
          n ← load s root;
          ls ← bst_preorder fuel s (left n);
          rs ← bst_preorder fuel s (right n);
          Ok (key n :: ls ++ rs)
      end
  end.

Fixpoint bst_inorder (fuel : nat) (s : store) (root : ptr) : outcome (list Z) :=
  match root with
  | None => Ok []
  | Some _ =>
      match fuel with
      | O => OutOfFuel
      | S fuel =>
          n ← load s root;
          ls ← bst_inorder fuel s (left n);
          rs ← bst_inorder fuel s (right n);
          Ok (ls ++ key n :: rs)
      end
  end.

Fixpoint bst_postorder (fuel : nat) (s : store) (root : ptr) : outcome (list Z) :=
  match root with
  | None => Ok []
  | Some _ =>
      match fuel with
      | O => OutOfFuel
      | S fuel =>
          n ← load s root;
          ls ← bst_postorder fuel s (left n);
          rs ← bst_postorder fuel s (right n);
          Ok (ls ++ rs ++ [key n])
      end
  end.

(** [bst_free] frees the two subtrees and then the node (post-order); the
    field [root->right] is read after the left subtree has been freed. *)
Fixpoint bst_free (fuel : nat) (s : store) (root : ptr) : outcome store :=
  match root with
  | None => Ok s
  | Some _ =>
      match fuel with
      | O => OutOfFuel
      | S fuel =>
          n ← load s root;
          s ← bst_free fuel s (left n);
          n ← load s root;
          s ← bst_free fuel s (right n);
          free s root
      end
  end.

End BST.

(** ** treap.c *)

Module Treap.

(** Every [TreapNode] is owned by exactly one parent slot and the
    operations hand subtrees over rather than share them, so a
    [TreapNode *] is modelled by the tree it owns ([Leaf] is [NULL]).
    The priority that [treap_new_node] draws with [rand()] is an argument. *)
Inductive TreapNode :=
  | Leaf
  | Node (left : TreapNode) (key priority : Z) (right : TreapNode).

Definition treap_new_node (k : Z) (rand : Z) : TreapNode :=
  Node Leaf k rand Leaf.

(** The out-parameters [*l] and [*r] are returned as a pair. *)
Fixpoint treap_split (t : TreapNode) (k : Z) : TreapNode * TreapNode :=
  match t with
  | Leaf => (Leaf, Leaf)
  | Node tl tk tp tr =>
      if (k <=? tk)%Z then
        let '(l, tl') := treap_split tl k in
        (l, Node tl' tk tp tr)
      else
        let '(tr', r) := treap_split tr k in
        (Node tl tk tp tr', r)
  end.

Fixpoint treap_merge (l r : TreapNode) {struct l} : TreapNode :=
  match l with
  | Leaf => r
  | Node ll lk lp lr =>
      (fix merge_into_r (r : TreapNode) : TreapNode :=
         match r with
         | Leaf => l
         | Node rl rk rp rr =>
             if (lp >? rp)%Z
             then Node ll lk lp (treap_merge lr r)
             else Node (merge_into_r rl) rk rp rr
         end) r
  end.

Definition treap_insert (root : TreapNode) (k : Z) (rand : Z) : TreapNode :=
  let '(l, r) := treap_split root k in
  let n := treap_new_node k rand in
  treap_merge (treap_merge l n) r.

Fixpoint treap_remove (root : TreapNode) (k : Z) : TreapNode :=
  match root with
  | Leaf => Leaf
  | Node l rk rp r =>
      if (rk =? k)%Z then treap_merge l r
      else if (k <? rk)%Z then Node (treap_remove l k) rk rp r
      else Node l rk rp (treap_remove r k)
  end.

Fixpoint treap_search (root : TreapNode) (k : Z) : bool :=
  match root with
  | Leaf => false
  | Node l rk _ r =>
      if (k =? rk)%Z then true
      else treap_search (if (k <? rk)%Z then l else r) k
  end.

(** [treap_inorder] prints the keys; the model returns them. *)
Fixpoint treap_inorder (root : TreapNode) : list Z :=
  match root with
  | Leaf => []
  | Node l k _ r => treap_inorder l ++ k :: treap_inorder r
  end.

End Treap.

(** * Proofs *)

#[local] Set Warnings "-clear-no-such-hyp".

Ltac keep_set_hyps :=
  repeat match goal with
  | H : ?T |- _ =>
      lazymatch T with
      | _ ∈ _ => fail
      | _ ∉ _ => fail
      | _ ## _ => fail
      | _ ⊆ _ => fail
      | @eq (gset _) _ _ => fail
      | _ => clear H
      end
  end.
Ltac fp_solver := keep_set_hyps; set_solver.

Lemma bind_Ok {A B} (m : outcome A) (f : A → outcome B) a :
  m = Ok a → m ≫= f = f a.
Proof. by intros ->. Qed.

(** ** Binary trees that live in a store *)

Module PtrTree.

Inductive tree (A : Type) : Type :=
  | Leaf
  | Node (l : tree A) (x : A) (r : tree A).
Arguments Leaf {A}.
Arguments Node {A} l x r.

Fixpoint size {A} (t : tree A) : nat :=
  match t with Leaf => 0 | Node l _ r => S (size l + size r) end.

Fixpoint height {A} (t : tree A) : nat :=
  match t with Leaf => 0 | Node l _ r => S (Nat.max (height l) (height r)) end.

Fixpoint preorder {A} (t : tree A) : list A :=
  match t with Leaf => [] | Node l x r => x :: preorder l ++ preorder r end.

Fixpoint inorder {A} (t : tree A) : list A :=
  match t with Leaf => [] | Node l x r => inorder l ++ x :: inorder r end.

Lemma height_le_size {A} (t : tree A) : height t ≤ size t.
Proof. induction t; simpl; lia. Qed.

Lemma length_preorder {A} (t : tree A) : length (preorder t) = size t.
Proof. induction t; simpl; [done|]. rewrite length_app. lia. Qed.

Lemma inorder_preorder {A} (t : tree A) : inorder t ≡ₚ preorder t.
Proof.
  induction t as [|l IHl x r IHr]; simpl; [done|].
  rewrite IHl, IHr. by rewrite Permutation_middle.
Qed.

Section Rep.
Context {N A : Type} (left right : N → ptr) (label : N → A).

(** [rep s p t F]: in the store [s], the pointer [p] is the root of a
    tree (no sharing, no cycle) with the labels of [t], whose nodes
    occupy exactly the addresses [F]. *)
Inductive rep (s : gmap addr N) : ptr → tree A → gset addr → Prop :=
  | rep_null : rep s NULL Leaf ∅
  | rep_node a n tl tr Fl Fr :
      s !! a = Some n →
      rep s (left n) tl Fl → rep s (right n) tr Fr →
      a ∉ Fl → a ∉ Fr → Fl ## Fr →
      rep s (Some a) (Node tl (label n) tr) ({[a]} ∪ Fl ∪ Fr).

Lemma rep_dom s p t F : rep s p t F → F ⊆ dom s.
Proof.
  induction 1 as [|a n tl tr Fl Fr Hl _ IH1 _ IH2 _ _ _]; [set_solver|].
  assert (a ∈ dom s) by (apply elem_of_dom; eauto). set_solver.
Qed.

Lemma rep_frame s s' p t F :
  rep s p t F → (∀ q, q ∈ F → s' !! q = s !! q) → rep s' p t F.
Proof.
  induction 1 as [|a n tl tr Fl Fr Hl _ IH1 _ IH2 ? ? ?]; intros Hq;
    [constructor|].
  apply rep_node; try done.
  - rewrite Hq; [done | set_solver].
  - apply IH1. intros q ?. apply Hq. set_solver.
  - apply IH2. intros q ?. apply Hq. set_solver.
Qed.

Lemma rep_eq s p t F F' : rep s p t F → F = F' → rep s p t F'.
Proof. by intros ? <-. Qed.

Lemma rep_root s a t F : rep s (Some a) t F → a ∈ F.
Proof. inversion 1; set_solver. Qed.

Lemma rep_fun s p t F t' F' : rep s p t F → rep s p t' F' → t = t' ∧ F = F'.
Proof.
  intros H. revert t' F'.
  induction H as [|a n tl tr Fl Fr Hl _ IH1 _ IH2 _ _ _]; intros t' F' H'.
  - by inversion H'.
  - inversion H' as [|a' n' tl' tr' Fl' Fr' Hl' H1 H2]; subst.
    rewrite Hl in Hl'. injection Hl' as <-.
    destruct (IH1 _ _ H1) as [-> ->]. by destruct (IH2 _ _ H2) as [-> ->].
Qed.
End Rep.

End PtrTree.

(** ** Leftist heaps *)

Module LeftistProofs.
Import PtrTree Leftist.

(** The label of a node is the pair of its key and its stored npl. *)
Definition label (n : LeftistNode) : Z * Z := (key n, stored_npl n).

Abbreviation rep := (PtrTree.rep left right label).

Definition npl_t (t : tree (Z * Z)) : Z :=
  match t with Leaf => (-1)%Z | Node _ x _ => x.2 end.

(** The end of [leftist_merge]: [l] is the left child, [r] the merged
    right child; they are exchanged when [npl l < npl r], and the npl of
    the node is recomputed from its right child. *)
Definition fixup (l : tree (Z * Z)) (k : Z) (r : tree (Z * Z)) : tree (Z * Z) :=
  if (npl_t l <? npl_t r)%Z
  then Node r (k, (1 + npl_t l)%Z) l
  else Node l (k, (1 + npl_t r)%Z) r.

(** What [leftist_merge] computes, on the trees that its arguments own. *)
Inductive merged : tree (Z * Z) → tree (Z * Z) → tree (Z * Z) → Prop :=
  | merged_nil_l b : merged Leaf b b
  | merged_nil_r a : merged a Leaf a
  | merged_keep la xa ra lb xb rb t :
      (xb.1 <? xa.1)%Z = false →
      merged ra (Node lb xb rb) t →
      merged (Node la xa ra) (Node lb xb rb) (fixup la xa.1 t)
  | merged_swap la xa ra lb xb rb t :
      (xb.1 <? xa.1)%Z = true →
      merged rb (Node la xa ra) t →
      merged (Node la xa ra) (Node lb xb rb) (fixup lb xb.1 t).

Lemma leftist_load_Some (s : store) a n : s !! a = Some n → load s (Some a) = Ok n.
Proof. intros H. unfold load. by rewrite H. Qed.

Lemma leftist_update_Some (s : store) a n f :
  s !! a = Some n → update s (Some a) f = Ok (<[a := f n]> s).
Proof. intros H. unfold update. by rewrite H. Qed.

Lemma leftist_malloc_fresh (s : store) : malloc s ∉ dom s.
Proof. unfold malloc. apply is_fresh. Qed.

Lemma npl_spec (s : store) p t F : rep s p t F → npl s p = Ok (npl_t t).
Proof.
  destruct 1 as [|a n tl tr Fl Fr Hl]; [done|].
  unfold npl. by rewrite (leftist_load_Some _ _ _ Hl).
Qed.

(** One unfolding of [leftist_merge] once the root that stays on top is
    known: [a] is that root, [r1] the merged right subtree. *)
Lemma leftist_merge_finish (s1 : store) a na r1 tl t1 Fl F1 :
  s1 !! a = Some na →
  rep s1 (left na) tl Fl → rep s1 r1 t1 F1 →
  a ∉ Fl → a ∉ F1 → Fl ## F1 →
  ∃ s',
    (s2 ← update s1 (Some a) (set_right r1);
     na ← load s2 (Some a);
     nl ← npl s2 (left na);
     nr ← npl s2 (right na);
     s3 ← (if (nl <? nr)%Z then
             let tmp := left na in
             s3 ← update s2 (Some a) (set_left (right na));
             update s3 (Some a) (set_right tmp)
           else Ok s2);
     na ← load s3 (Some a);
     nr ← npl s3 (right na);
     s4 ← update s3 (Some a) (set_npl (1 + nr)%Z);
     Ok (s4, Some a)) = Ok (s', Some a) ∧
    rep s' (Some a) (fixup tl (key na) t1) ({[a]} ∪ Fl ∪ F1) ∧
    (∀ q, q ≠ a → s' !! q = s1 !! q) ∧ dom s' = dom s1.
Proof.
  intros Ha Hl Hr Hnl Hn1 Hd.
  rewrite (leftist_update_Some _ _ _ _ Ha). cbn [mbind outcome_bind].
  set (s2 := <[a := set_right r1 na]> s1).
  assert (Hl2 : rep s2 (left na) tl Fl).
  { eapply rep_frame; [done|]. intros q Hq. apply lookup_insert_ne. fp_solver. }
  assert (Hr2 : rep s2 r1 t1 F1).
  { eapply rep_frame; [done|]. intros q Hq. apply lookup_insert_ne. fp_solver. }
  erewrite leftist_load_Some by apply lookup_insert_eq. cbn [mbind outcome_bind].
  change (left (set_right r1 na)) with (left na).
  change (right (set_right r1 na)) with r1.
  rewrite (npl_spec _ _ _ _ Hl2), (npl_spec _ _ _ _ Hr2). cbn [mbind outcome_bind].
  assert (Hadom : a ∈ dom s1) by (apply elem_of_dom; eauto).
  unfold fixup. destruct (npl_t tl <? npl_t t1)%Z.
  - erewrite leftist_update_Some by apply lookup_insert_eq. cbn [mbind outcome_bind].
    erewrite leftist_update_Some by apply lookup_insert_eq. cbn [mbind outcome_bind].
    erewrite leftist_load_Some by apply lookup_insert_eq. cbn [mbind outcome_bind].
    unfold s2. rewrite !insert_insert_eq.
    unfold set_left, set_right; cbn [key left right stored_npl].
    set (s3 := <[a := _]> s1).
    assert (Hl3 : rep s3 (left na) tl Fl).
    { eapply rep_frame; [exact Hl|]. intros q Hq. apply lookup_insert_ne. fp_solver. }
    assert (Hr3 : rep s3 r1 t1 F1).
    { eapply rep_frame; [exact Hr|]. intros q Hq. apply lookup_insert_ne. fp_solver. }
    rewrite (npl_spec _ _ _ _ Hl3). cbn [mbind outcome_bind].
    erewrite leftist_update_Some by apply lookup_insert_eq. cbn [mbind outcome_bind].
    unfold s3. rewrite insert_insert_eq. unfold set_npl; cbn [key left right].
    eexists. split; [done|]. split; [|split].
    + eapply rep_eq;
        [apply (rep_node left right label _ a
                  (mkNode (key na) (1 + npl_t tl)%Z r1 (left na)) t1 tl F1 Fl)|].
      * apply lookup_insert_eq.
      * eapply rep_frame; [exact Hr|]. intros q Hq. apply lookup_insert_ne. fp_solver.
      * eapply rep_frame; [exact Hl|]. intros q Hq. apply lookup_insert_ne. fp_solver.
      * done.
      * done.
      * done.
      * fp_solver.
    + intros q Hq. by apply lookup_insert_ne.
    + rewrite dom_insert_L. fp_solver.
  - cbn [mbind outcome_bind].
    erewrite leftist_load_Some by apply lookup_insert_eq. cbn [mbind outcome_bind].
    change (right (set_right r1 na)) with r1.
    rewrite (npl_spec _ _ _ _ Hr2). cbn [mbind outcome_bind].
    erewrite leftist_update_Some by apply lookup_insert_eq. cbn [mbind outcome_bind].
    unfold s2. rewrite insert_insert_eq.
    unfold set_npl, set_right; cbn [key left right].
    eexists. split; [done|]. split; [|split].
    + apply (rep_node left right label _ a
               (mkNode (key na) (1 + npl_t t1)%Z (left na) r1) tl t1 Fl F1).
      * apply lookup_insert_eq.
      * eapply rep_frame; [exact Hl|]. intros q Hq. apply lookup_insert_ne. fp_solver.
      * eapply rep_frame; [exact Hr|]. intros q Hq. apply lookup_insert_ne. fp_solver.
      * done.
      * done.
      * done.
    + intros q Hq. by apply lookup_insert_ne.
    + rewrite dom_insert_L. fp_solver.
Qed.

Lemma leftist_merge_spec fuel : ∀ (s : store) a b ta tb Fa Fb,
  rep s a ta Fa → rep s b tb Fb → Fa ## Fb → size ta + size tb ≤ fuel →
  ∃ s' r t,
    leftist_merge fuel s a b = Ok (s', r) ∧ merged ta tb t ∧
    rep s' r t (Fa ∪ Fb) ∧ (∀ q, q ∉ Fa ∪ Fb → s' !! q = s !! q) ∧
    dom s' = dom s.
Proof.
  induction fuel as [|fuel IH]; intros s a b ta tb Fa Fb Ha Hb Hdisj Hsz.
  - destruct Ha as [|a na tla tra Fla Fra].
    + exists s, b, tb. split; [by destruct b|]. split; [constructor|].
      split; [eapply rep_eq; [done|set_solver]|done].
    + destruct Hb; [|simpl in Hsz; lia].
      exists s, (Some a), (Node tla (label na) tra). split; [done|].
      split; [constructor|]. split; [|done].
      eapply rep_eq; [by econstructor|set_solver].
  - destruct Ha as [|a na tla tra Fla Fra Hla Hrl Hrr Hnl Hnr Hlr].
    { exists s, b, tb. split; [by destruct b|]. split; [constructor|].
      split; [eapply rep_eq; [done|set_solver]|done]. }
    destruct Hb as [|b nb tlb trb Flb Frb Hlb Hbl Hbr Hbnl Hbnr Hblr].
    { exists s, (Some a), (Node tla (label na) tra). split; [done|].
      split; [constructor|]. split; [|done].
      eapply rep_eq; [by econstructor|set_solver]. }
    cbn [leftist_merge]. rewrite (leftist_load_Some _ _ _ Hla), (leftist_load_Some _ _ _ Hlb).
    cbn [mbind outcome_bind]. simpl in Hsz.
    destruct (key nb <? key na)%Z eqn:Hk.
    + (* the roots are exchanged *)
      rewrite (leftist_load_Some _ _ _ Hlb). cbn [mbind outcome_bind].
      destruct (IH s (right nb) (Some a) trb (Node tla (label na) tra) Frb
                  ({[a]} ∪ Fla ∪ Fra))
        as (s1 & r1 & t1 & Hm & Hmg & Hr1 & Hfr & Hdom);
        [done | by econstructor | fp_solver | simpl; lia |].
      rewrite Hm. cbn [mbind outcome_bind].
      destruct (leftist_merge_finish s1 b nb r1 tlb t1 Flb (Frb ∪ ({[a]} ∪ Fla ∪ Fra)))
        as (s' & Heq & Hrep & Hfr' & Hdom'); [| |done| | | |].
      { rewrite Hfr; [done | fp_solver]. }
      { eapply rep_frame; [done|]. intros q Hq. apply Hfr. fp_solver. }
      { done. }
      { fp_solver. }
      { fp_solver. }
      exists s', (Some b), (fixup tlb (key nb) t1).
      split; [exact Heq|]. split; [by apply (merged_swap _ (label na) _ _ (label nb))|].
      split; [|split].
      * eapply rep_eq; [done | fp_solver].
      * intros q Hq. rewrite Hfr' by fp_solver. apply Hfr. fp_solver.
      * by rewrite Hdom'.
    + rewrite (leftist_load_Some _ _ _ Hla). cbn [mbind outcome_bind].
      destruct (IH s (right na) (Some b) tra (Node tlb (label nb) trb) Fra
                  ({[b]} ∪ Flb ∪ Frb))
        as (s1 & r1 & t1 & Hm & Hmg & Hr1 & Hfr & Hdom);
        [done | by econstructor | fp_solver | simpl; lia |].
      rewrite Hm. cbn [mbind outcome_bind].
      destruct (leftist_merge_finish s1 a na r1 tla t1 Fla (Fra ∪ ({[b]} ∪ Flb ∪ Frb)))
        as (s' & Heq & Hrep & Hfr' & Hdom'); [| |done| | | |].
      { rewrite Hfr; [done | fp_solver]. }
      { eapply rep_frame; [done|]. intros q Hq. apply Hfr. fp_solver. }
      { done. }
      { fp_solver. }
      { fp_solver. }
      exists s', (Some a), (fixup tla (key na) t1).
      split; [exact Heq|]. split; [by apply (merged_keep _ (label na) _ _ (label nb))|].
      split; [|split].
      * eapply rep_eq; [done | fp_solver].
      * intros q Hq. rewrite Hfr' by fp_solver. apply Hfr. fp_solver.
      * by rewrite Hdom'.
Qed.

(** The leftist invariant: at every node the stored npl is
    [1 + min (npl left) (npl right)] and [npl left >= npl right]. *)
Fixpoint leftist (t : tree (Z * Z)) : Prop :=
  match t with
  | Leaf => True
  | Node l x r =>
      x.2 = (1 + Z.min (npl_t l) (npl_t r))%Z ∧ (npl_t l >= npl_t r)%Z
      ∧ leftist l ∧ leftist r
  end.

(** The length of the shortest path from the root to an absent child. *)
Fixpoint null_path_length (t : tree (Z * Z)) : Z :=
  match t with
  | Leaf => (-1)%Z
  | Node l _ r => (1 + Z.min (null_path_length l) (null_path_length r))%Z
  end.

Lemma leftist_npl t : leftist t → npl_t t = null_path_length t.
Proof.
  induction t as [|l IHl x r IHr]; [done|].
  intros (Hx & _ & Hl & Hr). simpl. rewrite Hx, IHl, IHr; done.
Qed.

Lemma fixup_leftist l k r : leftist l → leftist r → leftist (fixup l k r).
Proof.
  intros Hl Hr. unfold fixup. destruct (npl_t l <? npl_t r)%Z eqn:E; simpl.
  - apply Z.ltb_lt in E. split_and!; [lia | lia | done..].
  - apply Z.ltb_ge in E. split_and!; [lia | lia | done..].
Qed.

Lemma leftist_merged_leftist ta tb t :
  merged ta tb t → leftist ta → leftist tb → leftist t.
Proof.
  induction 1 as [b|a|la xa ra lb xb rb t Hk Hm IH|la xa ra lb xb rb t Hk Hm IH];
    intros Ha Hb; try done.
  - destruct Ha as (_ & _ & Hla & Hra). apply fixup_leftist; [done|by apply IH].
  - destruct Hb as (_ & _ & Hlb & Hrb). apply fixup_leftist; [done|by apply IH].
Qed.

Definition keys (t : tree (Z * Z)) : list Z := fst <$> preorder t.

Fixpoint heap_ordered (t : tree (Z * Z)) : Prop :=
  match t with
  | Leaf => True
  | Node l x r =>
      Forall (Z.le x.1) (keys l) ∧ Forall (Z.le x.1) (keys r)
      ∧ heap_ordered l ∧ heap_ordered r
  end.

Lemma keys_node l x r : keys (Node l x r) = x.1 :: keys l ++ keys r.
Proof. unfold keys. simpl. by rewrite fmap_app. Qed.

Lemma keys_fixup l k r : keys (fixup l k r) ≡ₚ k :: keys l ++ keys r.
Proof.
  unfold fixup. destruct (_ <? _)%Z; rewrite keys_node; simpl; [|done].
  solve_Permutation.
Qed.

Lemma size_fixup l k r : size (fixup l k r) = S (size l + size r).
Proof. unfold fixup. destruct (_ <? _)%Z; simpl; lia. Qed.

Lemma leftist_merged_keys ta tb t : merged ta tb t → keys t ≡ₚ keys ta ++ keys tb.
Proof.
  induction 1 as [b|a|la xa ra lb xb rb t Hk _ IH|la xa ra lb xb rb t Hk _ IH].
  - done.
  - by rewrite app_nil_r.
  - rewrite keys_fixup, IH, !keys_node. solve_Permutation.
  - rewrite keys_fixup, IH, !keys_node. solve_Permutation.
Qed.

Lemma leftist_merged_size ta tb t : merged ta tb t → size t = size ta + size tb.
Proof.
  induction 1 as [b|a|la xa ra lb xb rb t Hk _ IH|la xa ra lb xb rb t Hk _ IH];
    simpl; rewrite ?size_fixup, ?IH; simpl; lia.
Qed.

Lemma fixup_heap_ordered l k r :
  Forall (Z.le k) (keys l) → Forall (Z.le k) (keys r) →
  heap_ordered l → heap_ordered r → heap_ordered (fixup l k r).
Proof. intros. unfold fixup. destruct (_ <? _)%Z; simpl; auto. Qed.

Lemma leftist_heap_ordered_root_le l x r :
  heap_ordered (Node l x r) → Forall (Z.le x.1) (keys (Node l x r)).
Proof.
  intros (Hl & Hr & _). rewrite keys_node. constructor; [lia|]. by apply Forall_app.
Qed.

Lemma leftist_merged_heap_ordered ta tb t :
  merged ta tb t → heap_ordered ta → heap_ordered tb → heap_ordered t.
Proof.
  induction 1 as [b|a|la xa ra lb xb rb t Hk Hm IH|la xa ra lb xb rb t Hk Hm IH];
    intros Ha Hb; try done.
  - pose proof (leftist_heap_ordered_root_le _ _ _ Hb) as Hbr.
    destruct Ha as (Hal & Har & Hla & Hra).
    apply fixup_heap_ordered; [done| |done|by apply IH].
    rewrite (leftist_merged_keys _ _ _ Hm). apply Forall_app. split; [done|].
    apply Z.ltb_ge in Hk. eapply Forall_impl; [exact Hbr|]. simpl. intros; lia.
  - pose proof (leftist_heap_ordered_root_le _ _ _ Ha) as Har.
    destruct Hb as (Hbl & Hbr & Hlb & Hrb).
    apply fixup_heap_ordered; [done| |done|by apply IH].
    rewrite (leftist_merged_keys _ _ _ Hm). apply Forall_app. split; [done|].
    apply Z.ltb_lt in Hk. eapply Forall_impl; [exact Har|]. simpl. intros; lia.
Qed.

Lemma leftist_insert_spec fuel (s : store) h t F k :
  rep s h t F → size t + 1 ≤ fuel →
  ∃ s' r t',
    leftist_insert fuel s h k = Ok (s', r) ∧ merged t (Node Leaf (k, 0%Z) Leaf) t' ∧
    rep s' r t' (F ∪ {[malloc s]}) ∧
    (∀ q, q ∈ dom s → q ∉ F → s' !! q = s !! q).
Proof.
  intros Hr Hsz. unfold leftist_insert, leftist_new_node.
  pose proof (leftist_malloc_fresh s) as Ha. set (a := malloc s) in *.
  pose proof (rep_dom _ _ _ _ _ _ _ Hr) as HF.
  destruct (leftist_merge_spec fuel (<[a := mkNode k 0 NULL NULL]> s) h (Some a)
              t (Node Leaf (k, 0%Z) Leaf) F ({[a]} ∪ ∅ ∪ ∅))
    as (s' & r & t' & Hm & Hmg & Hr' & Hfr & _).
  - eapply rep_frame; [done|]. intros q Hq. apply lookup_insert_ne. fp_solver.
  - apply (rep_node left right label _ a (mkNode k 0 NULL NULL) Leaf Leaf ∅ ∅);
      [apply lookup_insert_eq | constructor | constructor | set_solver..].
  - fp_solver.
  - simpl. lia.
  - exists s', r, t'. split; [done|]. split; [done|]. split.
    + eapply rep_eq; [done | fp_solver].
    + intros q Hq HqF. rewrite Hfr by fp_solver. apply lookup_insert_ne. fp_solver.
Qed.

Lemma leftist_find_min_spec (s : store) a l x r F :
  rep s (Some a) (Node l x r) F → leftist_find_min s (Some a) = Ok x.1.
Proof.
  inversion 1 as [|a' n tl tr Fl Fr Hl]; subst.
  unfold leftist_find_min. rewrite bool_decide_true by done.
  cbn [assert mbind outcome_bind]. by rewrite (leftist_load_Some _ _ _ Hl).
Qed.

Lemma leftist_delete_min_spec fuel (s : store) a l x r F :
  rep s (Some a) (Node l x r) F → size l + size r ≤ fuel →
  ∃ s' p t',
    leftist_delete_min fuel s (Some a) = Ok (s', p) ∧ merged l r t' ∧
    rep s' p t' (F ∖ {[a]}) ∧ (∀ q, q ∉ F → s' !! q = s !! q).
Proof.
  inversion 1 as [|a' n tl tr Fl Fr Hl Hrl Hrr Hnl Hnr Hlr]; subst. intros Hsz.
  destruct (leftist_merge_spec fuel s (left n) (right n) l r Fl Fr)
    as (s1 & p & t' & Hm & Hmg & Hr' & Hfr & Hdom); [done..|].
  unfold leftist_delete_min.
  rewrite bool_decide_true by done. cbn [assert mbind outcome_bind].
  rewrite (leftist_load_Some _ _ _ Hl). cbn [mbind outcome_bind]. rewrite Hm.
  cbn [mbind outcome_bind free].
  assert (s1 !! a = Some n) as -> by (rewrite Hfr; [done | fp_solver]).
  cbn [mbind outcome_bind].
  exists (delete a s1), p, t'. split; [done|]. split; [done|]. split.
  - eapply rep_eq; [eapply rep_frame; [done|] | fp_solver].
    intros q Hq. apply lookup_delete_ne. fp_solver.
  - intros q Hq. rewrite lookup_delete_ne by fp_solver. apply Hfr. fp_solver.
Qed.

Lemma leftist_drain_spec fuel : ∀ (s : store) h t F,
  rep s h t F → heap_ordered t → size t ≤ fuel →
  ∃ s' ks,
    leftist_drain fuel s h = Ok (s', ks) ∧
    StronglySorted Z.le ks ∧ ks ≡ₚ keys t ∧
    (∀ q, q ∉ F → s' !! q = s !! q).
Proof.
  induction fuel as [|fuel IH]; intros s h t F Hr Hh Hsz.
  - destruct Hr; [|simpl in Hsz; lia].
    exists s, []. split; [done|]. split; [constructor|done].
  - destruct t as [|l x r].
    { inversion Hr; subst. exists s, []. split; [done|]. split; [constructor|done]. }
    destruct h as [a|]; [|inversion Hr]. simpl in Hsz.
    destruct (leftist_delete_min_spec fuel s a l x r F Hr)
      as (s1 & p & t' & Hd & Hmg & Hr1 & Hfr1); [lia|].
    destruct Hh as (Hl & Hrr & Hhl & Hhr).
    destruct (IH s1 p t' _ Hr1) as (s2 & ks & Hdr & Hs & Hp & Hfr2).
    { by eapply leftist_merged_heap_ordered. }
    { rewrite (leftist_merged_size _ _ _ Hmg). lia. }
    cbn [leftist_drain]. rewrite (leftist_find_min_spec _ _ _ _ _ _ Hr).
    cbn [mbind outcome_bind]. rewrite Hd. cbn [mbind outcome_bind]. rewrite Hdr.
    cbn [mbind outcome_bind]. exists s2, (x.1 :: ks).
    pose proof (leftist_merged_keys _ _ _ Hmg) as Hpre.
    split; [done|]. split; [|split].
    + constructor; [done|]. rewrite Hp, Hpre. by apply Forall_app.
    + rewrite keys_node. by rewrite Hp, Hpre.
    + intros q Hq. rewrite Hfr2 by fp_solver. by apply Hfr1.
Qed.

Lemma leftist_clone_spec fuel : ∀ (s : store) h t F,
  rep s h t F → size t ≤ fuel →
  ∃ s' c Fc,
    leftist_clone fuel s h = Ok (s', c) ∧ rep s' c t Fc ∧
    Fc ## dom s ∧ dom s' = dom s ∪ Fc ∧ (∀ q, q ∈ dom s → s' !! q = s !! q).
Proof.
  induction fuel as [|fuel IH]; intros s h t F Hr Hsz.
  - destruct Hr; [|simpl in Hsz; lia].
    exists s, NULL, ∅. split; [done|]. split; [constructor|].
    split; [set_solver|]. split; [set_solver|done].
  - destruct Hr as [|a n tl tr Fl Fr Hl Hrl Hrr Hnl Hnr Hlr].
    { exists s, NULL, ∅. split; [done|]. split; [constructor|].
      split; [set_solver|]. split; [set_solver|done]. }
    simpl in Hsz. cbn [leftist_clone]. rewrite (leftist_load_Some _ _ _ Hl).
    cbn [mbind outcome_bind leftist_new_node].
    pose proof (leftist_malloc_fresh s) as Hc. set (c := malloc s) in *.
    assert (Hac : a ≠ c).
    { intros ->. apply Hc. apply elem_of_dom. eauto. }
    assert (Hadom : a ∈ dom s) by (apply elem_of_dom; eauto).
    pose proof (rep_dom _ _ _ _ _ _ _ Hrl) as HFl.
    pose proof (rep_dom _ _ _ _ _ _ _ Hrr) as HFr.
    set (s0 := <[c := mkNode (key n) 0 NULL NULL]> s).
    assert (Hl0 : s0 !! a = Some n) by (unfold s0; by rewrite lookup_insert_ne).
    rewrite (leftist_load_Some _ _ _ Hl0). cbn [mbind outcome_bind].
    erewrite leftist_update_Some by apply lookup_insert_eq. cbn [mbind outcome_bind].
    unfold s0. rewrite insert_insert_eq. unfold set_npl; cbn [key left right].
    set (s1 := <[c := mkNode (key n) (stored_npl n) NULL NULL]> s).
    assert (Hl1 : s1 !! a = Some n) by (unfold s1; by rewrite lookup_insert_ne).
    rewrite (leftist_load_Some _ _ _ Hl1). cbn [mbind outcome_bind].
    destruct (IH s1 (left n) tl Fl) as (s2 & l' & Fl' & Hcl & Hrl' & Hd2 & Hdom2 & Hfr2);
      [|lia|].
    { eapply rep_frame; [done|]. intros q Hq. apply lookup_insert_ne. fp_solver. }
    assert (Hdom1 : dom s1 = {[c]} ∪ dom s) by apply dom_insert_L.
    rewrite Hcl. cbn [mbind outcome_bind].
    assert (Hc2 : s2 !! c = Some (mkNode (key n) (stored_npl n) NULL NULL)).
    { rewrite Hfr2 by fp_solver. apply lookup_insert_eq. }
    rewrite (leftist_update_Some _ _ _ _ Hc2). cbn [mbind outcome_bind].
    set (s3 := <[c := set_left l' (mkNode (key n) (stored_npl n) NULL NULL)]> s2).
    assert (Hl3 : s3 !! a = Some n).
    { unfold s3. rewrite lookup_insert_ne by done. rewrite Hfr2; [done|].
      rewrite Hdom1. fp_solver. }
    rewrite (leftist_load_Some _ _ _ Hl3). cbn [mbind outcome_bind].
    assert (Hdom3 : dom s3 = dom s2).
    { unfold s3. rewrite dom_insert_L. assert (c ∈ dom s2) by (apply elem_of_dom; eauto).
      fp_solver. }
    destruct (IH s3 (right n) tr Fr) as (s4 & r' & Fr' & Hcr & Hrr' & Hd4 & Hdom4 & Hfr4);
      [|lia|].
    { eapply rep_frame; [done|]. intros q Hq. unfold s3.
      rewrite lookup_insert_ne by fp_solver. rewrite Hfr2 by fp_solver.
      apply lookup_insert_ne. fp_solver. }
    rewrite Hcr. cbn [mbind outcome_bind].
    assert (Hc4 : s4 !! c = Some (set_left l' (mkNode (key n) (stored_npl n) NULL NULL))).
    { rewrite Hfr4; [apply lookup_insert_eq|]. rewrite Hdom3, Hdom2, Hdom1. fp_solver. }
    rewrite (leftist_update_Some _ _ _ _ Hc4). cbn [mbind outcome_bind].
    unfold set_left, set_right; cbn [key left right stored_npl].
    rewrite Hdom3, Hdom2, Hdom1 in Hd4.
    eexists _, (Some c), ({[c]} ∪ Fl' ∪ Fr'). split; [done|]. split; [|split; [|split]].
    + apply (rep_node left right label _ c (mkNode (key n) (stored_npl n) l' r')
               tl tr Fl' Fr').
      * apply lookup_insert_eq.
      * eapply rep_frame; [done|]. intros q Hq. cbn [left].
        rewrite lookup_insert_ne by fp_solver.
        rewrite Hfr4 by (rewrite Hdom3, Hdom2; fp_solver).
        apply lookup_insert_ne. fp_solver.
      * eapply rep_frame; [done|]. intros q Hq. cbn [right].
        apply lookup_insert_ne. fp_solver.
      * fp_solver.
      * fp_solver.
      * fp_solver.
    + fp_solver.
    + rewrite dom_insert_L, Hdom4, Hdom3, Hdom2, Hdom1. fp_solver.
    + intros q Hq. assert (q ≠ c) by (intros ->; done).
      rewrite lookup_insert_ne by done.
      rewrite Hfr4 by (rewrite Hdom3, Hdom2, Hdom1; fp_solver).
      unfold s3. rewrite lookup_insert_ne by done.
      rewrite Hfr2 by (rewrite Hdom1; fp_solver).
      by apply lookup_insert_ne.
Qed.

Lemma leftist_merge_persistent_spec fuel (s : store) a b ta tb Fa Fb :
  rep s a ta Fa → rep s b tb Fb → size ta + size tb ≤ fuel →
  ∃ s' r t F',
    leftist_merge_persistent fuel s a b = Ok (s', r) ∧ merged ta tb t ∧
    rep s' r t F' ∧ F' ## dom s ∧ (∀ q, q ∈ dom s → s' !! q = s !! q).
Proof.
  intros Ha Hb Hsz. unfold leftist_merge_persistent.
  destruct (leftist_clone_spec fuel s a ta Fa Ha)
    as (s1 & ca & Fca & Hc1 & Hr1 & Hd1 & Hdom1 & Hfr1); [lia|].
  rewrite Hc1. cbn [mbind outcome_bind].
  destruct (leftist_clone_spec fuel s1 b tb Fb)
    as (s2 & cb & Fcb & Hc2 & Hr2 & Hd2 & Hdom2 & Hfr2); [|lia|].
  { eapply rep_frame; [done|]. intros q Hq. apply Hfr1.
    by apply (rep_dom _ _ _ _ _ _ _ Hb). }
  rewrite Hc2. cbn [mbind outcome_bind]. rewrite Hdom1 in Hd2.
  destruct (leftist_merge_spec fuel s2 ca cb ta tb Fca Fcb)
    as (s3 & r & t & Hm & Hmg & Hr3 & Hfr3 & Hdom3); [|done| |done|].
  { eapply rep_frame; [done|]. intros q Hq. apply Hfr2. rewrite Hdom1. fp_solver. }
  { fp_solver. }
  exists s3, r, t, (Fca ∪ Fcb). split; [done|]. split; [done|]. split; [done|].
  split.
  - fp_solver.
  - intros q Hq. rewrite Hfr3 by fp_solver.
    rewrite Hfr2 by (rewrite Hdom1; fp_solver). by apply Hfr1.
Qed.

(** Heap order and contents through the three operations. *)
Lemma leftist_operations_heap_ordered
    fuel (s : store) a b ta tb Fa Fb k :
  rep s a ta Fa → rep s b tb Fb → Fa ## Fb →
  heap_ordered ta → heap_ordered tb → size ta + size tb + 1 ≤ fuel →
  (∃ s' r t,
     leftist_merge fuel s a b = Ok (s', r) ∧ rep s' r t (Fa ∪ Fb) ∧
     heap_ordered t ∧ keys t ≡ₚ keys ta ++ keys tb)
  ∧ (∃ s' r t F,
       leftist_insert fuel s a k = Ok (s', r) ∧ rep s' r t F ∧
       heap_ordered t ∧ keys t ≡ₚ k :: keys ta)
  ∧ (a ≠ NULL →
     ∃ s' r t F m,
       leftist_find_min s a = Ok m ∧
       leftist_delete_min fuel s a = Ok (s', r) ∧ rep s' r t F ∧
       heap_ordered t ∧ keys ta ≡ₚ m :: keys t ∧ Forall (Z.le m) (keys ta)).
Proof.
  intros Ha Hb Hd Oa Ob Hsz. split_and!.
  - destruct (leftist_merge_spec fuel s a b ta tb Fa Fb)
      as (s' & r & t & Hm & Hmg & Hr & _); [done..|lia|].
    exists s', r, t. split_and!; [done | done | | by apply leftist_merged_keys].
    by eapply leftist_merged_heap_ordered.
  - destruct (leftist_insert_spec fuel s a ta Fa k Ha)
      as (s' & r & t & Hm & Hmg & Hr & _); [lia|].
    eexists s', r, t, _. split_and!; [done | done | |].
    + eapply leftist_merged_heap_ordered; [done..|]. simpl. split_and!; done.
    + rewrite (leftist_merged_keys _ _ _ Hmg). unfold keys at 2. simpl.
      by rewrite Permutation_app_comm.
  - intros Hnz. destruct a as [a|]; [|done].
    destruct ta as [|l x r]; [inversion Ha|]. simpl in Hsz.
    destruct (leftist_delete_min_spec fuel s a l x r Fa Ha)
      as (s' & p & t & Hm & Hmg & Hr & _); [lia|].
    pose proof (leftist_heap_ordered_root_le _ _ _ Oa) as Hroot.
    destruct Oa as (_ & _ & Ol & Or).
    eexists s', p, t, _, x.1.
    split_and!; [by eapply leftist_find_min_spec | done | done | | | done].
    + by eapply leftist_merged_heap_ordered.
    + rewrite keys_node. by rewrite (leftist_merged_keys _ _ _ Hmg).
Qed.

(** *** The depth of the recursion of [leftist_merge] *)

(** The number of nodes on the path that follows [right] pointers. *)
Fixpoint right_spine {A} (t : tree A) : nat :=
  match t with Leaf => 0 | Node _ _ r => S (right_spine r) end.

(** [leftist_merge] only descends along right spines: a step budget of
    the two right-spine lengths is enough. *)
Lemma leftist_merge_spine_spec fuel : ∀ (s : store) a b ta tb Fa Fb,
  rep s a ta Fa → rep s b tb Fb → Fa ## Fb →
  right_spine ta + right_spine tb ≤ fuel →
  ∃ s' r t,
    leftist_merge fuel s a b = Ok (s', r) ∧ merged ta tb t ∧
    rep s' r t (Fa ∪ Fb) ∧ (∀ q, q ∉ Fa ∪ Fb → s' !! q = s !! q) ∧
    dom s' = dom s.
Proof.
  induction fuel as [|fuel IH]; intros s a b ta tb Fa Fb Ha Hb Hdisj Hsz.
  - destruct Ha as [|a na tla tra Fla Fra].
    + exists s, b, tb. split; [by destruct b|]. split; [constructor|].
      split; [eapply rep_eq; [done|set_solver]|done].
    + destruct Hb; [|simpl in Hsz; lia].
      exists s, (Some a), (Node tla (label na) tra). split; [done|].
      split; [constructor|]. split; [|done].
      eapply rep_eq; [by econstructor|set_solver].
  - destruct Ha as [|a na tla tra Fla Fra Hla Hrl Hrr Hnl Hnr Hlr].
    { exists s, b, tb. split; [by destruct b|]. split; [constructor|].
      split; [eapply rep_eq; [done|set_solver]|done]. }
    destruct Hb as [|b nb tlb trb Flb Frb Hlb Hbl Hbr Hbnl Hbnr Hblr].
    { exists s, (Some a), (Node tla (label na) tra). split; [done|].
      split; [constructor|]. split; [|done].
      eapply rep_eq; [by econstructor|set_solver]. }
    cbn [leftist_merge]. rewrite (leftist_load_Some _ _ _ Hla), (leftist_load_Some _ _ _ Hlb).
    cbn [mbind outcome_bind]. simpl in Hsz.
    destruct (key nb <? key na)%Z eqn:Hk.
    + rewrite (leftist_load_Some _ _ _ Hlb). cbn [mbind outcome_bind].
      destruct (IH s (right nb) (Some a) trb (Node tla (label na) tra) Frb
                  ({[a]} ∪ Fla ∪ Fra))
        as (s1 & r1 & t1 & Hm & Hmg & Hr1 & Hfr & Hdom);
        [done | by econstructor | fp_solver | simpl; lia |].
      rewrite Hm. cbn [mbind outcome_bind].
      destruct (leftist_merge_finish s1 b nb r1 tlb t1 Flb (Frb ∪ ({[a]} ∪ Fla ∪ Fra)))
        as (s' & Heq & Hrep & Hfr' & Hdom'); [| |done| | | |].
      { rewrite Hfr; [done | fp_solver]. }
      { eapply rep_frame; [done|]. intros q Hq. apply Hfr. fp_solver. }
      { done. }
      { fp_solver. }
      { fp_solver. }
      exists s', (Some b), (fixup tlb (key nb) t1).
      split; [exact Heq|]. split; [by apply (merged_swap _ (label na) _ _ (label nb))|].
      split; [|split].
      * eapply rep_eq; [done | fp_solver].
      * intros q Hq. rewrite Hfr' by fp_solver. apply Hfr. fp_solver.
      * by rewrite Hdom'.
    + rewrite (leftist_load_Some _ _ _ Hla). cbn [mbind outcome_bind].
      destruct (IH s (right na) (Some b) tra (Node tlb (label nb) trb) Fra
                  ({[b]} ∪ Flb ∪ Frb))
        as (s1 & r1 & t1 & Hm & Hmg & Hr1 & Hfr & Hdom);
        [done | by econstructor | fp_solver | simpl; lia |].
      rewrite Hm. cbn [mbind outcome_bind].
      destruct (leftist_merge_finish s1 a na r1 tla t1 Fla (Fra ∪ ({[b]} ∪ Flb ∪ Frb)))
        as (s' & Heq & Hrep & Hfr' & Hdom'); [| |done| | | |].
      { rewrite Hfr; [done | fp_solver]. }
      { eapply rep_frame; [done|]. intros q Hq. apply Hfr. fp_solver. }
      { done. }
      { fp_solver. }
      { fp_solver. }
      exists s', (Some a), (fixup tla (key na) t1).
      split; [exact Heq|]. split; [by apply (merged_keep _ (label na) _ _ (label nb))|].
      split; [|split].
      * eapply rep_eq; [done | fp_solver].
      * intros q Hq. rewrite Hfr' by fp_solver. apply Hfr. fp_solver.
      * by rewrite Hdom'.
Qed.

(** In a leftist tree the right spine has [npl + 1] nodes ... *)
Lemma leftist_right_spine (t : tree (Z * Z)) :
  leftist t → Z.of_nat (right_spine t) = (npl_t t + 1)%Z.
Proof.
  induction t as [|l IHl x r IHr]; [done|].
  intros (Hx & Hge & Hl & Hr). specialize (IHr Hr).
  cbn [right_spine npl_t]. lia.
Qed.

(** ... and is the shortest path to a missing child, so the tree holds at
    least [2 ^ right_spine - 1] nodes. *)
Lemma leftist_size_bound (t : tree (Z * Z)) :
  leftist t → 2 ^ right_spine t ≤ size t + 1.
Proof.
  induction t as [|l IHl x r IHr]; [simpl; lia|].
  intros (Hx & Hge & Hl & Hr).
  pose proof (leftist_right_spine l Hl). pose proof (leftist_right_spine r Hr).
  specialize (IHl Hl). specialize (IHr Hr).
  assert (2 ^ right_spine r ≤ 2 ^ right_spine l)
    by (apply Nat.pow_le_mono_r; lia).
  cbn [right_spine size]. rewrite Nat.pow_succ_r'. lia.
Qed.

Lemma leftist_right_spine_log (t : tree (Z * Z)) :
  leftist t → right_spine t ≤ Nat.log2 (size t + 1).
Proof.
  intros H%leftist_size_bound. apply Nat.log2_le_pow2; [lia|done].
Qed.

(** *** Allocation and release *)

Lemma leftist_insert_full fuel (s : store) h t F k :
  rep s h t F → heap_ordered t → size t + 1 ≤ fuel →
  ∃ s' r t',
    leftist_insert fuel s h k = Ok (s', r) ∧
    rep s' r t' (F ∪ {[malloc s]}) ∧ dom s' = dom s ∪ {[malloc s]} ∧
    (∀ q, q ∈ dom s → q ∉ F → s' !! q = s !! q) ∧
    heap_ordered t' ∧ keys t' ≡ₚ k :: keys t ∧ size t' = S (size t).
Proof.
  intros Hr Hh Hsz. unfold leftist_insert, leftist_new_node.
  pose proof (leftist_malloc_fresh s) as Ha. set (a := malloc s) in *.
  pose proof (rep_dom _ _ _ _ _ _ _ Hr) as HF.
  destruct (leftist_merge_spec fuel (<[a := mkNode k 0 NULL NULL]> s) h (Some a)
              t (Node Leaf (k, 0%Z) Leaf) F ({[a]} ∪ ∅ ∪ ∅))
    as (s' & r & t' & Hm & Hmg & Hr' & Hfr & Hdom).
  - eapply rep_frame; [done|]. intros q Hq. apply lookup_insert_ne. fp_solver.
  - apply (rep_node left right label _ a (mkNode k 0 NULL NULL) Leaf Leaf ∅ ∅);
      [apply lookup_insert_eq | constructor | constructor | set_solver..].
  - fp_solver.
  - simpl. lia.
  - exists s', r, t'. split; [done|]. split; [|split; [|split; [|split; [|split]]]].
    + eapply rep_eq; [done | fp_solver].
    + rewrite Hdom, dom_insert_L. fp_solver.
    + intros q Hq HqF. rewrite Hfr by fp_solver. apply lookup_insert_ne. fp_solver.
    + eapply leftist_merged_heap_ordered; [done..|]. simpl. split_and!; done.
    + rewrite (leftist_merged_keys _ _ _ Hmg). cbn. by rewrite Permutation_app_comm.
    + rewrite (leftist_merged_size _ _ _ Hmg). simpl. lia.
Qed.

Lemma leftist_insert_all_spec fuel vals : ∀ (s : store) h t F,
  rep s h t F → heap_ordered t → size t + length vals ≤ fuel →
  ∃ s' r t' N,
    leftist_insert_all fuel s h vals = Ok (s', r) ∧
    rep s' r t' (F ∪ N) ∧ N ## dom s ∧ dom s' = dom s ∪ N ∧
    (∀ q, q ∈ dom s → q ∉ F → s' !! q = s !! q) ∧
    heap_ordered t' ∧ keys t' ≡ₚ vals ++ keys t ∧
    size t' = size t + length vals.
Proof.
  induction vals as [|v vals IH]; intros s h t F Hr Hh Hsz.
  - exists s, h, t, ∅. split; [done|]. split; [eapply rep_eq; [done|set_solver]|].
    split; [set_solver|]. split; [set_solver|]. split; [done|].
    split; [done|]. split; [done|]. simpl. lia.
  - simpl in Hsz.
    destruct (leftist_insert_full fuel s h t F v Hr Hh)
      as (s1 & r1 & t1 & Hi & Hr1 & Hd1 & Hfr1 & Hh1 & Hk1 & Hs1); [lia|].
    pose proof (leftist_malloc_fresh s) as Ha. set (a := malloc s) in *.
    pose proof (rep_dom _ _ _ _ _ _ _ Hr) as HF.
    destruct (IH s1 r1 t1 _ Hr1 Hh1) as
      (s' & r & t' & N & Hia & Hr' & HN & Hd' & Hfr' & Hh' & Hk' & Hs'); [lia|].
    exists s', r, t', ({[a]} ∪ N). cbn [leftist_insert_all].
    rewrite Hi. cbn [mbind outcome_bind].
    split; [done|]. split; [|split; [|split; [|split; [|split; [|split]]]]].
    + eapply rep_eq; [done | fp_solver].
    + rewrite Hd1 in HN. fp_solver.
    + rewrite Hd', Hd1. fp_solver.
    + intros q Hq HqF. rewrite Hfr'; [by apply Hfr1| |].
      * rewrite Hd1. fp_solver.
      * fp_solver.
    + done.
    + rewrite Hk', Hk1. solve_Permutation.
    + simpl. lia.
Qed.

Lemma leftist_delete_min_dom fuel (s : store) a l x r F s' p :
  rep s (Some a) (Node l x r) F → size l + size r ≤ fuel →
  leftist_delete_min fuel s (Some a) = Ok (s', p) → dom s' = dom s ∖ {[a]}.
Proof.
  inversion 1 as [|a' n tl tr Fl Fr Hl Hrl Hrr Hnl Hnr Hlr]; subst. intros Hsz.
  destruct (leftist_merge_spec fuel s (left n) (right n) l r Fl Fr)
    as (s1 & p1 & t' & Hm & Hmg & Hr' & Hfr & Hdom); [done..|].
  unfold leftist_delete_min.
  rewrite bool_decide_true by done. cbn [assert mbind outcome_bind].
  rewrite (leftist_load_Some _ _ _ Hl). cbn [mbind outcome_bind]. rewrite Hm.
  cbn [mbind outcome_bind free].
  assert (s1 !! a = Some n) as -> by (rewrite Hfr; [done | fp_solver]).
  cbn [mbind outcome_bind]. intros [= <- <-]. by rewrite dom_delete_L, Hdom.
Qed.

Lemma leftist_drain_dom fuel : ∀ (s : store) h t F s' ks,
  rep s h t F → size t ≤ fuel →
  leftist_drain fuel s h = Ok (s', ks) → dom s' = dom s ∖ F.
Proof.
  induction fuel as [|fuel IH]; intros s h t F s' ks Hr Hsz Hd.
  - destruct Hr; [|simpl in Hsz; lia]. injection Hd as <- <-. set_solver.
  - destruct t as [|l x r].
    { inversion Hr; subst. injection Hd as <- <-. set_solver. }
    destruct h as [a|]; [|inversion Hr]. simpl in Hsz.
    destruct (leftist_delete_min_spec fuel s a l x r F Hr)
      as (s1 & p & t' & Hdm & Hmg & Hr1 & Hfr1); [lia|].
    pose proof (leftist_delete_min_dom fuel s a l x r F s1 p Hr ltac:(lia) Hdm) as Hd1.
    cbn [leftist_drain] in Hd. rewrite (leftist_find_min_spec _ _ _ _ _ _ Hr) in Hd.
    cbn [mbind outcome_bind] in Hd. rewrite Hdm in Hd. cbn [mbind outcome_bind] in Hd.
    destruct (leftist_drain fuel s1 p) as [[s2 rest]| | |] eqn:E; try done.
    cbn [mbind outcome_bind] in Hd. injection Hd as <- <-.
    rewrite (IH s1 p t' _ s2 rest Hr1); [| |done].
    + pose proof (rep_root _ _ _ _ _ _ _ Hr). rewrite Hd1.
      apply set_eq. intros q. rewrite !elem_of_difference, elem_of_singleton.
      destruct (decide (q = a)) as [->|]; naive_solver.
    + rewrite (leftist_merged_size _ _ _ Hmg). lia.
Qed.

Lemma leftist_destroy_spec fuel : ∀ (s : store) h t F,
  rep s h t F → height t ≤ fuel →
  ∃ s',
    leftist_destroy fuel s h = Ok s' ∧ dom s' = dom s ∖ F ∧
    (∀ q, q ∉ F → s' !! q = s !! q).
Proof.
  induction fuel as [|fuel IH]; intros s h t F Hr Hsz.
  - destruct Hr; [|simpl in Hsz; lia]. exists s. split; [done|]. split; [set_solver|done].
  - destruct Hr as [|a n tl tr Fl Fr Hl Hrl Hrr Hnl Hnr Hlr].
    { exists s. split; [done|]. split; [set_solver|done]. }
    simpl in Hsz. cbn [leftist_destroy]. rewrite (leftist_load_Some _ _ _ Hl).
    cbn [mbind outcome_bind].
    destruct (IH s (left n) tl Fl Hrl) as (s1 & Hd1 & Hdom1 & Hfr1); [lia|].
    rewrite Hd1. cbn [mbind outcome_bind].
    assert (Hl1 : s1 !! a = Some n) by (rewrite Hfr1; done).
    rewrite (leftist_load_Some _ _ _ Hl1). cbn [mbind outcome_bind].
    destruct (IH s1 (right n) tr Fr) as (s2 & Hd2 & Hdom2 & Hfr2); [|lia|].
    { eapply rep_frame; [done|]. intros q Hq. apply Hfr1. fp_solver. }
    rewrite Hd2. cbn [mbind outcome_bind free].
    assert (s2 !! a = Some n) as -> by (rewrite Hfr2; done).
    exists (delete a s2). split; [done|]. split.
    + rewrite dom_delete_L, Hdom2, Hdom1. fp_solver.
    + intros q Hq. rewrite lookup_delete_ne by fp_solver.
      rewrite Hfr2 by fp_solver. apply Hfr1. fp_solver.
Qed.

Lemma leftist_print_spec fuel : ∀ (s : store) h t F,
  rep s h t F → height t ≤ fuel →
  leftist_print fuel s h = Ok (fst <$> inorder t).
Proof.
  induction fuel as [|fuel IH]; intros s h t F Hr Hsz.
  - by destruct Hr; [|simpl in Hsz; lia].
  - destruct Hr as [|a n tl tr Fl Fr Hl Hrl Hrr Hnl Hnr Hlr]; [done|].
    simpl in Hsz. cbn [leftist_print]. rewrite (leftist_load_Some _ _ _ Hl).
    cbn [mbind outcome_bind]. rewrite (IH _ _ _ _ Hrl) by lia.
    cbn [mbind outcome_bind]. rewrite (IH _ _ _ _ Hrr) by lia.
    cbn [mbind outcome_bind inorder]. by rewrite fmap_app.
Qed.

(** [merged] is a function of its two arguments. *)
Lemma leftist_merged_fun ta tb t1 :
  merged ta tb t1 → ∀ t2, merged ta tb t2 → t1 = t2.
Proof.
  induction 1 as [b|a|la xa ra lb xb rb t Hk Hm IH|la xa ra lb xb rb t Hk Hm IH];
    intros t2 H2.
  - by inversion H2.
  - by inversion H2.
  - inversion H2; subst; [|congruence]. f_equal. by apply IH.
  - inversion H2; subst; [congruence|]. f_equal. by apply IH.
Qed.

End LeftistProofs.

(** ** Skew heaps *)

Module SkewProofs.
Import PtrTree Skew.

Abbreviation rep := (PtrTree.rep left right key).

(** What [skew_merge] computes, on the trees that its arguments own. *)
Inductive merged : tree Z → tree Z → tree Z → Prop :=
  | merged_nil_l b : merged Leaf b b
  | merged_nil_r a : merged a Leaf a
  | merged_keep la ka ra lb kb rb t :
      (kb <? ka)%Z = false →
      merged ra (Node lb kb rb) t →
      merged (Node la ka ra) (Node lb kb rb) (Node t ka la)
  | merged_swap la ka ra lb kb rb t :
      (kb <? ka)%Z = true →
      merged rb (Node la ka ra) t →
      merged (Node la ka ra) (Node lb kb rb) (Node t kb lb).

Fixpoint heap_ordered (t : tree Z) : Prop :=
  match t with
  | Leaf => True
  | Node l k r =>
      Forall (Z.le k) (preorder l) ∧ Forall (Z.le k) (preorder r)
      ∧ heap_ordered l ∧ heap_ordered r
  end.

Lemma skew_load_Some (s : store) a n : s !! a = Some n → load s (Some a) = Ok n.
Proof. intros H. unfold load. by rewrite H. Qed.

Lemma skew_update_Some (s : store) a n f :
  s !! a = Some n → update s (Some a) f = Ok (<[a := f n]> s).
Proof. intros H. unfold update. by rewrite H. Qed.

Lemma skew_malloc_fresh (s : store) : malloc s ∉ dom s.
Proof. unfold malloc. apply is_fresh. Qed.

Lemma skew_merge_spec fuel : ∀ (s : store) a b ta tb Fa Fb,
  rep s a ta Fa → rep s b tb Fb → Fa ## Fb → size ta + size tb ≤ fuel →
  ∃ s' r t,
    skew_merge fuel s a b = Ok (s', r) ∧ merged ta tb t ∧
    rep s' r t (Fa ∪ Fb) ∧ (∀ q, q ∉ Fa ∪ Fb → s' !! q = s !! q) ∧
    dom s' = dom s.
Proof.
  induction fuel as [|fuel IH]; intros s a b ta tb Fa Fb Ha Hb Hdisj Hsz.
  - destruct Ha as [|a na tla tra Fla Fra].
    + exists s, b, tb. split; [by destruct b|]. split; [constructor|].
      split; [eapply rep_eq; [done|set_solver]|done].
    + destruct Hb; [|simpl in Hsz; lia].
      exists s, (Some a), (Node tla (key na) tra). split; [done|].
      split; [constructor|]. split; [|done].
      eapply rep_eq; [by econstructor|set_solver].
  - destruct Ha as [|a na tla tra Fla Fra Hla Hrl Hrr Hnl Hnr Hlr].
    { exists s, b, tb. split; [by destruct b|]. split; [constructor|].
      split; [eapply rep_eq; [done|set_solver]|done]. }
    destruct Hb as [|b nb tlb trb Flb Frb Hlb Hbl Hbr Hbnl Hbnr Hblr].
    { exists s, (Some a), (Node tla (key na) tra). split; [done|].
      split; [constructor|]. split; [|done].
      eapply rep_eq; [by econstructor|set_solver]. }
    cbn [skew_merge]. rewrite (skew_load_Some _ _ _ Hla), (skew_load_Some _ _ _ Hlb).
    cbn [mbind outcome_bind]. simpl in Hsz.
    destruct (key nb <? key na)%Z eqn:Hk.
    + (* the roots are exchanged *)
      rewrite (skew_load_Some _ _ _ Hlb). cbn [mbind outcome_bind].
      destruct (IH s (right nb) (Some a) trb (Node tla (key na) tra) Frb
                  ({[a]} ∪ Fla ∪ Fra))
        as (s1 & r1 & t1 & Hm & Hmg & Hr1 & Hfr & Hdom);
        [done | by econstructor | fp_solver | simpl; lia |].
      rewrite Hm. cbn [mbind outcome_bind].
      assert (Hb1 : s1 !! b = Some nb) by (rewrite Hfr; [done | fp_solver]).
      rewrite (skew_update_Some _ _ _ _ Hb1). cbn [mbind outcome_bind].
      erewrite skew_load_Some by apply lookup_insert_eq. cbn [mbind outcome_bind].
      erewrite skew_update_Some by apply lookup_insert_eq. cbn [mbind outcome_bind].
      erewrite skew_update_Some by apply lookup_insert_eq.
      rewrite !insert_insert_eq. unfold set_left, set_right; cbn [key left right].
      eexists _, _, _. split; [done|]. split; [by apply merged_swap|].
      split; [|split].
      * eapply rep_eq;
          [apply (rep_node left right key _ b (mkNode (key nb) r1 (left nb))
                    t1 tlb (Frb ∪ ({[a]} ∪ Fla ∪ Fra)) Flb)|].
        -- apply lookup_insert_eq.
        -- eapply rep_frame; [done|]. intros q Hq. apply lookup_insert_ne. fp_solver.
        -- eapply rep_frame; [done|]. intros q Hq.
           rewrite lookup_insert_ne by fp_solver. apply Hfr. fp_solver.
        -- fp_solver.
        -- done.
        -- fp_solver.
        -- fp_solver.
      * intros q Hq. rewrite lookup_insert_ne by fp_solver. apply Hfr. fp_solver.
      * rewrite dom_insert_L, Hdom. assert (b ∈ dom s) by (apply elem_of_dom; eauto).
        fp_solver.
    + rewrite (skew_load_Some _ _ _ Hla). cbn [mbind outcome_bind].
      destruct (IH s (right na) (Some b) tra (Node tlb (key nb) trb) Fra
                  ({[b]} ∪ Flb ∪ Frb))
        as (s1 & r1 & t1 & Hm & Hmg & Hr1 & Hfr & Hdom);
        [done | by econstructor | fp_solver | simpl; lia |].
      rewrite Hm. cbn [mbind outcome_bind].
      assert (Ha1 : s1 !! a = Some na) by (rewrite Hfr; [done | fp_solver]).
      rewrite (skew_update_Some _ _ _ _ Ha1). cbn [mbind outcome_bind].
      erewrite skew_load_Some by apply lookup_insert_eq. cbn [mbind outcome_bind].
      erewrite skew_update_Some by apply lookup_insert_eq. cbn [mbind outcome_bind].
      erewrite skew_update_Some by apply lookup_insert_eq.
      rewrite !insert_insert_eq. unfold set_left, set_right; cbn [key left right].
      eexists _, _, _. split; [done|]. split; [by apply merged_keep|].
      split; [|split].
      * eapply rep_eq;
          [apply (rep_node left right key _ a (mkNode (key na) r1 (left na))
                    t1 tla (Fra ∪ ({[b]} ∪ Flb ∪ Frb)) Fla)|].
        -- apply lookup_insert_eq.
        -- eapply rep_frame; [done|]. intros q Hq. apply lookup_insert_ne. fp_solver.
        -- eapply rep_frame; [done|]. intros q Hq.
           rewrite lookup_insert_ne by fp_solver. apply Hfr. fp_solver.
        -- fp_solver.
        -- done.
        -- fp_solver.
        -- fp_solver.
      * intros q Hq. rewrite lookup_insert_ne by fp_solver. apply Hfr. fp_solver.
      * rewrite dom_insert_L, Hdom. assert (a ∈ dom s) by (apply elem_of_dom; eauto).
        fp_solver.
Qed.

Lemma skew_merged_preorder ta tb t :
  merged ta tb t → preorder t ≡ₚ preorder ta ++ preorder tb.
Proof.
  induction 1 as [b|a|la ka ra lb kb rb t Hk _ IH|la ka ra lb kb rb t Hk _ IH];
    simpl in *.
  - done.
  - by rewrite app_nil_r.
  - rewrite IH. simpl. solve_Permutation.
  - rewrite IH. simpl. solve_Permutation.
Qed.

Lemma skew_merged_size ta tb t : merged ta tb t → size t = size ta + size tb.
Proof.
  intros H%skew_merged_preorder%Permutation_length.
  rewrite length_app, !length_preorder in H. done.
Qed.

Lemma skew_heap_ordered_root_le l k r :
  heap_ordered (Node l k r) → Forall (Z.le k) (preorder (Node l k r)).
Proof.
  intros (Hl & Hr & _). simpl. constructor; [lia|]. by apply Forall_app.
Qed.

Lemma skew_merged_heap_ordered ta tb t :
  merged ta tb t → heap_ordered ta → heap_ordered tb → heap_ordered t.
Proof.
  induction 1 as [b|a|la ka ra lb kb rb t Hk Hm IH|la ka ra lb kb rb t Hk Hm IH];
    intros Ha Hb; try done.
  - pose proof (skew_heap_ordered_root_le _ _ _ Hb) as Hbr.
    destruct Ha as (Hal & Har & Hla & Hra).
    simpl. split_and!; try done; [|by apply IH].
    rewrite (skew_merged_preorder _ _ _ Hm). apply Forall_app. split; [done|].
    apply Z.ltb_ge in Hk. eapply Forall_impl; [exact Hbr|]. simpl. intros; lia.
  - pose proof (skew_heap_ordered_root_le _ _ _ Ha) as Har.
    destruct Hb as (Hbl & Hbr & Hlb & Hrb).
    simpl. split_and!; try done; [|by apply IH].
    rewrite (skew_merged_preorder _ _ _ Hm). apply Forall_app. split; [done|].
    apply Z.ltb_lt in Hk. eapply Forall_impl; [exact Har|]. simpl. intros; lia.
Qed.

Lemma skew_insert_spec fuel (s : store) h t F k :
  rep s h t F → size t + 1 ≤ fuel →
  ∃ s' r t',
    skew_insert fuel s h k = Ok (s', r) ∧ merged t (Node Leaf k Leaf) t' ∧
    rep s' r t' (F ∪ {[malloc s]}) ∧
    (∀ q, q ∈ dom s → q ∉ F → s' !! q = s !! q).
Proof.
  intros Hr Hsz. unfold skew_insert, skew_new_node.
  pose proof (skew_malloc_fresh s) as Ha. set (a := malloc s) in *.
  pose proof (rep_dom _ _ _ _ _ _ _ Hr) as HF.
  destruct (skew_merge_spec fuel (<[a := mkNode k NULL NULL]> s) h (Some a)
              t (Node Leaf k Leaf) F ({[a]} ∪ ∅ ∪ ∅))
    as (s' & r & t' & Hm & Hmg & Hr' & Hfr & _).
  - eapply rep_frame; [done|]. intros q Hq. apply lookup_insert_ne. fp_solver.
  - apply (rep_node left right key _ a (mkNode k NULL NULL) Leaf Leaf ∅ ∅);
      [apply lookup_insert_eq | constructor | constructor | set_solver..].
  - fp_solver.
  - simpl. lia.
  - exists s', r, t'. split; [done|]. split; [done|]. split.
    + eapply rep_eq; [done | fp_solver].
    + intros q Hq HqF. rewrite Hfr by fp_solver. apply lookup_insert_ne. fp_solver.
Qed.

Lemma skew_find_min_spec (s : store) a l k r F :
  rep s (Some a) (Node l k r) F → skew_find_min s (Some a) = Ok k.
Proof.
  inversion 1 as [|a' n tl tr Fl Fr Hl]; subst.
  unfold skew_find_min. rewrite bool_decide_true by done.
  cbn [assert mbind outcome_bind]. by rewrite (skew_load_Some _ _ _ Hl).
Qed.

Lemma skew_delete_min_spec fuel (s : store) a l k r F :
  rep s (Some a) (Node l k r) F → size l + size r ≤ fuel →
  ∃ s' p t',
    skew_delete_min fuel s (Some a) = Ok (s', p) ∧ merged l r t' ∧
    rep s' p t' (F ∖ {[a]}) ∧ (∀ q, q ∉ F → s' !! q = s !! q).
Proof.
  inversion 1 as [|a' n tl tr Fl Fr Hl Hrl Hrr Hnl Hnr Hlr]; subst. intros Hsz.
  destruct (skew_merge_spec fuel s (left n) (right n) l r Fl Fr)
    as (s1 & p & t' & Hm & Hmg & Hr' & Hfr & Hdom); [done..|].
  unfold skew_delete_min.
  rewrite bool_decide_true by done. cbn [assert mbind outcome_bind].
  rewrite (skew_load_Some _ _ _ Hl). cbn [mbind outcome_bind]. rewrite Hm.
  cbn [mbind outcome_bind free].
  assert (s1 !! a = Some n) as -> by (rewrite Hfr; [done | fp_solver]).
  cbn [mbind outcome_bind].
  exists (delete a s1), p, t'. split; [done|]. split; [done|]. split.
  - eapply rep_eq; [eapply rep_frame; [done|] | fp_solver].
    intros q Hq. apply lookup_delete_ne. fp_solver.
  - intros q Hq. rewrite lookup_delete_ne by fp_solver. apply Hfr. fp_solver.
Qed.

Lemma skew_drain_spec fuel : ∀ (s : store) h t F,
  rep s h t F → heap_ordered t → size t ≤ fuel →
  ∃ s' ks,
    skew_drain fuel s h = Ok (s', ks) ∧
    StronglySorted Z.le ks ∧ ks ≡ₚ preorder t ∧
    (∀ q, q ∉ F → s' !! q = s !! q).
Proof.
  induction fuel as [|fuel IH]; intros s h t F Hr Hh Hsz.
  - destruct Hr; [|simpl in Hsz; lia].
    exists s, []. split; [done|]. split; [constructor|done].
  - destruct t as [|l k r].
    { inversion Hr; subst. exists s, []. split; [done|]. split; [constructor|done]. }
    destruct h as [a|]; [|inversion Hr]. simpl in Hsz.
    destruct (skew_delete_min_spec fuel s a l k r F Hr)
      as (s1 & p & t' & Hd & Hmg & Hr1 & Hfr1); [lia|].
    destruct Hh as (Hl & Hrr & Hhl & Hhr).
    destruct (IH s1 p t' _ Hr1) as (s2 & ks & Hdr & Hs & Hp & Hfr2).
    { by eapply skew_merged_heap_ordered. }
    { rewrite (skew_merged_size _ _ _ Hmg). lia. }
    cbn [skew_drain]. rewrite (skew_find_min_spec _ _ _ _ _ _ Hr).
    cbn [mbind outcome_bind]. rewrite Hd. cbn [mbind outcome_bind]. rewrite Hdr.
    cbn [mbind outcome_bind]. exists s2, (k :: ks).
    pose proof (skew_merged_preorder _ _ _ Hmg) as Hpre.
    split; [done|]. split; [|split].
    + constructor; [done|]. rewrite Hp, Hpre. by apply Forall_app.
    + simpl. by rewrite Hp, Hpre.
    + intros q Hq. rewrite Hfr2 by fp_solver. by apply Hfr1.
Qed.

Lemma skew_clone_spec fuel : ∀ (s : store) h t F,
  rep s h t F → size t ≤ fuel →
  ∃ s' c Fc,
    skew_clone fuel s h = Ok (s', c) ∧ rep s' c t Fc ∧
    Fc ## dom s ∧ dom s' = dom s ∪ Fc ∧ (∀ q, q ∈ dom s → s' !! q = s !! q).
Proof.
  induction fuel as [|fuel IH]; intros s h t F Hr Hsz.
  - destruct Hr; [|simpl in Hsz; lia].
    exists s, NULL, ∅. split; [done|]. split; [constructor|].
    split; [set_solver|]. split; [set_solver|done].
  - destruct Hr as [|a n tl tr Fl Fr Hl Hrl Hrr Hnl Hnr Hlr].
    { exists s, NULL, ∅. split; [done|]. split; [constructor|].
      split; [set_solver|]. split; [set_solver|done]. }
    simpl in Hsz. cbn [skew_clone]. rewrite (skew_load_Some _ _ _ Hl).
    cbn [mbind outcome_bind skew_new_node].
    pose proof (skew_malloc_fresh s) as Hc. set (c := malloc s) in *.
    assert (Hac : a ≠ c).
    { intros ->. apply Hc. apply elem_of_dom. eauto. }
    pose proof (rep_dom _ _ _ _ _ _ _ Hrl) as HFl.
    pose proof (rep_dom _ _ _ _ _ _ _ Hrr) as HFr.
    set (s1 := <[c := mkNode (key n) NULL NULL]> s).
    assert (Hl1 : s1 !! a = Some n) by (unfold s1; by rewrite lookup_insert_ne).
    rewrite (skew_load_Some _ _ _ Hl1). cbn [mbind outcome_bind].
    destruct (IH s1 (left n) tl Fl) as (s2 & l' & Fl' & Hcl & Hrl' & Hd2 & Hdom2 & Hfr2);
      [|lia|].
    { eapply rep_frame; [done|]. intros q Hq. apply lookup_insert_ne. fp_solver. }
    assert (Hdom1 : dom s1 = {[c]} ∪ dom s) by apply dom_insert_L.
    rewrite Hcl. cbn [mbind outcome_bind].
    assert (Hc2 : s2 !! c = Some (mkNode (key n) NULL NULL)).
    { rewrite Hfr2 by fp_solver. apply lookup_insert_eq. }
    rewrite (skew_update_Some _ _ _ _ Hc2). cbn [mbind outcome_bind].
    set (s3 := <[c := set_left l' (mkNode (key n) NULL NULL)]> s2).
    assert (Hl3 : s3 !! a = Some n).
    { unfold s3. rewrite lookup_insert_ne by done. rewrite Hfr2; [done|].
      rewrite Hdom1. assert (a ∈ dom s) by (apply elem_of_dom; eauto). fp_solver. }
    rewrite (skew_load_Some _ _ _ Hl3). cbn [mbind outcome_bind].
    assert (Hdom3 : dom s3 = dom s2).
    { unfold s3. rewrite dom_insert_L. assert (c ∈ dom s2) by (apply elem_of_dom; eauto).
      fp_solver. }
    destruct (IH s3 (right n) tr Fr) as (s4 & r' & Fr' & Hcr & Hrr' & Hd4 & Hdom4 & Hfr4);
      [|lia|].
    { eapply rep_frame; [done|]. intros q Hq. unfold s3.
      rewrite lookup_insert_ne by fp_solver. rewrite Hfr2 by fp_solver.
      apply lookup_insert_ne. fp_solver. }
    rewrite Hcr. cbn [mbind outcome_bind].
    assert (Hc4 : s4 !! c = Some (set_left l' (mkNode (key n) NULL NULL))).
    { rewrite Hfr4; [apply lookup_insert_eq|]. rewrite Hdom3, Hdom2, Hdom1. fp_solver. }
    rewrite (skew_update_Some _ _ _ _ Hc4). cbn [mbind outcome_bind].
    unfold set_left, set_right; cbn [key left right].
    eexists _, (Some c), ({[c]} ∪ Fl' ∪ Fr'). split; [done|]. split; [|split; [|split]].
    + apply (rep_node left right key _ c (mkNode (key n) l' r') tl tr Fl' Fr').
      * apply lookup_insert_eq.
      * eapply rep_frame; [done|]. intros q Hq. cbn [left].
        rewrite lookup_insert_ne by fp_solver.
        rewrite Hfr4 by (rewrite Hdom3, Hdom2; fp_solver).
        apply lookup_insert_ne. fp_solver.
      * eapply rep_frame; [done|]. intros q Hq. cbn [right].
        apply lookup_insert_ne. rewrite Hdom3, Hdom2, Hdom1 in Hd4. fp_solver.
      * fp_solver.
      * rewrite Hdom3, Hdom2, Hdom1 in Hd4. fp_solver.
      * rewrite Hdom3, Hdom2, Hdom1 in Hd4. fp_solver.
    + rewrite Hdom3, Hdom2, Hdom1 in Hd4. fp_solver.
    + rewrite dom_insert_L, Hdom4, Hdom3, Hdom2, Hdom1. fp_solver.
    + intros q Hq. assert (q ≠ c) by (intros ->; done).
      rewrite lookup_insert_ne by done.
      rewrite Hfr4 by (rewrite Hdom3, Hdom2, Hdom1; fp_solver).
      unfold s3. rewrite lookup_insert_ne by done.
      rewrite Hfr2 by (rewrite Hdom1; fp_solver).
      by apply lookup_insert_ne.
Qed.

Lemma skew_merge_persistent_spec fuel (s : store) a b ta tb Fa Fb :
  rep s a ta Fa → rep s b tb Fb → size ta + size tb ≤ fuel →
  ∃ s' r t F',
    skew_merge_persistent fuel s a b = Ok (s', r) ∧ merged ta tb t ∧
    rep s' r t F' ∧ F' ## dom s ∧ (∀ q, q ∈ dom s → s' !! q = s !! q).
Proof.
  intros Ha Hb Hsz. unfold skew_merge_persistent.
  destruct (skew_clone_spec fuel s a ta Fa Ha) as (s1 & ca & Fca & Hc1 & Hr1 & Hd1 & Hdom1 & Hfr1);
    [lia|].
  rewrite Hc1. cbn [mbind outcome_bind].
  destruct (skew_clone_spec fuel s1 b tb Fb) as (s2 & cb & Fcb & Hc2 & Hr2 & Hd2 & Hdom2 & Hfr2);
    [|lia|].
  { eapply rep_frame; [done|]. intros q Hq. apply Hfr1.
    by apply (rep_dom _ _ _ _ _ _ _ Hb). }
  rewrite Hc2. cbn [mbind outcome_bind].
  destruct (skew_merge_spec fuel s2 ca cb ta tb Fca Fcb)
    as (s3 & r & t & Hm & Hmg & Hr3 & Hfr3 & Hdom3); [|done| |done|].
  { eapply rep_frame; [done|]. intros q Hq. apply Hfr2. rewrite Hdom1. fp_solver. }
  { rewrite Hdom1 in Hd2. fp_solver. }
  exists s3, r, t, (Fca ∪ Fcb). split; [done|]. split; [done|]. split; [done|].
  split.
  - rewrite Hdom1 in Hd2. fp_solver.
  - intros q Hq. rewrite Hfr3 by (rewrite Hdom1 in Hd2; fp_solver).
    rewrite Hfr2 by (rewrite Hdom1; fp_solver). by apply Hfr1.
Qed.

(** Heap order and contents through the three operations. *)
Lemma skew_operations_heap_ordered
    fuel (s : store) a b ta tb Fa Fb k :
  rep s a ta Fa → rep s b tb Fb → Fa ## Fb →
  heap_ordered ta → heap_ordered tb → size ta + size tb + 1 ≤ fuel →
  (∃ s' r t,
     skew_merge fuel s a b = Ok (s', r) ∧ rep s' r t (Fa ∪ Fb) ∧
     heap_ordered t ∧ preorder t ≡ₚ preorder ta ++ preorder tb)
  ∧ (∃ s' r t F,
       skew_insert fuel s a k = Ok (s', r) ∧ rep s' r t F ∧
       heap_ordered t ∧ preorder t ≡ₚ k :: preorder ta)
  ∧ (a ≠ NULL →
     ∃ s' r t F m,
       skew_find_min s a = Ok m ∧
       skew_delete_min fuel s a = Ok (s', r) ∧ rep s' r t F ∧
       heap_ordered t ∧ preorder ta ≡ₚ m :: preorder t ∧
       Forall (Z.le m) (preorder ta)).
Proof.
  intros Ha Hb Hd Oa Ob Hsz. split_and!.
  - destruct (skew_merge_spec fuel s a b ta tb Fa Fb)
      as (s' & r & t & Hm & Hmg & Hr & _); [done..|lia|].
    exists s', r, t. split_and!; [done | done | | by apply skew_merged_preorder].
    by eapply skew_merged_heap_ordered.
  - destruct (skew_insert_spec fuel s a ta Fa k Ha)
      as (s' & r & t & Hm & Hmg & Hr & _); [lia|].
    eexists s', r, t, _. split_and!; [done | done | |].
    + eapply skew_merged_heap_ordered; [done..|]. simpl. split_and!; done.
    + rewrite (skew_merged_preorder _ _ _ Hmg). simpl.
      by rewrite Permutation_app_comm.
  - intros Hnz. destruct a as [a|]; [|done].
    destruct ta as [|l x r]; [inversion Ha|]. simpl in Hsz.
    destruct (skew_delete_min_spec fuel s a l x r Fa Ha)
      as (s' & p & t & Hm & Hmg & Hr & _); [lia|].
    pose proof (skew_heap_ordered_root_le _ _ _ Oa) as Hroot.
    destruct Oa as (_ & _ & Ol & Or).
    eexists s', p, t, _, x.
    split_and!; [by eapply skew_find_min_spec | done | done | | | done].
    + by eapply skew_merged_heap_ordered.
    + simpl. by rewrite (skew_merged_preorder _ _ _ Hmg).
Qed.

(** *** Allocation and release *)

Lemma skew_insert_full fuel (s : store) h t F k :
  rep s h t F → heap_ordered t → size t + 1 ≤ fuel →
  ∃ s' r t',
    skew_insert fuel s h k = Ok (s', r) ∧
    rep s' r t' (F ∪ {[malloc s]}) ∧ dom s' = dom s ∪ {[malloc s]} ∧
    (∀ q, q ∈ dom s → q ∉ F → s' !! q = s !! q) ∧
    heap_ordered t' ∧ preorder t' ≡ₚ k :: preorder t ∧ size t' = S (size t).
Proof.
  intros Hr Hh Hsz. unfold skew_insert, skew_new_node.
  pose proof (skew_malloc_fresh s) as Ha. set (a := malloc s) in *.
  pose proof (rep_dom _ _ _ _ _ _ _ Hr) as HF.
  destruct (skew_merge_spec fuel (<[a := mkNode k NULL NULL]> s) h (Some a)
              t (Node Leaf k Leaf) F ({[a]} ∪ ∅ ∪ ∅))
    as (s' & r & t' & Hm & Hmg & Hr' & Hfr & Hdom).
  - eapply rep_frame; [done|]. intros q Hq. apply lookup_insert_ne. fp_solver.
  - apply (rep_node left right key _ a (mkNode k NULL NULL) Leaf Leaf ∅ ∅);
      [apply lookup_insert_eq | constructor | constructor | set_solver..].
  - fp_solver.
  - simpl. lia.
  - exists s', r, t'. split; [done|]. split; [|split; [|split; [|split; [|split]]]].
    + eapply rep_eq; [done | fp_solver].
    + rewrite Hdom, dom_insert_L. fp_solver.
    + intros q Hq HqF. rewrite Hfr by fp_solver. apply lookup_insert_ne. fp_solver.
    + eapply skew_merged_heap_ordered; [done..|]. simpl. split_and!; done.
    + rewrite (skew_merged_preorder _ _ _ Hmg). cbn. by rewrite Permutation_app_comm.
    + rewrite (skew_merged_size _ _ _ Hmg). simpl. lia.
Qed.

Lemma skew_insert_all_spec fuel vals : ∀ (s : store) h t F,
  rep s h t F → heap_ordered t → size t + length vals ≤ fuel →
  ∃ s' r t' N,
    skew_insert_all fuel s h vals = Ok (s', r) ∧
    rep s' r t' (F ∪ N) ∧ N ## dom s ∧ dom s' = dom s ∪ N ∧
    (∀ q, q ∈ dom s → q ∉ F → s' !! q = s !! q) ∧
    heap_ordered t' ∧ preorder t' ≡ₚ vals ++ preorder t ∧
    size t' = size t + length vals.
Proof.
  induction vals as [|v vals IH]; intros s h t F Hr Hh Hsz.
  - exists s, h, t, ∅. split; [done|]. split; [eapply rep_eq; [done|set_solver]|].
    split; [set_solver|]. split; [set_solver|]. split; [done|].
    split; [done|]. split; [done|]. simpl. lia.
  - simpl in Hsz.
    destruct (skew_insert_full fuel s h t F v Hr Hh)
      as (s1 & r1 & t1 & Hi & Hr1 & Hd1 & Hfr1 & Hh1 & Hk1 & Hs1); [lia|].
    pose proof (skew_malloc_fresh s) as Ha. set (a := malloc s) in *.
    pose proof (rep_dom _ _ _ _ _ _ _ Hr) as HF.
    destruct (IH s1 r1 t1 _ Hr1 Hh1) as
      (s' & r & t' & N & Hia & Hr' & HN & Hd' & Hfr' & Hh' & Hk' & Hs'); [lia|].
    exists s', r, t', ({[a]} ∪ N). cbn [skew_insert_all].
    rewrite Hi. cbn [mbind outcome_bind].
    split; [done|]. split; [|split; [|split; [|split; [|split; [|split]]]]].
    + eapply rep_eq; [done | fp_solver].
    + rewrite Hd1 in HN. fp_solver.
    + rewrite Hd', Hd1. fp_solver.
    + intros q Hq HqF. rewrite Hfr'; [by apply Hfr1| |].
      * rewrite Hd1. fp_solver.
      * fp_solver.
    + done.
    + rewrite Hk', Hk1. solve_Permutation.
    + simpl. lia.
Qed.

Lemma skew_delete_min_dom fuel (s : store) a l x r F s' p :
  rep s (Some a) (Node l x r) F → size l + size r ≤ fuel →
  skew_delete_min fuel s (Some a) = Ok (s', p) → dom s' = dom s ∖ {[a]}.
Proof.
  inversion 1 as [|a' n tl tr Fl Fr Hl Hrl Hrr Hnl Hnr Hlr]; subst. intros Hsz.
  destruct (skew_merge_spec fuel s (left n) (right n) l r Fl Fr)
    as (s1 & p1 & t' & Hm & Hmg & Hr' & Hfr & Hdom); [done..|].
  unfold skew_delete_min.
  rewrite bool_decide_true by done. cbn [assert mbind outcome_bind].
  rewrite (skew_load_Some _ _ _ Hl). cbn [mbind outcome_bind]. rewrite Hm.
  cbn [mbind outcome_bind free].
  assert (s1 !! a = Some n) as -> by (rewrite Hfr; [done | fp_solver]).
  cbn [mbind outcome_bind]. intros [= <- <-]. by rewrite dom_delete_L, Hdom.
Qed.

Lemma skew_drain_dom fuel : ∀ (s : store) h t F s' ks,
  rep s h t F → size t ≤ fuel →
  skew_drain fuel s h = Ok (s', ks) → dom s' = dom s ∖ F.
Proof.
  induction fuel as [|fuel IH]; intros s h t F s' ks Hr Hsz Hd.
  - destruct Hr; [|simpl in Hsz; lia]. injection Hd as <- <-. set_solver.
  - destruct t as [|l x r].
    { inversion Hr; subst. injection Hd as <- <-. set_solver. }
    destruct h as [a|]; [|inversion Hr]. simpl in Hsz.
    destruct (skew_delete_min_spec fuel s a l x r F Hr)
      as (s1 & p & t' & Hdm & Hmg & Hr1 & Hfr1); [lia|].
    pose proof (skew_delete_min_dom fuel s a l x r F s1 p Hr ltac:(lia) Hdm) as Hd1.
    cbn [skew_drain] in Hd. rewrite (skew_find_min_spec _ _ _ _ _ _ Hr) in Hd.
    cbn [mbind outcome_bind] in Hd. rewrite Hdm in Hd. cbn [mbind outcome_bind] in Hd.
    destruct (skew_drain fuel s1 p) as [[s2 rest]| | |] eqn:E; try done.
    cbn [mbind outcome_bind] in Hd. injection Hd as <- <-.
    rewrite (IH s1 p t' _ s2 rest Hr1); [| |done].
    + pose proof (rep_root _ _ _ _ _ _ _ Hr). rewrite Hd1.
      apply set_eq. intros q. rewrite !elem_of_difference, elem_of_singleton.
      destruct (decide (q = a)) as [->|]; naive_solver.
    + rewrite (skew_merged_size _ _ _ Hmg). lia.
Qed.

Lemma skew_destroy_spec fuel : ∀ (s : store) h t F,
  rep s h t F → height t ≤ fuel →
  ∃ s',
    skew_destroy fuel s h = Ok s' ∧ dom s' = dom s ∖ F ∧
    (∀ q, q ∉ F → s' !! q = s !! q).
Proof.
  induction fuel as [|fuel IH]; intros s h t F Hr Hsz.
  - destruct Hr; [|simpl in Hsz; lia]. exists s. split; [done|]. split; [set_solver|done].
  - destruct Hr as [|a n tl tr Fl Fr Hl Hrl Hrr Hnl Hnr Hlr].
    { exists s. split; [done|]. split; [set_solver|done]. }
    simpl in Hsz. cbn [skew_destroy]. rewrite (skew_load_Some _ _ _ Hl).
    cbn [mbind outcome_bind].
    destruct (IH s (left n) tl Fl Hrl) as (s1 & Hd1 & Hdom1 & Hfr1); [lia|].
    rewrite Hd1. cbn [mbind outcome_bind].
    assert (Hl1 : s1 !! a = Some n) by (rewrite Hfr1; done).
    rewrite (skew_load_Some _ _ _ Hl1). cbn [mbind outcome_bind].
    destruct (IH s1 (right n) tr Fr) as (s2 & Hd2 & Hdom2 & Hfr2); [|lia|].
    { eapply rep_frame; [done|]. intros q Hq. apply Hfr1. fp_solver. }
    rewrite Hd2. cbn [mbind outcome_bind free].
    assert (s2 !! a = Some n) as -> by (rewrite Hfr2; done).
    exists (delete a s2). split; [done|]. split.
    + rewrite dom_delete_L, Hdom2, Hdom1. fp_solver.
    + intros q Hq. rewrite lookup_delete_ne by fp_solver.
      rewrite Hfr2 by fp_solver. apply Hfr1. fp_solver.
Qed.

Lemma skew_print_spec fuel : ∀ (s : store) h t F,
  rep s h t F → height t ≤ fuel → skew_print fuel s h = Ok (inorder t).
Proof.
  induction fuel as [|fuel IH]; intros s h t F Hr Hsz.
  - by destruct Hr; [|simpl in Hsz; lia].
  - destruct Hr as [|a n tl tr Fl Fr Hl Hrl Hrr Hnl Hnr Hlr]; [done|].
    simpl in Hsz. cbn [skew_print]. rewrite (skew_load_Some _ _ _ Hl).
    cbn [mbind outcome_bind]. rewrite (IH _ _ _ _ Hrl) by lia.
    cbn [mbind outcome_bind]. rewrite (IH _ _ _ _ Hrr) by lia.
    done.
Qed.

(** [merged] is a function of its two arguments. *)
Lemma skew_merged_fun ta tb t1 :
  merged ta tb t1 → ∀ t2, merged ta tb t2 → t1 = t2.
Proof.
  induction 1 as [b|a|la xa ra lb xb rb t Hk Hm IH|la xa ra lb xb rb t Hk Hm IH];
    intros t2 H2.
  - by inversion H2.
  - by inversion H2.
  - inversion H2; subst; [|congruence]. f_equal. by apply IH.
  - inversion H2; subst; [congruence|]. f_equal. by apply IH.
Qed.

End SkewProofs.

(** ** Binomial heaps *)

Module BinomialProofs.
Import Binomial.

(** The store and the heap after [binomial_insert(&h, 1)] and
    [binomial_insert(&h, 2)] on an empty heap: node 0 holds key 1, node 1
    holds key 2.  Node 1 has become the child of node 0, and node 0 still
    has it as its sibling. *)
Definition s12 : store :=
  <[1 := mkNode 2 0 (Some 0) NULL NULL]>
    (<[0 := mkNode 1 1 NULL (Some 1) (Some 1)]> ∅).
Definition h12 : BinomialHeap := mkHeap (Some 0).

(** The same store once [binomial_delete_min] has detached the children
    of node 0. *)
Definition s12_detached : store :=
  <[1 := mkNode 2 0 NULL NULL NULL]>
    (<[0 := mkNode 1 1 NULL (Some 1) (Some 1)]> ∅).

Lemma insert_1_2 :
  ('(s, h) ← binomial_insert 2 ∅ binomial_create 1; binomial_insert 2 s h 2)
  = Ok (s12, h12).
Proof. vm_compute. reflexivity. Qed.

Lemma merge_1_2 :
  ('(s, a) ← binomial_insert 2 ∅ binomial_create 1;
   '(s, b) ← binomial_insert 2 s binomial_create 2;
   binomial_merge 2 s a b) = Ok (s12, h12).
Proof. vm_compute. reflexivity. Qed.

Lemma merge_roots_loop_nil_l fuel (s : store) hd pos b :
  merge_roots_loop fuel s hd pos NULL b
  = '(s, hd) ← write_slot s hd pos b; Ok (s, hd).
Proof. by destruct fuel. Qed.

(** A root whose sibling is itself keeps the consolidation loop of
    [binomial_merge] running: the look-ahead test sees "three roots of one
    degree" for ever. *)
Lemma binomial_merge_loop_self (s : store) a n :
  s !! a = Some n → sibling n = Some a →
  ∀ fuel hd prev,
    binomial_merge_loop fuel s hd prev (Some a) (Some a) = OutOfFuel.
Proof.
  intros Hn Hs fuel. induction fuel as [|fuel IH]; intros hd prev; [done|].
  cbn [binomial_merge_loop]. unfold load. rewrite !Hn. cbn [mbind outcome_bind].
  rewrite Z.eqb_refl. cbn [negb]. rewrite !Hs, !Hn. cbn [mbind outcome_bind].
  rewrite Z.eqb_refl. cbn [mbind outcome_bind]. apply IH.
Qed.

Lemma delete_min_scan_12 fuel :
  delete_min_scan (S fuel) s12 (Some 0) (Some 0) NULL = Ok (Some 0, NULL).
Proof. destruct fuel; vm_compute; reflexivity. Qed.

Lemma delete_min_reverse_12 fuel :
  delete_min_reverse (S fuel) s12 (Some 1) NULL = Ok (s12_detached, Some 1).
Proof. destruct fuel; vm_compute; reflexivity. Qed.

Lemma binomial_delete_min_12 fuel : binomial_delete_min fuel s12 h12 = OutOfFuel.
Proof.
  destruct fuel as [|fuel]; [vm_compute; reflexivity|].
  unfold binomial_delete_min. change (head h12) with (Some 0).
  rewrite delete_min_scan_12. cbn [mbind outcome_bind].
  change (load s12 (Some 0)) with (Ok (mkNode 1 1 NULL (Some 1) (Some 1))).
  cbn [mbind outcome_bind child sibling]. rewrite delete_min_reverse_12.
  cbn [mbind outcome_bind].
  unfold binomial_merge, merge_roots. cbn [head merge_roots_loop].
  change (load s12_detached (Some 1)) with (Ok (mkNode 2 0 NULL NULL NULL)).
  cbn [mbind outcome_bind degree]. change (0 <=? 0)%Z with true. cbn iota.
  cbn [write_slot mbind outcome_bind].
  change (load s12_detached (Some 1)) with (Ok (mkNode 2 0 NULL NULL NULL)).
  cbn [mbind outcome_bind sibling]. rewrite merge_roots_loop_nil_l.
  cbn [write_slot]. unfold update.
  change (s12_detached !! 1) with (Some (mkNode 2 0 NULL NULL NULL)).
  cbn [mbind outcome_bind]. unfold load. rewrite lookup_insert_eq.
  cbn [mbind outcome_bind sibling set_sibling].
  erewrite binomial_merge_loop_self; [done | apply lookup_insert_eq | done].
Qed.

Lemma binomial_find_min_12 fuel :
  binomial_find_min fuel s12 h12 = OutOfFuel ∨ binomial_find_min fuel s12 h12 = Ok 1%Z.
Proof.
  destruct fuel as [|[|[|fuel]]]; vm_compute; auto.
Qed.

Lemma binomial_drain_12 fuel : binomial_drain fuel s12 h12 = OutOfFuel.
Proof.
  destruct fuel as [|fuel]; [done|].
  cbn [binomial_drain]. change (head h12) with (Some 0). cbn iota.
  destruct (binomial_find_min_12 fuel) as [-> | ->]; [done|].
  cbn [mbind outcome_bind]. by rewrite binomial_delete_min_12.
Qed.

Lemma binomial_delete_min_empty fuel (s : store) :
  binomial_delete_min fuel s binomial_create = Fault.
Proof. by destruct fuel. Qed.

Lemma binomial_find_min_empty fuel (s : store) :
  binomial_find_min fuel s binomial_create = Abort.
Proof. done. Qed.

(** *** [binomial_link] *)

Lemma binomial_load_Some (s : store) a n : s !! a = Some n → load s (Some a) = Ok n.
Proof. intros H. unfold load. by rewrite H. Qed.

Lemma binomial_update_Some (s : store) a n f :
  s !! a = Some n → update s (Some a) f = Ok (<[a := f n]> s).
Proof. intros H. unfold update. by rewrite H. Qed.

Lemma binomial_malloc_fresh (s : store) : malloc s ∉ dom s.
Proof. unfold malloc. apply is_fresh. Qed.

(** The root with the smaller key (the first one on a tie) wins: its
    degree grows by one and the other root becomes its first child.  The
    [sibling] field of the winner is not written. *)
Lemma binomial_link_spec (s : store) a b na nb :
  a ≠ b → s !! a = Some na → s !! b = Some nb →
  binomial_link s (Some a) (Some b) =
    if (key nb <? key na)%Z
    then Ok (<[b := mkNode (key nb) (degree nb + 1) (parent nb) (Some a) (sibling nb)]>
               (<[a := mkNode (key na) (degree na) (Some b) (child na) (child nb)]> s),
             Some b)
    else Ok (<[a := mkNode (key na) (degree na + 1) (parent na) (Some b) (sibling na)]>
               (<[b := mkNode (key nb) (degree nb) (Some a) (child nb) (child na)]> s),
             Some a).
Proof.
  intros Hab Ha Hb. unfold binomial_link.
  rewrite (binomial_load_Some _ _ _ Ha), (binomial_load_Some _ _ _ Hb).
  cbn [mbind outcome_bind]. destruct (key nb <? key na)%Z.
  - rewrite (binomial_update_Some _ _ _ _ Ha). cbn [mbind outcome_bind].
    erewrite binomial_load_Some by (by rewrite lookup_insert_ne).
    cbn [mbind outcome_bind].
    erewrite binomial_update_Some by apply lookup_insert_eq.
    cbn [mbind outcome_bind]. rewrite insert_insert_eq.
    erewrite binomial_update_Some by (by rewrite lookup_insert_ne).
    cbn [mbind outcome_bind].
    erewrite binomial_load_Some by apply lookup_insert_eq.
    cbn [mbind outcome_bind].
    erewrite binomial_update_Some by apply lookup_insert_eq.
    cbn [mbind outcome_bind]. by rewrite insert_insert_eq.
  - rewrite (binomial_update_Some _ _ _ _ Hb). cbn [mbind outcome_bind].
    erewrite binomial_load_Some by (by rewrite lookup_insert_ne).
    cbn [mbind outcome_bind].
    erewrite binomial_update_Some by apply lookup_insert_eq.
    cbn [mbind outcome_bind]. rewrite insert_insert_eq.
    erewrite binomial_update_Some by (by rewrite lookup_insert_ne).
    cbn [mbind outcome_bind].
    erewrite binomial_load_Some by apply lookup_insert_eq.
    cbn [mbind outcome_bind].
    erewrite binomial_update_Some by apply lookup_insert_eq.
    cbn [mbind outcome_bind]. by rewrite insert_insert_eq.
Qed.

(** *** [binomial_find_min] *)

(** The nodes met along the [sibling] pointers from [p]. *)
Inductive chain (s : store) : ptr → list BinomialNode → Prop :=
  | chain_nil : chain s NULL []
  | chain_cons a n ns :
      s !! a = Some n → chain s (sibling n) ns → chain s (Some a) (n :: ns).

Lemma binomial_find_min_loop_spec fuel (s : store) : ∀ p ns m,
  chain s p ns → length ns ≤ fuel →
  ∃ r,
    binomial_find_min_loop fuel s p m = Ok r ∧ (r <= m)%Z ∧
    Forall (λ n, (r <= key n)%Z) ns ∧ (r = m ∨ r ∈ key <$> ns).
Proof.
  induction fuel as [|fuel IH]; intros p ns m Hc Hlen.
  - destruct Hc; [|simpl in Hlen; lia].
    exists m. split; [done|]. split; [lia|]. split; [done|by left].
  - destruct Hc as [|a n ns Hn Hc].
    { exists m. split; [done|]. split; [lia|]. split; [done|by left]. }
    simpl in Hlen. cbn [binomial_find_min_loop].
    rewrite (binomial_load_Some _ _ _ Hn). cbn [mbind outcome_bind].
    destruct (IH (sibling n) ns (if (key n <? m)%Z then key n else m) Hc)
      as (r & Hr & Hle & Hall & Hin); [lia|].
    exists r. split; [done|].
    destruct (key n <? m)%Z eqn:E;
      [apply Z.ltb_lt in E | apply Z.ltb_ge in E].
    + split; [lia|]. split; [constructor; [lia|done]|].
      right. destruct Hin as [->|Hin]; set_solver.
    + split; [lia|]. split; [constructor; [lia|done]|].
      destruct Hin as [->|Hin]; [by left|right; set_solver].
Qed.

Lemma binomial_find_min_spec fuel (s : store) h ns :
  chain s (head h) ns → ns ≠ [] → length ns ≤ fuel →
  Forall (λ n, (key n <= INT_MAX)%Z) ns →
  ∃ m,
    binomial_find_min fuel s h = Ok m ∧
    m ∈ key <$> ns ∧ Forall (λ n, (m <= key n)%Z) ns.
Proof.
  intros Hc Hne Hlen Hmax.
  destruct (binomial_find_min_loop_spec fuel s (head h) ns INT_MAX Hc Hlen)
    as (m & Hm & Hle & Hall & Hin).
  exists m. unfold binomial_find_min.
  assert (head h ≠ NULL) by (destruct Hc; done).
  rewrite bool_decide_true by done. cbn [assert mbind outcome_bind].
  split; [done|]. split; [|done].
  destruct Hin as [->|Hin]; [|done].
  destruct ns as [|n ns]; [done|].
  apply Forall_cons in Hall as [H1 _]. apply Forall_cons in Hmax as [H2 _].
  assert (key n = INT_MAX) as <- by lia. set_solver.
Qed.

(** *** A heap with one key *)

Lemma binomial_insert_empty fuel (s : store) k :
  binomial_insert fuel s binomial_create k
  = Ok (<[malloc s := mkNode k 0 NULL NULL NULL]> s, mkHeap (Some (malloc s))).
Proof.
  unfold binomial_insert, binomial_new_node, binomial_merge, merge_roots.
  cbn [head binomial_create mbind outcome_bind].
  erewrite binomial_load_Some by apply lookup_insert_eq.
  cbn [mbind outcome_bind sibling]. by destruct fuel.
Qed.

Lemma binomial_delete_min_single fuel (s : store) a n :
  s !! a = Some n → sibling n = NULL → child n = NULL →
  binomial_delete_min fuel s (mkHeap (Some a)) = Ok (delete a s, binomial_create).
Proof.
  intros Hn Hs Hc. unfold binomial_delete_min. cbn [head].
  assert (delete_min_scan fuel s (Some a) (Some a) NULL = Ok (Some a, NULL)) as ->.
  { destruct fuel; cbn [delete_min_scan]; rewrite (binomial_load_Some _ _ _ Hn);
      cbn [mbind outcome_bind]; by rewrite Hs. }
  cbn [mbind outcome_bind]. rewrite (binomial_load_Some _ _ _ Hn).
  cbn [mbind outcome_bind]. rewrite Hc, Hs.
  assert (delete_min_reverse fuel s NULL NULL = Ok (s, NULL)) as -> by by destruct fuel.
  cbn [mbind outcome_bind]. unfold binomial_merge, merge_roots.
  cbn [head mbind outcome_bind free]. by rewrite Hn.
Qed.
(** *** Two keys *)

(** Inserting a key into a heap that consists of one root of degree 0. *)
Lemma binomial_insert_second fuel (s : store) a0 n0 k :
  s !! a0 = Some n0 → degree n0 = 0%Z → sibling n0 = NULL → child n0 = NULL →
  2 ≤ fuel →
  binomial_insert fuel s (mkHeap (Some a0)) k =
    if (k <? key n0)%Z
    then Ok (<[malloc s := mkNode k 1 NULL (Some a0) NULL]>
               (<[a0 := mkNode (key n0) 0 (Some (malloc s)) NULL NULL]> s),
             mkHeap (Some (malloc s)))
    else Ok (<[a0 := mkNode (key n0) 1 (parent n0) (Some (malloc s)) (Some (malloc s))]>
               (<[malloc s := mkNode k 0 (Some a0) NULL NULL]> s),
             mkHeap (Some a0)).
Proof.
  intros H0 Hdeg Hsib Hch Hfuel.
  destruct fuel as [|[|fuel]]; [lia..|].
  unfold binomial_insert, binomial_new_node.
  pose proof (binomial_malloc_fresh s) as Hfresh. set (a1 := malloc s) in *.
  assert (Hne : a0 ≠ a1) by (intros ->; apply Hfresh, elem_of_dom; eauto).
  set (s2 := <[a1 := mkNode k 0 NULL NULL NULL]> s).
  assert (H20 : s2 !! a0 = Some n0) by (unfold s2; by rewrite lookup_insert_ne).
  assert (H21 : s2 !! a1 = Some (mkNode k 0 NULL NULL NULL))
    by apply lookup_insert_eq.
  unfold binomial_merge, merge_roots. cbn [head merge_roots_loop].
  rewrite ?(binomial_load_Some _ _ _ H20), ?(binomial_load_Some _ _ _ H21).
  cbn [mbind outcome_bind degree]. rewrite Hdeg. change (0 <=? 0)%Z with true.
  cbn iota. cbn [write_slot mbind outcome_bind].
  rewrite ?(binomial_load_Some _ _ _ H20). cbn [mbind outcome_bind].
  rewrite Hsib. cbn [write_slot].
  rewrite (binomial_update_Some _ _ _ _ H20). cbn [mbind outcome_bind].
  set (n0' := set_sibling (Some a1) n0).
  set (s3 := <[a0 := n0']> s2).
  assert (H30 : s3 !! a0 = Some n0') by apply lookup_insert_eq.
  assert (H31 : s3 !! a1 = Some (mkNode k 0 NULL NULL NULL))
    by (unfold s3; by rewrite lookup_insert_ne).
  rewrite ?(binomial_load_Some _ _ _ H30). cbn [mbind outcome_bind].
  change (sibling n0') with (Some a1). cbn [binomial_merge_loop].
  rewrite ?(binomial_load_Some _ _ _ H30), ?(binomial_load_Some _ _ _ H31).
  cbn [mbind outcome_bind]. change (degree n0') with (degree n0). rewrite Hdeg.
  cbn [degree sibling]. change (0 =? 0)%Z with true. cbn [negb mbind outcome_bind].
  rewrite (binomial_link_spec s3 a0 a1 n0' _ Hne H30 H31).
  change (key n0') with (key n0). change (child n0') with (child n0).
  change (parent n0') with (parent n0). change (degree n0') with (degree n0).
  change (sibling n0') with (Some a1). cbn [key degree parent child sibling].
  rewrite Hdeg, Hch.
  destruct (k <? key n0)%Z.
  - cbn [mbind outcome_bind].
    erewrite binomial_load_Some by apply lookup_insert_eq.
    cbn [mbind outcome_bind sibling]. destruct fuel; cbn [binomial_merge_loop].
    all: unfold s3, s2; rewrite insert_insert_eq;
      rewrite (insert_insert_ne _ a0 a1) by done; by rewrite insert_insert_eq.
  - cbn [mbind outcome_bind].
    set (n0'' := mkNode (key n0) (0 + 1) (parent n0) (Some a1) (Some a1)).
    set (n1'' := mkNode k 0 (Some a0) NULL NULL).
    set (s4 := <[a0 := n0'']> (<[a1 := n1'']> s3)).
    assert (H40 : s4 !! a0 = Some n0'') by apply lookup_insert_eq.
    assert (H41 : s4 !! a1 = Some n1'').
    { unfold s4. rewrite lookup_insert_ne by done. apply lookup_insert_eq. }
    rewrite ?(binomial_load_Some _ _ _ H40).
    cbn [mbind outcome_bind sibling n0'' binomial_merge_loop].
    rewrite ?(binomial_load_Some _ _ _ H40), ?(binomial_load_Some _ _ _ H41).
    cbn [mbind outcome_bind degree n0'' n1''].
    change (0 + 1 =? 0)%Z with false. cbn [negb mbind outcome_bind sibling].
    assert (∀ (st : store) hd prev curr,
              binomial_merge_loop fuel st hd prev curr NULL = Ok (st, hd)) as ->
      by (by destruct fuel).
    cbn [mbind outcome_bind].
    unfold s4, s3, s2. rewrite (insert_insert_ne _ a1 a0) by done.
    by rewrite !insert_insert_eq.
Qed.

(** A root that has its own first child as its sibling and keeps the
    minimum: [binomial_delete_min] merges the root list with the reversed
    child list, which is the same node; the node becomes its own sibling
    and the consolidation loop does not end. *)
Lemma binomial_delete_min_shared_child (s : store) a0 a1 n0 n1 :
  a0 ≠ a1 → s !! a0 = Some n0 → s !! a1 = Some n1 →
  sibling n0 = Some a1 → child n0 = Some a1 → sibling n1 = NULL →
  (key n1 <? key n0)%Z = false →
  ∀ fuel, binomial_delete_min fuel s (mkHeap (Some a0)) = OutOfFuel.
Proof.
  intros Hne H0 H1 Hs0 Hc0 Hs1 Hk fuel. unfold binomial_delete_min. cbn [head].
  destruct fuel as [|fuel].
  { cbn [delete_min_scan]. rewrite ?(binomial_load_Some _ _ _ H0).
    cbn [mbind outcome_bind]. by rewrite Hs0. }
  assert (delete_min_scan (S fuel) s (Some a0) (Some a0) NULL = Ok (Some a0, NULL))
    as ->.
  { cbn [delete_min_scan]. rewrite ?(binomial_load_Some _ _ _ H0).
    cbn [mbind outcome_bind]. rewrite Hs0.
    rewrite ?(binomial_load_Some _ _ _ H1). cbn [mbind outcome_bind].
    rewrite ?(binomial_load_Some _ _ _ H0). cbn [mbind outcome_bind]. rewrite Hk.
    destruct fuel; cbn [delete_min_scan]; rewrite ?(binomial_load_Some _ _ _ H1);
      cbn [mbind outcome_bind]; by rewrite Hs1. }
  cbn [mbind outcome_bind]. rewrite ?(binomial_load_Some _ _ _ H0).
  cbn [mbind outcome_bind]. rewrite Hc0, Hs0. cbn [delete_min_reverse].
  rewrite ?(binomial_load_Some _ _ _ H1). cbn [mbind outcome_bind].
  rewrite (binomial_update_Some _ _ _ _ H1). cbn [mbind outcome_bind].
  erewrite binomial_update_Some by apply lookup_insert_eq.
  cbn [mbind outcome_bind]. rewrite insert_insert_eq, Hs1.
  set (n1' := set_parent NULL (set_sibling NULL n1)).
  set (s' := <[a1 := n1']> s).
  assert (delete_min_reverse fuel s' NULL (Some a1) = Ok (s', Some a1)) as ->
    by (by destruct fuel).
  cbn [mbind outcome_bind]. unfold binomial_merge, merge_roots.
  cbn [head merge_roots_loop].
  assert (H1' : s' !! a1 = Some n1') by apply lookup_insert_eq.
  rewrite ?(binomial_load_Some _ _ _ H1'). cbn [mbind outcome_bind].
  rewrite Z.leb_refl. cbn [write_slot mbind outcome_bind].
  rewrite ?(binomial_load_Some _ _ _ H1'). cbn [mbind outcome_bind].
  change (sibling n1') with NULL. rewrite merge_roots_loop_nil_l.
  cbn [write_slot]. rewrite (binomial_update_Some _ _ _ _ H1').
  cbn [mbind outcome_bind].
  erewrite binomial_load_Some by apply lookup_insert_eq.
  cbn [mbind outcome_bind]. change (sibling (set_sibling (Some a1) n1')) with (Some a1).
  erewrite binomial_merge_loop_self; [done | apply lookup_insert_eq | done].
Qed.

Lemma binomial_find_min_loop_runs fuel (s : store) : ∀ p ns m,
  chain s p ns →
  (∃ r, binomial_find_min_loop fuel s p m = Ok r)
  ∨ binomial_find_min_loop fuel s p m = OutOfFuel.
Proof.
  induction fuel as [|fuel IH]; intros p ns m Hc.
  - destruct Hc; [left; by eexists | by right].
  - destruct Hc as [|a n ns Hn Hc]; [left; by eexists|].
    cbn [binomial_find_min_loop]. rewrite ?(binomial_load_Some _ _ _ Hn).
    cbn [mbind outcome_bind]. by eapply IH.
Qed.

(** Removing a root of degree 1 that is alone in the root list: its child
    becomes the only root. *)
Lemma binomial_delete_min_one_child fuel (s : store) a1 n1 a0 n0 :
  a0 ≠ a1 → s !! a1 = Some n1 → s !! a0 = Some n0 →
  sibling n1 = NULL → child n1 = Some a0 → sibling n0 = NULL → 1 ≤ fuel →
  binomial_delete_min fuel s (mkHeap (Some a1))
  = Ok (delete a1 (<[a0 := set_parent NULL (set_sibling NULL n0)]> s),
        mkHeap (Some a0)).
Proof.
  intros Hne H1 H0 Hs1 Hc1 Hs0 Hfuel. destruct fuel as [|fuel]; [lia|].
  unfold binomial_delete_min. cbn [head].
  assert (delete_min_scan (S fuel) s (Some a1) (Some a1) NULL = Ok (Some a1, NULL))
    as ->.
  { cbn [delete_min_scan]. rewrite ?(binomial_load_Some _ _ _ H1).
    cbn [mbind outcome_bind]. by rewrite Hs1. }
  cbn [mbind outcome_bind]. rewrite ?(binomial_load_Some _ _ _ H1).
  cbn [mbind outcome_bind]. rewrite Hc1, Hs1. cbn [delete_min_reverse].
  rewrite ?(binomial_load_Some _ _ _ H0). cbn [mbind outcome_bind].
  rewrite (binomial_update_Some _ _ _ _ H0). cbn [mbind outcome_bind].
  erewrite binomial_update_Some by apply lookup_insert_eq.
  cbn [mbind outcome_bind]. rewrite insert_insert_eq, Hs0.
  set (n0' := set_parent NULL (set_sibling NULL n0)).
  set (s' := <[a0 := n0']> s).
  assert (delete_min_reverse fuel s' NULL (Some a0) = Ok (s', Some a0)) as ->
    by (by destruct fuel).
  cbn [mbind outcome_bind]. unfold binomial_merge, merge_roots.
  cbn [head mbind outcome_bind].
  erewrite binomial_load_Some by apply lookup_insert_eq.
  cbn [mbind outcome_bind]. change (sibling n0') with NULL.
  cbn [binomial_merge_loop mbind outcome_bind free].
  unfold s'. by rewrite lookup_insert_ne, H1 by done.
Qed.

(** What two insertions into an empty heap lead to. *)
Lemma binomial_two_inserts_spec (s : store) (k1 k2 : Z) :
  (k1 <= INT_MAX)%Z →
  ∃ s2 h2,
    ('(s1, h1) ← binomial_insert 2 s binomial_create k1;
     binomial_insert 2 s1 h1 k2) = Ok (s2, h2)
    ∧ if (k2 <? k1)%Z
      then ∀ fuel, 3 ≤ fuel → binomial_drain fuel s2 h2 = Ok [k2; k1]
      else (∃ a0 a1 n0 n1,
              head h2 = Some a0 ∧ a0 ≠ a1
              ∧ s2 !! a0 = Some n0 ∧ key n0 = k1
              ∧ child n0 = Some a1 ∧ sibling n0 = Some a1
              ∧ s2 !! a1 = Some n1 ∧ key n1 = k2 ∧ parent n1 = Some a0)
           ∧ ∀ fuel, binomial_drain fuel s2 h2 = OutOfFuel.
Proof.
  intros Hmax. rewrite binomial_insert_empty. cbn [mbind outcome_bind].
  pose proof (binomial_malloc_fresh s) as Hf0. set (a0 := malloc s) in *.
  set (s1 := <[a0 := mkNode k1 0 NULL NULL NULL]> s).
  pose proof (binomial_malloc_fresh s1) as Hf1.
  rewrite (binomial_insert_second 2 s1 a0 (mkNode k1 0 NULL NULL NULL) k2);
    [|apply lookup_insert_eq|done..].
  set (a1 := malloc s1) in *. cbn [key parent].
  assert (Hne : a0 ≠ a1).
  { intros E. apply Hf1. rewrite <- E. unfold s1. rewrite dom_insert_L. set_solver. }
  destruct (k2 <? k1)%Z eqn:Hk.
  - eexists _, _. split; [done|]. intros fuel Hfuel.
    destruct fuel as [|[|[|fuel]]]; [lia..|].
    set (n1 := mkNode k2 1 NULL (Some a0) NULL).
    set (n0 := mkNode k1 0 (Some a1) NULL NULL).
    set (s2 := <[a1 := n1]> (<[a0 := n0]> s1)).
    assert (H21 : s2 !! a1 = Some n1) by apply lookup_insert_eq.
    assert (H20 : s2 !! a0 = Some n0).
    { unfold s2. rewrite lookup_insert_ne by done. apply lookup_insert_eq. }
    apply Z.ltb_lt in Hk.
    cbn [binomial_drain head].
    destruct (binomial_find_min_spec (S (S fuel)) s2 (mkHeap (Some a1)) [n1])
      as (m & -> & Hm & _).
    { cbn [head]. econstructor; [done|]. constructor. }
    { done. }
    { simpl. lia. }
    { repeat constructor. cbn [n1 key]. lia. }
    apply list_elem_of_singleton in Hm. subst m. cbn [mbind outcome_bind].
    rewrite (binomial_delete_min_one_child _ s2 a1 n1 a0 n0) by (done || lia).
    cbn [mbind outcome_bind]. cbn [binomial_drain head].
    set (n0' := set_parent NULL (set_sibling NULL n0)).
    set (s3 := delete a1 (<[a0 := n0']> s2)).
    assert (H30 : s3 !! a0 = Some n0').
    { unfold s3. rewrite lookup_delete_ne by done. apply lookup_insert_eq. }
    destruct (binomial_find_min_spec (S fuel) s3 (mkHeap (Some a0)) [n0'])
      as (m & -> & Hm & _).
    { cbn [head]. econstructor; [done|]. constructor. }
    { done. }
    { simpl. lia. }
    { repeat constructor. done. }
    apply list_elem_of_singleton in Hm. subst m. cbn [mbind outcome_bind].
    rewrite (binomial_delete_min_single _ s3 a0 n0') by done.
    cbn [mbind outcome_bind]. by destruct fuel.
  - eexists _, _. split; [done|].
    set (n0 := mkNode k1 1 NULL (Some a1) (Some a1)).
    set (n1 := mkNode k2 0 (Some a0) NULL NULL).
    set (s2 := <[a0 := n0]> (<[a1 := n1]> s1)).
    assert (H20 : s2 !! a0 = Some n0) by apply lookup_insert_eq.
    assert (H21 : s2 !! a1 = Some n1).
    { unfold s2. rewrite lookup_insert_ne by done. apply lookup_insert_eq. }
    split; [by exists a0, a1, n0, n1|]. intros fuel.
    destruct fuel as [|fuel]; [done|]. cbn [binomial_drain head].
    unfold binomial_find_min. cbn [head]. rewrite bool_decide_true by done.
    cbn [assert mbind outcome_bind].
    destruct (binomial_find_min_loop_runs fuel s2 (Some a0) [n0; n1] INT_MAX)
      as [[m ->]| ->]; [|cbn [mbind outcome_bind]|done].
    { econstructor; [done|]. econstructor; [done|]. constructor. }
    by rewrite (binomial_delete_min_shared_child s2 a0 a1 n0 n1).
Qed.

End BinomialProofs.

(** ** Array-backed binary heaps *)

Module ArrayHeapProofs.
Import ArrayHeap.

Lemma heap_peek_empty h : size h = 0 → heap_peek h = Abort.
Proof. intros E. unfold heap_peek. by rewrite E. Qed.

Lemma heap_pop_empty h : size h = 0 → heap_pop h = Abort.
Proof. intros E. unfold heap_pop. by rewrite E. Qed.

Lemma heap_merge_mismatch (s : store) a b ha hb :
  s !! a = Some ha → s !! b = Some hb → is_min ha ≠ is_min hb →
  heap_merge s (Some a) (Some b) = Abort.
Proof.
  intros Ha Hb Hne. unfold heap_merge, load. rewrite Ha, Hb.
  cbn [mbind outcome_bind]. by destruct (is_min ha), (is_min hb).
Qed.

Lemma heap_merge_destroy_mismatch (s : store) a b ha hb :
  s !! a = Some ha → s !! b = Some hb → is_min ha ≠ is_min hb →
  heap_merge_destroy s (Some a) (Some b) = Abort.
Proof.
  intros Ha Hb Hne. unfold heap_merge_destroy, load. rewrite Ha, Hb.
  cbn [mbind outcome_bind]. by destruct (is_min ha), (is_min hb).
Qed.

Lemma heap_malloc_fresh (s : store) : malloc s ∉ dom s.
Proof. unfold malloc. apply is_fresh. Qed.

Lemma heap_build_from_array_frame (s : store) arr n m s' r :
  heap_build_from_array s arr n m = Ok (s', r) →
  (∀ q, q ∈ dom s → s' !! q = s !! q) ∧
  (∃ c, r = Some c ∧ (c ∉ dom s) ∧ is_Some (s' !! c)).
Proof.
  unfold heap_build_from_array.
  destruct (heap_build arr n m) as [h| | |]; cbn [mbind outcome_bind]; try done.
  intros [= <- <-]. pose proof (heap_malloc_fresh s) as Hm. split.
  - intros q Hq. apply lookup_insert_ne. intros <-. done.
  - exists (malloc s). split; [done|]. split; [done|].
    rewrite lookup_insert_eq. eauto.
Qed.

(** [heap_merge] writes to no heap object that exists before the call;
    its result is a new object. *)
Lemma heap_merge_frame (s : store) a b s' r :
  heap_merge s a b = Ok (s', r) →
  (∀ q, q ∈ dom s → s' !! q = s !! q) ∧
  (r = NULL ∨ ∃ c, r = Some c ∧ (c ∉ dom s) ∧ is_Some (s' !! c)).
Proof.
  unfold heap_merge. destruct a as [a|], b as [b|].
  - destruct (load s (Some a)) as [ha| | |]; cbn [mbind outcome_bind]; try done.
    destruct (load s (Some b)) as [hb| | |]; cbn [mbind outcome_bind]; try done.
    destruct (assert _); cbn [mbind outcome_bind]; try done.
    destruct (merge_buffer ha hb); cbn [mbind outcome_bind]; try done.
    intros [H1 H2]%heap_build_from_array_frame. eauto.
  - destruct (load s (Some a)) as [ha| | |]; cbn [mbind outcome_bind]; try done.
    intros [H1 H2]%heap_build_from_array_frame. eauto.
  - destruct (load s (Some b)) as [hb| | |]; cbn [mbind outcome_bind]; try done.
    intros [H1 H2]%heap_build_from_array_frame. eauto.
  - intros [= <- <-]. split; [done|by left].
Qed.

(** *** Heap order on the live prefix of the buffer *)

Definition cell (d : list Z) (i : nat) : Z := nth i d 0%Z.

(** [heap_le m a b]: under the ordering [m] the value [a] may sit above
    the value [b] ([a <= b] in a min-heap, [a >= b] in a max-heap). *)
Definition heap_le (m : bool) (a b : Z) : Prop :=
  if m then (a <= b)%Z else (b <= a)%Z.

Definition wf (h : BinaryHeap) : Prop :=
  length (data h) = capacity h ∧ size h ≤ capacity h.

Definition ordered_at (h : BinaryHeap) (i : nat) : Prop :=
  ∀ c, c = LEFT i ∨ c = RIGHT i → c < size h →
       heap_le (is_min h) (cell (data h) i) (cell (data h) c).

Definition heap_from (h : BinaryHeap) (lo : nat) : Prop :=
  ∀ i, lo ≤ i → ordered_at h i.

Definition is_heap (h : BinaryHeap) : Prop := wf h ∧ heap_from h 0.

Definition contents (h : BinaryHeap) : list Z := take (size h) (data h).

Lemma heap_le_refl m a : heap_le m a a.
Proof. unfold heap_le. destruct m; lia. Qed.

Lemma heap_le_trans m a b c : heap_le m a b → heap_le m b c → heap_le m a c.
Proof. unfold heap_le. destruct m; lia. Qed.

Lemma prefers_false h a b :
  heap_prefers h a b = false → heap_le (is_min h) b a.
Proof.
  unfold heap_prefers, heap_le. destruct (is_min h).
  - intros H%Z.ltb_ge. lia.
  - rewrite Z.gtb_ltb. intros H%Z.ltb_ge. lia.
Qed.

Lemma prefers_true h a b :
  heap_prefers h a b = true → heap_le (is_min h) a b.
Proof.
  unfold heap_prefers, heap_le. destruct (is_min h).
  - intros H%Z.ltb_lt. lia.
  - rewrite Z.gtb_ltb. intros H%Z.ltb_lt. lia.
Qed.

#[global] Instance heap_le_transitive m : Transitive (heap_le m).
Proof. intros a b c. apply heap_le_trans. Qed.

Lemma parent_child c :
  0 < c → PARENT c < c ∧ (c = LEFT (PARENT c) ∨ c = RIGHT (PARENT c)).
Proof.
  intros Hc. unfold PARENT, LEFT, RIGHT.
  pose proof (Nat.div_mod_eq (c - 1) 2) as H1.
  pose proof (Nat.mod_upper_bound (c - 1) 2) as H2. lia.
Qed.

Lemma parent_left i : PARENT (LEFT i) = i.
Proof.
  unfold PARENT, LEFT. replace (i * 2 + 1 - 1) with (i * 2) by lia.
  by apply Nat.div_mul.
Qed.

Lemma parent_right i : PARENT (RIGHT i) = i.
Proof.
  unfold PARENT, RIGHT. replace (i * 2 + 2 - 1) with (1 + i * 2) by lia.
  rewrite Nat.div_add by done. simpl. lia.
Qed.

Lemma cell_lookup (d : list Z) i : i < length d → d !! i = Some (cell d i).
Proof.
  intros Hi. unfold cell. destruct (lookup_lt_is_Some_2 d i Hi) as [x Hx].
  rewrite Hx. f_equal. symmetry. by apply nth_lookup_Some with (d := 0%Z).
Qed.

Lemma cell_insert_eq (d : list Z) i v : i < length d → cell (<[i := v]> d) i = v.
Proof.
  intros Hi. unfold cell. apply nth_lookup_Some with (d := 0%Z).
  by apply list_lookup_insert_eq.
Qed.

Lemma cell_insert_ne (d : list Z) i j v : i ≠ j → cell (<[i := v]> d) j = cell d j.
Proof.
  intros Hne. unfold cell. rewrite !nth_lookup. by rewrite list_lookup_insert_ne.
Qed.

Lemma get_ok h i : i < length (data h) → get h i = Ok (cell (data h) i).
Proof. intros Hi. unfold get. by rewrite cell_lookup. Qed.

Lemma set_ok h i v :
  i < length (data h) →
  set h i v = Ok (mkHeap (<[i := v]> (data h)) (size h) (capacity h) (is_min h)).
Proof.
  intros Hi. unfold set. by rewrite (proj2 (Nat.ltb_lt _ _) Hi).
Qed.

(** The buffer after [heap_swap] on the cells [i] and [j]. *)
Definition swapped (d : list Z) (i j : nat) : list Z :=
  <[j := cell d i]> (<[i := cell d j]> d).

Lemma heap_swap_ok h i j :
  i < length (data h) → j < length (data h) →
  heap_swap h i j
  = Ok (mkHeap (swapped (data h) i j) (size h) (capacity h) (is_min h)).
Proof.
  intros Hi Hj. unfold heap_swap. rewrite !get_ok by done.
  cbn [mbind outcome_bind]. rewrite set_ok by done. cbn [mbind outcome_bind].
  rewrite set_ok by (cbn [data]; by rewrite length_insert). done.
Qed.

Lemma length_swapped d i j : length (swapped d i j) = length d.
Proof. unfold swapped. by rewrite !length_insert. Qed.

Lemma cell_swapped_l d i j :
  i < length d → j < length d → cell (swapped d i j) i = cell d j.
Proof.
  intros Hi Hj. unfold swapped. destruct (decide (i = j)) as [->|Hne].
  - rewrite cell_insert_eq by (by rewrite length_insert). done.
  - rewrite cell_insert_ne by done. by rewrite cell_insert_eq.
Qed.

Lemma cell_swapped_r d i j :
  i < length d → j < length d → cell (swapped d i j) j = cell d i.
Proof.
  intros Hi Hj. unfold swapped.
  by rewrite cell_insert_eq by (by rewrite length_insert).
Qed.

Lemma cell_swapped_ne d i j k :
  k ≠ i → k ≠ j → cell (swapped d i j) k = cell d k.
Proof. intros H1 H2. unfold swapped. by rewrite !cell_insert_ne. Qed.

Lemma insert_cons_perm (d : list Z) i v :
  i < length d → cell d i :: <[i := v]> d ≡ₚ v :: d.
Proof.
  revert i. induction d as [|x d IH]; intros i Hi; simpl in Hi; [lia|].
  destruct i as [|i]; simpl.
  - apply perm_swap.
  - change (cell (x :: d) (S i)) with (cell d i).
    rewrite perm_swap. rewrite IH by lia. apply perm_swap.
Qed.

Lemma swapped_perm d i j : i < length d → j < length d → swapped d i j ≡ₚ d.
Proof.
  intros Hi Hj. unfold swapped. destruct (decide (i = j)) as [->|Hne].
  - rewrite list_insert_insert_eq. rewrite list_insert_id; [done|].
    by apply cell_lookup.
  - apply (Permutation_cons_inv (a := cell d j)).
    pose proof (insert_cons_perm (<[i:=cell d j]> d) j (cell d i)) as H.
    rewrite cell_insert_ne in H by done. rewrite H by (by rewrite length_insert).
    by rewrite <- (insert_cons_perm d i (cell d j)) by done.
Qed.

Lemma take_swapped d n i j :
  i < n → j < n → take n (swapped d i j) = swapped (take n d) i j.
Proof.
  intros Hi Hj. unfold swapped. rewrite !take_insert_lt by done.
  unfold cell. rewrite !nth_lookup, !lookup_take_lt by done. done.
Qed.

Lemma take_swapped_perm d n i j :
  n ≤ length d → i < n → j < n → take n (swapped d i j) ≡ₚ take n d.
Proof.
  intros Hn Hi Hj. rewrite take_swapped by done.
  apply swapped_perm; rewrite length_take; lia.
Qed.

(** *** Sifting down *)

(** The index that one iteration of [heap_sift_down] selects. *)
Definition best_child (h : BinaryHeap) (idx : nat) : nat :=
  let d := data h in
  let best :=
    if (LEFT idx <? size h) && heap_prefers h (cell d (LEFT idx)) (cell d idx)
    then LEFT idx else idx in
  if (RIGHT idx <? size h) && heap_prefers h (cell d (RIGHT idx)) (cell d best)
  then RIGHT idx else best.

Definition swap_cells (h : BinaryHeap) (i j : nat) : BinaryHeap :=
  mkHeap (swapped (data h) i j) (size h) (capacity h) (is_min h).

Lemma heap_sift_down_loop_unfold fuel h idx :
  wf h →
  heap_sift_down_loop (S fuel) h idx
  = if negb (best_child h idx =? idx)
    then heap_sift_down_loop fuel (swap_cells h idx (best_child h idx))
           (best_child h idx)
    else Ok h.
Proof.
  intros [Hlen Hsz]. cbn [heap_sift_down_loop]. unfold best_child.
  assert (Hl : LEFT idx < size h → get h (LEFT idx) = Ok (cell (data h) (LEFT idx))).
  { intros. apply get_ok. lia. }
  assert (Hr : RIGHT idx < size h → get h (RIGHT idx) = Ok (cell (data h) (RIGHT idx))).
  { intros. apply get_ok. lia. }
  assert (Hi : LEFT idx < size h → get h idx = Ok (cell (data h) idx)).
  { intros. apply get_ok. unfold LEFT in *. lia. }
  assert (Hi' : RIGHT idx < size h → get h idx = Ok (cell (data h) idx)).
  { intros. apply get_ok. unfold RIGHT in *. lia. }
  destruct (LEFT idx <? size h) eqn:El; cbn [andb].
  - apply Nat.ltb_lt in El. rewrite Hl, Hi by done. cbn [mbind outcome_bind].
    destruct (heap_prefers h (cell (data h) (LEFT idx)) (cell (data h) idx)).
    + destruct (RIGHT idx <? size h) eqn:Er; cbn [andb].
      * apply Nat.ltb_lt in Er. rewrite Hr, Hl by done. cbn [mbind outcome_bind].
        destruct (heap_prefers h _ _);
          (destruct (negb _) eqn:Eb; [|done]);
          rewrite heap_swap_ok by (unfold LEFT, RIGHT in *; lia); done.
      * cbn [mbind outcome_bind]. destruct (negb _) eqn:Eb; [|done].
        rewrite heap_swap_ok by (unfold LEFT, RIGHT in *; lia). done.
    + destruct (RIGHT idx <? size h) eqn:Er; cbn [andb].
      * apply Nat.ltb_lt in Er. rewrite Hr, Hi by done. cbn [mbind outcome_bind].
        destruct (heap_prefers h _ _);
          (destruct (negb _) eqn:Eb; [|done]);
          rewrite heap_swap_ok by (unfold LEFT, RIGHT in *; lia); done.
      * cbn [mbind outcome_bind]. by rewrite Nat.eqb_refl.
  - cbn [mbind outcome_bind]. apply Nat.ltb_ge in El.
    destruct (RIGHT idx <? size h) eqn:Er; cbn [andb].
    + apply Nat.ltb_lt in Er. rewrite Hr, Hi' by done. cbn [mbind outcome_bind].
      destruct (heap_prefers h _ _);
        (destruct (negb _) eqn:Eb; [|done]);
        rewrite heap_swap_ok by (unfold LEFT, RIGHT in *; lia); done.
    + cbn [mbind outcome_bind]. by rewrite Nat.eqb_refl.
Qed.

Lemma best_child_spec h idx :
  let b := best_child h idx in
  (b = idx ∧ ordered_at h idx)
  ∨ ((b = LEFT idx ∨ b = RIGHT idx) ∧ b < size h
     ∧ heap_le (is_min h) (cell (data h) b) (cell (data h) idx)
     ∧ ∀ c, c = LEFT idx ∨ c = RIGHT idx → c < size h →
            heap_le (is_min h) (cell (data h) b) (cell (data h) c)).
Proof.
  unfold best_child.
  destruct (LEFT idx <? size h) eqn:El; cbn [andb].
  - apply Nat.ltb_lt in El.
    destruct (heap_prefers h (cell (data h) (LEFT idx)) (cell (data h) idx)) eqn:Pl.
    + apply prefers_true in Pl.
      destruct (RIGHT idx <? size h) eqn:Er; cbn [andb].
      * apply Nat.ltb_lt in Er.
        destruct (heap_prefers h (cell (data h) (RIGHT idx)) _) eqn:Pr.
        -- apply prefers_true in Pr. right. split_and!; [by right|done| |].
           ++ by etrans.
           ++ intros c [->| ->] _; [done | apply heap_le_refl].
        -- apply prefers_false in Pr. right. split_and!; [by left|done|done|].
           intros c [->| ->] _; [apply heap_le_refl | done].
      * apply Nat.ltb_ge in Er. right. split_and!; [by left|done|done|].
        intros c [->| ->] Hc; [apply heap_le_refl | lia].
    + apply prefers_false in Pl.
      destruct (RIGHT idx <? size h) eqn:Er; cbn [andb].
      * apply Nat.ltb_lt in Er.
        destruct (heap_prefers h (cell (data h) (RIGHT idx)) _) eqn:Pr.
        -- apply prefers_true in Pr. right. split_and!; [by right|done|done|].
           intros c [->| ->] _; [by etrans | apply heap_le_refl].
        -- apply prefers_false in Pr. left. split; [done|].
           intros c [->| ->] _; done.
      * apply Nat.ltb_ge in Er. left. split; [done|].
        intros c [->| ->] Hc; [done | lia].
  - apply Nat.ltb_ge in El.
    destruct (RIGHT idx <? size h) eqn:Er; cbn [andb].
    + apply Nat.ltb_lt in Er. unfold LEFT, RIGHT in *. lia.
    + left. split; [done|]. apply Nat.ltb_ge in Er.
      intros c [->| ->] Hc; lia.
Qed.

(** The invariant of the loop of [heap_sift_down]: in the part of the
    array from [lo] on, only the node [idx] can be out of order with its
    children, and the children of [idx] are in order with its parent. *)
Definition down_inv (h : BinaryHeap) (lo idx : nat) : Prop :=
  (∀ i, lo ≤ i → i ≠ idx → ordered_at h i)
  ∧ (idx = lo
     ∨ (lo ≤ PARENT idx ∧ 0 < idx
        ∧ ∀ c, c = LEFT idx ∨ c = RIGHT idx → c < size h →
               heap_le (is_min h) (cell (data h) (PARENT idx)) (cell (data h) c))).

Lemma down_inv_swap h lo idx b :
  wf h → lo ≤ idx → down_inv h lo idx →
  b = LEFT idx ∨ b = RIGHT idx → b < size h →
  heap_le (is_min h) (cell (data h) b) (cell (data h) idx) →
  (∀ c, c = LEFT idx ∨ c = RIGHT idx → c < size h →
        heap_le (is_min h) (cell (data h) b) (cell (data h) c)) →
  down_inv (swap_cells h idx b) lo b.
Proof.
  intros [Hlen Hsz] Hlo [Hord Hgp] Hb Hbn Hbi Hbc.
  assert (Hidx : idx < b) by (unfold LEFT, RIGHT in Hb; lia).
  assert (Hpb : PARENT b = idx).
  { destruct Hb as [->| ->]; [apply parent_left | apply parent_right]. }
  assert (Hli : idx < length (data h)) by lia.
  assert (Hlb : b < length (data h)) by lia.
  split.
  - intros i Hi Hib c Hc Hcn. cbn [swap_cells data size is_min] in *.
    assert (Hic : i < c) by (unfold LEFT, RIGHT in Hc; lia).
    assert (Hpc : PARENT c = i).
    { destruct Hc as [->| ->]; [apply parent_left | apply parent_right]. }
    destruct (decide (i = idx)) as [->|Hne].
    + rewrite cell_swapped_l by done.
      destruct (decide (c = b)) as [->|Hcb].
      * by rewrite cell_swapped_r.
      * rewrite cell_swapped_ne by lia. by apply Hbc.
    + rewrite (cell_swapped_ne _ _ _ i) by done.
      destruct (decide (c = idx)) as [->|Hci].
      * rewrite cell_swapped_l by done.
        destruct Hgp as [->|(Hp & Hpos & Hg)]; [lia|].
        rewrite <- Hpc. by apply Hg.
      * assert (c ≠ b) by (intros ->; lia).
        rewrite cell_swapped_ne by done. by apply Hord.
  - right. rewrite Hpb. split; [done|]. split; [lia|].
    intros c Hc Hcn. cbn [swap_cells data size is_min] in *.
    assert (b < c) by (unfold LEFT, RIGHT in Hc; lia).
    rewrite cell_swapped_l by done. rewrite cell_swapped_ne by lia.
    apply (Hord b); [lia | lia | done | done].
Qed.

Lemma heap_sift_down_loop_spec fuel : ∀ h idx lo,
  wf h → lo ≤ idx → down_inv h lo idx → size h - idx < fuel →
  ∃ h',
    heap_sift_down_loop fuel h idx = Ok h' ∧ wf h' ∧
    size h' = size h ∧ capacity h' = capacity h ∧ is_min h' = is_min h ∧
    heap_from h' lo ∧ contents h' ≡ₚ contents h.
Proof.
  induction fuel as [|fuel IH]; intros h idx lo Hwf Hlo Hinv Hfuel; [lia|].
  rewrite heap_sift_down_loop_unfold by done.
  destruct (best_child_spec h idx) as [[Hb Hord]|(Hb & Hbn & Hbi & Hbc)].
  - rewrite Hb, Nat.eqb_refl. cbn [negb]. exists h. split_and!; try done.
    intros i Hi. destruct (decide (i = idx)) as [->|Hne]; [done|].
    by apply Hinv.
  - set (b := best_child h idx) in *.
    assert (Hidx : idx < b) by (unfold LEFT, RIGHT in Hb; lia).
    rewrite (proj2 (Nat.eqb_neq b idx)) by lia. cbn [negb].
    destruct (IH (swap_cells h idx b) b lo) as (h' & Hs & Hwf' & Hsz & Hcap & Hm & Hh & Hp).
    + destruct Hwf as [Hlen Hsz]. split; cbn [swap_cells data size capacity];
        [by rewrite length_swapped | done].
    + lia.
    + by apply down_inv_swap.
    + cbn [swap_cells size]. lia.
    + exists h'. split_and!; try done.
      rewrite Hp. unfold contents. cbn [swap_cells size data].
      destruct Hwf as [Hlen Hsz']. apply take_swapped_perm; lia.
Qed.

Lemma heap_sift_down_spec h idx :
  wf h → (∀ i, idx < i → ordered_at h i) →
  ∃ h',
    heap_sift_down h idx = Ok h' ∧ wf h' ∧
    size h' = size h ∧ capacity h' = capacity h ∧ is_min h' = is_min h ∧
    heap_from h' idx ∧ contents h' ≡ₚ contents h.
Proof.
  intros Hwf Hord. unfold heap_sift_down.
  apply heap_sift_down_loop_spec; [done | done | | lia].
  split; [|by left]. intros i Hi Hne. apply Hord. lia.
Qed.

(** *** The root is the most preferred element *)

Lemma heap_root_best h i :
  heap_from h 0 → i < size h →
  heap_le (is_min h) (cell (data h) 0) (cell (data h) i).
Proof.
  intros Hh. induction (lt_wf i) as [i _ IH]. intros Hi.
  destruct (decide (i = 0)) as [->|Hne]; [apply heap_le_refl|].
  destruct (parent_child i) as [Hp Hc]; [lia|].
  etrans; [apply IH; [done|lia]|]. apply (Hh (PARENT i)); [lia|done|done].
Qed.

Lemma contents_lookup h i x :
  wf h → contents h !! i = Some x → i < size h ∧ x = cell (data h) i.
Proof.
  intros [Hlen Hsz]. unfold contents. intros H.
  apply lookup_take_Some in H as [H Hi]. split; [done|].
  unfold cell. symmetry. by apply nth_lookup_Some with (d := 0%Z).
Qed.

Lemma heap_root_le_contents h :
  is_heap h → Forall (heap_le (is_min h) (cell (data h) 0)) (contents h).
Proof.
  intros [Hwf Hh]. apply Forall_lookup. intros i x Hx.
  apply contents_lookup in Hx as [Hi ->]; [|done]. by apply heap_root_best.
Qed.

(** *** [heap_pop] *)

Lemma heap_pop_spec h :
  is_heap h → 0 < size h →
  ∃ x h',
    heap_pop h = Ok (x, h') ∧ is_heap h' ∧ size h' = size h - 1 ∧
    is_min h' = is_min h ∧ contents h ≡ₚ x :: contents h' ∧
    Forall (heap_le (is_min h) x) (contents h).
Proof.
  intros Hheap Hpos. pose proof (heap_root_le_contents h Hheap) as Hroot.
  destruct Hheap as [[Hlen Hsz] Hh].
  unfold heap_pop. rewrite (proj2 (Nat.ltb_lt _ _) Hpos).
  cbn [assert mbind outcome_bind]. rewrite (get_ok h 0) by lia.
  cbn [mbind outcome_bind]. unfold set_size. cbn [size].
  destruct (0 <? size h - 1) eqn:E.
  - apply Nat.ltb_lt in E. rewrite get_ok by (cbn [data]; lia).
    cbn [mbind outcome_bind data]. rewrite set_ok by (cbn [data]; lia).
    cbn [mbind outcome_bind data size capacity is_min].
    set (h2 := mkHeap _ _ _ _).
    destruct (heap_sift_down_spec h2 0) as (h' & Hs & Hwf' & Hsz' & _ & Hm & Hh' & Hp).
    { split; cbn [h2 data size capacity]; [by rewrite length_insert | lia]. }
    { intros i Hi c Hc Hcn. cbn [h2 data size is_min] in *.
      assert (i < c) by (unfold LEFT, RIGHT in Hc; lia).
      rewrite !cell_insert_ne by lia. apply (Hh i); [lia | done | lia]. }
    rewrite Hs. cbn [mbind outcome_bind]. exists (cell (data h) 0), h'.
    split; [done|]. split; [done|]. split; [done|]. split; [done|].
    split; [|done]. rewrite Hp. unfold contents. cbn [h2 size data].
    rewrite take_insert_lt by lia.
    replace (size h) with (S (size h - 1)) at 1 by lia.
    erewrite take_S_r by (apply cell_lookup; lia).
    replace (cell (data h) 0) with (cell (take (size h - 1) (data h)) 0).
    + rewrite insert_cons_perm by (rewrite length_take; lia).
      by rewrite Permutation_app_comm.
    + unfold cell. rewrite !nth_lookup. by rewrite lookup_take_lt by lia.
  - apply Nat.ltb_ge in E. cbn [mbind outcome_bind].
    exists (cell (data h) 0), (mkHeap (data h) (size h - 1) (capacity h) (is_min h)).
    split; [done|]. split.
    { split; [split; cbn [data size capacity]; [done | lia]|].
      intros i _ c Hc Hcn. cbn [size] in Hcn. lia. }
    split; [done|]. split; [done|]. split; [|done].
    unfold contents. cbn [size data]. replace (size h) with 1 by lia.
    simpl. destruct (data h) as [|x d] eqn:Ed; [simpl in *; lia | done].
Qed.

(** *** Draining *)

Lemma heap_drain_loop_spec fuel : ∀ h,
  is_heap h → size h ≤ fuel →
  ∃ ks,
    heap_drain_loop fuel h = Ok ks ∧
    StronglySorted (heap_le (is_min h)) ks ∧ ks ≡ₚ contents h.
Proof.
  induction fuel as [|fuel IH]; intros h Hh Hsz.
  - exists []. assert (size h = 0) as E by lia. unfold contents.
    cbn [heap_drain_loop]. rewrite E. split; [done|]. split; [constructor|done].
  - cbn [heap_drain_loop]. destruct (size h =? 0) eqn:E.
    { apply Nat.eqb_eq in E. exists []. unfold contents. rewrite E.
      split; [done|]. split; [constructor|done]. }
    apply Nat.eqb_neq in E.
    destruct (heap_pop_spec h Hh) as (x & h' & Hp & Hh' & Hsz' & Hm & Hperm & Hx); [lia|].
    destruct (IH h' Hh') as (ks & Hd & Hs & Hk); [lia|].
    rewrite Hp. cbn [mbind outcome_bind]. rewrite Hd. cbn [mbind outcome_bind].
    exists (x :: ks). split; [done|]. split.
    + rewrite Hm in Hs. constructor; [done|]. rewrite Hk.
      rewrite Hperm in Hx. by apply Forall_cons in Hx as [_ Hx].
    + by rewrite Hk, Hperm.
Qed.

Lemma heap_drain_spec h :
  is_heap h →
  ∃ ks,
    heap_drain h = Ok ks ∧
    StronglySorted (heap_le (is_min h)) ks ∧ ks ≡ₚ contents h.
Proof. intros Hh. by apply heap_drain_loop_spec. Qed.

(** *** Building a heap from an array *)

Lemma heap_build_loop_spec i : ∀ h,
  wf h → heap_from h (S i) →
  ∃ h',
    heap_build_loop i h = Ok h' ∧ is_heap h' ∧ size h' = size h ∧
    is_min h' = is_min h ∧ contents h' ≡ₚ contents h.
Proof.
  induction i as [|i IH]; intros h Hwf Hh.
  - destruct (heap_sift_down_spec h 0 Hwf) as (h' & Hs & Hwf' & Hsz & _ & Hm & Hh' & Hp).
    { intros i Hi. apply Hh. lia. }
    cbn [heap_build_loop]. rewrite Hs. cbn [mbind outcome_bind].
    exists h'. split_and!; done.
  - destruct (heap_sift_down_spec h (S i) Hwf) as (h1 & Hs & Hwf1 & Hsz1 & _ & Hm1 & Hh1 & Hp1).
    { intros j Hj. apply Hh. lia. }
    destruct (IH h1 Hwf1 Hh1) as (h' & Hb & Hh' & Hsz' & Hm' & Hp').
    cbn [heap_build_loop]. rewrite Hs. cbn [mbind outcome_bind].
    exists h'. split; [done|]. split; [done|]. split; [congruence|].
    split; [congruence|]. by rewrite Hp'.
Qed.

Lemma heap_build_spec arr n m :
  n ≤ length arr →
  ∃ h,
    heap_build arr n m = Ok h ∧ is_heap h ∧ size h = n ∧ is_min h = m ∧
    contents h ≡ₚ take n arr.
Proof.
  intros Hn. unfold heap_build.
  rewrite (proj2 (Nat.ltb_ge _ _)) by done.
  set (cap := if n =? 0 then 1 else n).
  assert (Hcap : n ≤ cap).
  { unfold cap. destruct (n =? 0) eqn:E0; [apply Nat.eqb_eq in E0|]; lia. }
  set (h0 := mkHeap _ _ _ _).
  assert (Hwf : wf h0).
  { split; cbn [h0 data size capacity]; [|done].
    rewrite length_app, length_take, length_replicate. lia. }
  assert (Hc : contents h0 = take n arr).
  { unfold contents. cbn [h0 data size]. rewrite take_app_le by (rewrite length_take; lia).
    rewrite take_take. f_equal. lia. }
  destruct (1 <? n) eqn:E.
  - apply Nat.ltb_lt in E.
    destruct (heap_build_loop_spec (PARENT (n - 1)) h0 Hwf)
      as (h & Hb & Hh & Hsz & Hm & Hp).
    { intros i Hi c Hc' Hcn. cbn [h0 size] in Hcn. exfalso.
      unfold PARENT in Hi.
      pose proof (Nat.div_mod_eq (n - 1 - 1) 2) as H1.
      pose proof (Nat.mod_upper_bound (n - 1 - 1) 2) as H2.
      unfold LEFT, RIGHT in Hc'. lia. }
    exists h. split; [done|]. split; [done|]. split; [done|]. split; [done|].
    by rewrite Hp, Hc.
  - apply Nat.ltb_ge in E. exists h0. split; [done|]. split.
    { split; [done|]. intros i _ c Hc' Hcn. cbn [h0 size] in Hcn.
      unfold LEFT, RIGHT in Hc'. lia. }
    split; [done|]. split; [done|]. by rewrite Hc.
Qed.

(** *** Merging *)

Lemma heap_merge_spec (s : store) a b ha hb :
  s !! a = Some ha → s !! b = Some hb → wf ha → wf hb →
  is_min ha = is_min hb →
  ∃ s' c hc,
    heap_merge s (Some a) (Some b) = Ok (s', Some c) ∧ s' !! c = Some hc ∧
    is_heap hc ∧ is_min hc = is_min ha ∧ size hc = size ha + size hb ∧
    contents hc ≡ₚ contents ha ++ contents hb.
Proof.
  intros Ha Hb [Hla Hsa] [Hlb Hsb] Hm.
  unfold heap_merge, load. rewrite Ha, Hb. cbn [mbind outcome_bind].
  rewrite Hm. rewrite (proj2 (eqb_true_iff _ _)) by done.
  cbn [assert mbind outcome_bind]. unfold merge_buffer.
  rewrite (proj2 (Nat.ltb_ge (length (data ha)) _)) by lia.
  rewrite (proj2 (Nat.ltb_ge (length (data hb)) _)) by lia.
  cbn [orb mbind outcome_bind].
  set (buf := _ ++ _ ++ _).
  assert (Htake : take (size ha + size hb) buf = contents ha ++ contents hb).
  { unfold buf, contents. rewrite app_assoc.
    rewrite take_app_le by (rewrite length_app, !length_take; lia).
    apply take_ge. rewrite length_app, !length_take. lia. }
  destruct (heap_build_spec buf (size ha + size hb) (is_min hb))
    as (hc & Hbuild & Hh & Hsz & Hmc & Hp).
  { unfold buf. rewrite !length_app, !length_take. lia. }
  unfold heap_build_from_array. rewrite Hbuild. cbn [mbind outcome_bind].
  exists (<[malloc s := hc]> s), (malloc s), hc.
  split; [done|]. split; [apply lookup_insert_eq|]. split; [done|].
  split; [congruence|]. split; [done|]. by rewrite Hp, Htake.
Qed.

(** *** Sifting up and [heap_push] *)

(** The invariant of the loop of [heap_sift_up]: only the node [idx] can
    be out of order with its parent, and the children of [idx] are in
    order with that parent. *)
Definition up_inv (h : BinaryHeap) (idx : nat) : Prop :=
  (∀ i c, c = LEFT i ∨ c = RIGHT i → c < size h → c ≠ idx →
          heap_le (is_min h) (cell (data h) i) (cell (data h) c))
  ∧ (0 < idx →
     ∀ c, c = LEFT idx ∨ c = RIGHT idx → c < size h →
          heap_le (is_min h) (cell (data h) (PARENT idx)) (cell (data h) c)).

Lemma up_inv_swap h idx :
  wf h → 0 < idx → idx < size h → up_inv h idx →
  heap_le (is_min h) (cell (data h) idx) (cell (data h) (PARENT idx)) →
  up_inv (swap_cells h idx (PARENT idx)) (PARENT idx).
Proof.
  intros [Hlen Hsz] Hpos Hidx [Hord Hgp] Hle.
  destruct (parent_child idx Hpos) as [Hp Hpc]. set (p := PARENT idx) in *.
  assert (Hli : idx < length (data h)) by lia.
  assert (Hlp : p < length (data h)) by lia.
  specialize (Hgp Hpos). split.
  - intros i c Hc Hcn Hcp. cbn [swap_cells data size is_min] in *.
    assert (Hic : i < c) by (unfold LEFT, RIGHT in Hc; lia).
    assert (Hpar : PARENT c = i).
    { destruct Hc as [->| ->]; [apply parent_left | apply parent_right]. }
    destruct (decide (c = idx)) as [->|Hci].
    + assert (i = p) as -> by done.
      by rewrite cell_swapped_l, cell_swapped_r.
    + rewrite (cell_swapped_ne _ _ _ c) by done.
      destruct (decide (i = p)) as [->|Hip].
      * rewrite cell_swapped_r by done. etrans; [exact Hle|]. by apply Hord.
      * destruct (decide (i = idx)) as [->|Hii].
        -- rewrite cell_swapped_l by done. by apply Hgp.
        -- rewrite cell_swapped_ne by done. by apply Hord.
  - intros Hppos c Hc Hcn. cbn [swap_cells data size is_min] in *.
    destruct (parent_child p Hppos) as [Hpp Hppc].
    assert (Hpc' : p < c) by (unfold LEFT, RIGHT in Hc; lia).
    rewrite (cell_swapped_ne _ _ _ (PARENT p)) by lia.
    assert (Hpp_p : heap_le (is_min h) (cell (data h) (PARENT p)) (cell (data h) p)).
    { apply Hord; [done | lia | lia]. }
    destruct (decide (c = idx)) as [->|Hci].
    + by rewrite cell_swapped_l.
    + rewrite cell_swapped_ne by lia. etrans; [exact Hpp_p|]. by apply Hord.
Qed.

Lemma heap_sift_up_loop_spec fuel : ∀ h idx,
  wf h → idx < size h → up_inv h idx → idx ≤ fuel →
  ∃ h',
    heap_sift_up_loop fuel h idx = Ok h' ∧ wf h' ∧
    size h' = size h ∧ capacity h' = capacity h ∧ is_min h' = is_min h ∧
    heap_from h' 0 ∧ contents h' ≡ₚ contents h.
Proof.
  assert (Hdone : ∀ h idx, up_inv h idx →
            (0 < idx → heap_le (is_min h) (cell (data h) (PARENT idx))
                               (cell (data h) idx)) →
            heap_from h 0).
  { intros h idx [Hord _] Hle i _ c Hc Hcn.
    destruct (decide (c = idx)) as [->|Hne]; [|by apply Hord].
    assert (i < idx) by (unfold LEFT, RIGHT in Hc; lia).
    replace i with (PARENT idx); [apply Hle; lia|].
    destruct Hc as [->| ->]; [apply parent_left | apply parent_right]. }
  induction fuel as [|fuel IH]; intros h idx Hwf Hidx Hinv Hfuel.
  - assert (idx = 0) as -> by lia. exists h. split; [done|].
    split_and!; try done. apply (Hdone h 0 Hinv). lia.
  - cbn [heap_sift_up_loop]. destruct (idx =? 0) eqn:E.
    { apply Nat.eqb_eq in E. subst idx. exists h. split; [done|].
      split_and!; try done. apply (Hdone h 0 Hinv). lia. }
    apply Nat.eqb_neq in E. destruct (parent_child idx) as [Hp Hpc]; [lia|].
    pose proof Hwf as [Hlen Hsz].
    rewrite !get_ok by lia. cbn [mbind outcome_bind].
    destruct (heap_prefers h _ _) eqn:P.
    + apply prefers_true in P. rewrite heap_swap_ok by lia.
      cbn [mbind outcome_bind].
      destruct (IH (swap_cells h idx (PARENT idx)) (PARENT idx))
        as (h' & Hs & Hwf' & Hsz' & Hcap & Hm & Hh & Hperm).
      * split; cbn [swap_cells data size capacity];
          [by rewrite length_swapped | done].
      * cbn [swap_cells size]. lia.
      * apply up_inv_swap; [done | lia | done..].
      * lia.
      * exists h'. split; [exact Hs|]. split_and!; try done.
        rewrite Hperm. unfold contents. cbn [swap_cells size data].
        apply take_swapped_perm; lia.
    + apply prefers_false in P. exists h. split; [done|].
      split_and!; try done. by apply (Hdone h idx Hinv).
Qed.

Lemma cell_app_l (d e : list Z) i : i < length d → cell (d ++ e) i = cell d i.
Proof. intros Hi. unfold cell. by rewrite !nth_lookup, lookup_app_l. Qed.

Lemma heap_push_spec h v :
  is_heap h →
  ∃ h',
    heap_push h v = Ok h' ∧ is_heap h' ∧ size h' = S (size h) ∧
    is_min h' = is_min h ∧ contents h' ≡ₚ v :: contents h.
Proof.
  intros [[Hlen Hsz] Hh]. unfold heap_push.
  set (h0 := if capacity h <? size h + 1 then heap_resize h (size h + 1) else h).
  assert (H0 : size h0 = size h ∧ is_min h0 = is_min h ∧
               length (data h0) = capacity h0 ∧ size h < capacity h0 ∧
               ∃ pad, data h0 = data h ++ pad).
  { unfold h0. destruct (capacity h <? size h + 1) eqn:E.
    - apply Nat.ltb_lt in E. unfold heap_resize.
      cbn [size is_min data capacity].
      set (c1 := if capacity h =? 0 then 4 else capacity h * 2).
      set (c2 := if c1 <? size h + 1 then size h + 1 else c1).
      assert (capacity h ≤ c1).
      { unfold c1. destruct (capacity h =? 0) eqn:E0;
          [apply Nat.eqb_eq in E0|]; lia. }
      assert (c1 ≤ c2 ∧ size h + 1 ≤ c2) as [? ?].
      { unfold c2. destruct (c1 <? size h + 1) eqn:E1;
          [apply Nat.ltb_lt in E1 | apply Nat.ltb_ge in E1]; lia. }
      split_and!; [done | done | | lia | by eexists].
      rewrite length_app, length_replicate. lia.
    - apply Nat.ltb_ge in E. split_and!; [done | done | done | lia |].
      exists []. by rewrite app_nil_r. }
  destruct H0 as (Hs0 & Hm0 & Hl0 & Hc0 & pad & Hd0).
  rewrite set_ok by lia. cbn [mbind outcome_bind]. unfold set_size.
  cbn [size data capacity is_min]. rewrite Hs0.
  replace (size h + 1 - 1) with (size h) by lia.
  unfold heap_sift_up.
  set (h1 := mkHeap _ _ _ _).
  assert (Hcell : ∀ i, i < size h → cell (data h1) i = cell (data h) i).
  { intros i Hi. cbn [h1 data]. rewrite cell_insert_ne by lia.
    rewrite Hd0. apply cell_app_l. lia. }
  destruct (heap_sift_up_loop_spec (size h) h1 (size h))
    as (h' & Hs & Hwf' & Hsz' & Hcap & Hm & Hh' & Hperm).
  - split; cbn [h1 data size capacity]; [by rewrite length_insert | lia].
  - cbn [h1 size]. lia.
  - split.
    + intros i c Hc Hcn Hne. cbn [h1 size is_min] in *.
      assert (i < c) by (unfold LEFT, RIGHT in Hc; lia).
      rewrite !Hcell by lia. rewrite Hm0. apply (Hh i); [lia | done | lia].
    + intros _ c Hc Hcn. cbn [h1 size] in Hcn. unfold LEFT, RIGHT in Hc. lia.
  - done.
  - exists h'. split; [exact Hs|]. split; [done|].
    split; [rewrite Hsz'; cbn [h1 size]; lia|].
    split; [rewrite Hm; cbn [h1 is_min]; done|].
    rewrite Hperm. unfold contents. cbn [h1 size data].
    replace (size h + 1) with (S (size h)) by lia.
    erewrite take_S_r by (apply list_lookup_insert_eq; lia).
    rewrite take_insert_ge by lia. rewrite Hd0, take_app_le by lia.
    by rewrite Permutation_app_comm.
Qed.

(** Below [2 ^ 62] cells the byte count does not wrap. *)
Lemma malloc_cells_small cap : (Z.of_nat cap < 2 ^ 62)%Z → malloc_cells cap = cap.
Proof.
  intros Hc. unfold malloc_cells.
  rewrite Z.mod_small by lia. rewrite Z.mul_comm, Z.div_mul by done.
  apply Nat2Z.id.
Qed.

Lemma heap_create_spec (s : store) cap m :
  (Z.of_nat cap < 2 ^ 62)%Z →
  ∃ a h,
    heap_create s cap m = (<[a := h]> s, Some a) ∧ (a ∉ dom s) ∧
    is_heap h ∧ size h = 0 ∧ is_min h = m.
Proof.
  intros Hcap. unfold heap_create.
  eexists _, _. split; [done|]. split; [apply heap_malloc_fresh|].
  split; [|done]. split.
  - split; cbn [data size capacity]; [|lia].
    rewrite length_replicate. apply malloc_cells_small.
    destruct (cap =? 0); [done|lia].
  - intros i _ c _ Hc. cbn [size] in Hc. lia.
Qed.

(** *** Every heap that the operations produce drains in order *)

(** The heap objects that can be obtained from [heap_create] (with a
    capacity whose byte count fits [size_t]) and [heap_build_from_array]
    by pushing, popping and merging. *)
Inductive produced : BinaryHeap → Prop :=
  | produced_create (s : store) cap m s' a h :
      (Z.of_nat cap < 2 ^ 62)%Z →
      heap_create s cap m = (s', Some a) → s' !! a = Some h → produced h
  | produced_build (s : store) arr n m s' a h :
      heap_build_from_array s arr n m = Ok (s', Some a) →
      s' !! a = Some h → produced h
  | produced_push h v h' :
      produced h → heap_push h v = Ok h' → produced h'
  | produced_pop h x h' :
      produced h → heap_pop h = Ok (x, h') → produced h'
  | produced_merge (s : store) a b ha hb s' c hc :
      produced ha → produced hb →
      s !! a = Some ha → s !! b = Some hb →
      heap_merge s (Some a) (Some b) = Ok (s', Some c) →
      s' !! c = Some hc → produced hc.

Lemma heap_build_is_heap arr n m h : heap_build arr n m = Ok h → is_heap h.
Proof.
  intros H. destruct (decide (n ≤ length arr)) as [Hn|Hn].
  - destruct (heap_build_spec arr n m Hn) as (h' & H' & Hh & _). congruence.
  - unfold heap_build in H. rewrite (proj2 (Nat.ltb_lt _ _)) in H by lia. done.
Qed.

Lemma produced_is_heap h : produced h → is_heap h.
Proof.
  induction 1 as [s cap m s' a h Hcap Hc Hl|s arr n m s' a h Hb Hl
                  |h v h' _ IH Hp|h x h' _ IH Hp
                  |s a b ha hb s' c hc _ IHa _ IHb Ha Hb Hm Hc].
  - destruct (heap_create_spec s cap m Hcap) as (a2 & h2 & H2 & _ & Hh & _).
    rewrite Hc in H2. injection H2 as -> ->.
    rewrite lookup_insert_eq in Hl. by injection Hl as <-.
  - unfold heap_build_from_array in Hb.
    destruct (heap_build arr n m) as [h2| | |] eqn:E; try done.
    cbn [mbind outcome_bind] in Hb. injection Hb as <- <-.
    rewrite lookup_insert_eq in Hl. injection Hl as <-.
    by eapply heap_build_is_heap.
  - destruct (heap_push_spec h v IH) as (h2 & H2 & Hh & _). congruence.
  - destruct (decide (0 < size h)) as [Hpos|Hz].
    + destruct (heap_pop_spec h IH Hpos) as (x2 & h2 & H2 & Hh & _). congruence.
    + rewrite heap_pop_empty in Hp by lia. done.
  - destruct (decide (is_min ha = is_min hb)) as [Heq|Hne].
    + destruct (heap_merge_spec s a b ha hb Ha Hb (proj1 IHa) (proj1 IHb) Heq)
        as (s2 & c2 & hc2 & H2 & Hc2 & Hh & _).
      rewrite Hm in H2. injection H2 as <- <-. congruence.
    + rewrite (heap_merge_mismatch s a b ha hb) in Hm by done. done.
Qed.

Lemma sorted_weaken (R1 R2 : relation Z) (l : list Z) :
  (∀ a b, R1 a b → R2 a b) → StronglySorted R1 l → StronglySorted R2 l.
Proof.
  intros HR. induction 1 as [|x l _ IH Hx]; constructor; [done|].
  eapply Forall_impl; [exact Hx | apply HR].
Qed.

Lemma produced_drain_sorted h :
  produced h →
  ∃ ks,
    heap_drain h = Ok ks ∧
    StronglySorted (if is_min h then Z.le else Z.ge) ks ∧ ks ≡ₚ contents h.
Proof.
  intros Hp%produced_is_heap. destruct (heap_drain_spec h Hp) as (ks & Hd & Hs & Hk).
  exists ks. split; [done|]. split; [|done].
  unfold heap_le in Hs. destruct (is_min h).
  - eapply sorted_weaken; [|exact Hs]. intros a b. simpl. lia.
  - eapply sorted_weaken; [|exact Hs]. intros a b. simpl. lia.
Qed.

(** The example of the test driver: a min-heap and a max-heap built from
    5, 3, 8, 1, 9, 2, 7. *)
Example heap_build_drain_min :
  (h ← heap_build [5; 3; 8; 1; 9; 2; 7]%Z 7 true; heap_drain h)
  = Ok [1; 2; 3; 5; 7; 8; 9]%Z.
Proof. reflexivity. Qed.

Example heap_build_drain_max :
  (h ← heap_build [5; 3; 8; 1; 9; 2; 7]%Z 7 false; heap_drain h)
  = Ok [9; 8; 7; 5; 3; 2; 1]%Z.
Proof. reflexivity. Qed.

(** *** More on the operations of [binary_heap.c] *)

(** [heap_peek] reads the value that [heap_pop] returns. *)
Lemma heap_pop_peek h x h' : heap_pop h = Ok (x, h') → heap_peek h = Ok x.
Proof.
  unfold heap_pop, heap_peek.
  destruct (assert (0 <? size h)); cbn [mbind outcome_bind]; try done.
  destruct (get h 0) as [root| | |]; cbn [mbind outcome_bind]; try done.
  match goal with |- context [mbind _ ?m] => destruct m end;
    cbn [mbind outcome_bind]; try done.
  by intros [= <- _].
Qed.

Lemma heap_drain_sorted h :
  is_heap h →
  ∃ ks,
    heap_drain h = Ok ks ∧
    StronglySorted (if is_min h then Z.le else Z.ge) ks ∧ ks ≡ₚ contents h.
Proof.
  intros Hp. destruct (heap_drain_spec h Hp) as (ks & Hd & Hs & Hk).
  exists ks. split; [done|]. split; [|done].
  unfold heap_le in Hs. destruct (is_min h).
  - eapply sorted_weaken; [|exact Hs]. intros a b. simpl. lia.
  - eapply sorted_weaken; [|exact Hs]. intros a b. simpl. lia.
Qed.

Lemma cell_take (d : list Z) n i : i < n → cell (take n d) i = cell d i.
Proof.
  intros Hi. unfold cell. rewrite !nth_lookup. by rewrite lookup_take_lt.
Qed.

(** The copy that [print_pop_sequence] pops from is a heap with the same
    live cells. *)
Lemma print_copy_is_heap h :
  is_heap h →
  is_heap (mkHeap (take (size h) (data h)) (size h) (size h) (is_min h)).
Proof.
  intros [[Hlen Hsz] Hh]. split.
  - split; cbn [data size capacity]; [rewrite length_take; lia | done].
  - intros i _ c Hc Hcn. cbn [size] in Hcn. cbn [data is_min].
    assert (i < c) by (unfold LEFT, RIGHT in Hc; lia).
    rewrite !cell_take by lia. by apply (Hh i); [lia| |].
Qed.

Lemma print_pop_sequence_spec h :
  is_heap h →
  ∃ ks,
    print_pop_sequence h = Ok ks ∧
    StronglySorted (if is_min h then Z.le else Z.ge) ks ∧ ks ≡ₚ contents h.
Proof.
  intros Hh. pose proof Hh as [[Hlen Hsz] _]. unfold print_pop_sequence.
  rewrite (proj2 (Nat.ltb_ge _ _)) by lia.
  destruct (heap_drain_sorted _ (print_copy_is_heap h Hh)) as (ks & Hd & Hs & Hp).
  exists ks. split; [done|]. split; [done|].
  rewrite Hp. unfold contents. cbn [data size]. by rewrite take_take, Nat.min_id.
Qed.


Lemma heap_build_from_array_spec (s : store) arr n m :
  n ≤ length arr →
  ∃ c h,
    heap_build_from_array s arr n m = Ok (<[c := h]> s, Some c) ∧ (c ∉ dom s) ∧
    is_heap h ∧ size h = n ∧ is_min h = m ∧ contents h ≡ₚ take n arr.
Proof.
  intros Hn. destruct (heap_build_spec arr n m Hn) as (h & Hb & Hh & Hs & Hm & Hc).
  exists (malloc s), h. unfold heap_build_from_array. rewrite Hb.
  split; [done|]. split; [apply heap_malloc_fresh|done].
Qed.

Lemma heap_merge_null_l (s : store) b hb :
  s !! b = Some hb → wf hb →
  ∃ c hc,
    heap_merge s NULL (Some b) = Ok (<[c := hc]> s, Some c) ∧ (c ∉ dom s) ∧
    is_heap hc ∧ size hc = size hb ∧ is_min hc = is_min hb ∧
    contents hc ≡ₚ contents hb.
Proof.
  intros Hb [Hlen Hsz]. unfold heap_merge, load. rewrite Hb.
  cbn [mbind outcome_bind].
  apply heap_build_from_array_spec. lia.
Qed.

Lemma heap_merge_null_r (s : store) a ha :
  s !! a = Some ha → wf ha →
  ∃ c hc,
    heap_merge s (Some a) NULL = Ok (<[c := hc]> s, Some c) ∧ (c ∉ dom s) ∧
    is_heap hc ∧ size hc = size ha ∧ is_min hc = is_min ha ∧
    contents hc ≡ₚ contents ha.
Proof.
  intros Ha [Hlen Hsz]. unfold heap_merge, load. rewrite Ha.
  cbn [mbind outcome_bind].
  apply heap_build_from_array_spec. lia.
Qed.

Lemma merge_buffer_spec ha hb :
  wf ha → wf hb →
  ∃ buf,
    merge_buffer ha hb = Ok buf ∧ size ha + size hb ≤ length buf ∧
    take (size ha + size hb) buf = contents ha ++ contents hb.
Proof.
  intros [Hla Hsa] [Hlb Hsb]. unfold merge_buffer.
  rewrite (proj2 (Nat.ltb_ge (length (data ha)) _)) by lia.
  rewrite (proj2 (Nat.ltb_ge (length (data hb)) _)) by lia.
  cbn [orb]. eexists. split; [done|]. split.
  - rewrite !length_app, !length_take. lia.
  - unfold contents. rewrite app_assoc.
    rewrite take_app_le by (rewrite length_app, !length_take; lia).
    apply take_ge. rewrite length_app, !length_take. lia.
Qed.

Lemma heap_merge_destroy_spec (s : store) a b ha hb :
  s !! a = Some ha → s !! b = Some hb → a ≠ b → wf ha → wf hb →
  is_min ha = is_min hb →
  ∃ c hc,
    heap_merge s (Some a) (Some b) = Ok (<[c := hc]> s, Some c) ∧
    heap_merge_destroy s (Some a) (Some b)
    = Ok (delete b (delete a (<[c := hc]> s)), Some c) ∧
    (c ∉ dom s) ∧ is_heap hc ∧ is_min hc = is_min ha ∧
    size hc = size ha + size hb ∧ contents hc ≡ₚ contents ha ++ contents hb.
Proof.
  intros Ha Hb Hab Hwa Hwb Hm.
  destruct (merge_buffer_spec ha hb Hwa Hwb) as (buf & Hbuf & Hlen & Htake).
  destruct (heap_build_from_array_spec s buf (size ha + size hb) (is_min ha) Hlen)
    as (c & hc & Hbuild & Hc & Hh & Hsz & Hmc & Hp).
  assert (a ≠ c) by (intros ->; apply Hc, elem_of_dom; eauto).
  assert (b ≠ c) by (intros ->; apply Hc, elem_of_dom; eauto).
  exists c, hc. unfold heap_merge, heap_merge_destroy, load. rewrite Ha, Hb.
  cbn [mbind outcome_bind].
  rewrite !(proj2 (eqb_true_iff (is_min ha) (is_min hb))) by done.
  cbn [assert mbind outcome_bind]. rewrite Hbuf. cbn [mbind outcome_bind].
  rewrite Hbuild. cbn [mbind outcome_bind heap_destroy].
  rewrite lookup_insert_ne, Ha by done. cbn [mbind outcome_bind].
  rewrite lookup_delete_ne, lookup_insert_ne, Hb by done.
  split; [done|]. split; [done|]. split; [done|]. split; [done|].
  split; [done|]. split; [done|]. by rewrite Hp, Htake.
Qed.

(** Handing the same heap twice to [heap_merge_destroy] frees it twice. *)
Lemma heap_merge_destroy_same (s : store) a ha :
  s !! a = Some ha → wf ha → heap_merge_destroy s (Some a) (Some a) = Fault.
Proof.
  intros Ha Hwa.
  destruct (merge_buffer_spec ha ha Hwa Hwa) as (buf & Hbuf & Hlen & Htake).
  destruct (heap_build_from_array_spec s buf (size ha + size ha) (is_min ha) Hlen)
    as (c & hc & Hbuild & Hc & _).
  assert (a ≠ c) by (intros ->; apply Hc, elem_of_dom; eauto).
  unfold heap_merge_destroy, load. rewrite Ha. cbn [mbind outcome_bind].
  rewrite (proj2 (eqb_true_iff _ _)) by done.
  cbn [assert mbind outcome_bind]. rewrite Hbuf. cbn [mbind outcome_bind].
  rewrite Hbuild. cbn [mbind outcome_bind heap_destroy].
  rewrite lookup_insert_ne, Ha by done. cbn [mbind outcome_bind].
  by rewrite lookup_delete_eq.
Qed.

Lemma heap_merge_destroy_null_l (s : store) b hb :
  s !! b = Some hb → wf hb →
  ∃ c hc,
    heap_merge_destroy s NULL (Some b) = Ok (delete b (<[c := hc]> s), Some c) ∧
    (c ∉ dom s) ∧ is_heap hc ∧ size hc = size hb ∧ is_min hc = is_min hb ∧
    contents hc ≡ₚ contents hb.
Proof.
  intros Hb [Hlen Hsz].
  destruct (heap_build_from_array_spec s (data hb) (size hb) (is_min hb))
    as (c & hc & Hbuild & Hc & Hrest); [lia|].
  assert (b ≠ c) by (intros ->; apply Hc, elem_of_dom; eauto).
  exists c, hc. unfold heap_merge_destroy, load. rewrite Hb.
  cbn [mbind outcome_bind]. rewrite Hbuild. cbn [mbind outcome_bind heap_destroy].
  rewrite lookup_insert_ne, Hb by done. cbn [mbind outcome_bind].
  split; [done|]. split; [done|]. destruct Hrest as (Hh & Hs & Hm & Hp).
  split; [done|]. split; [done|]. split; [done|].
  by rewrite Hp.
Qed.

Lemma heap_merge_destroy_null_r (s : store) a ha :
  s !! a = Some ha → wf ha →
  ∃ c hc,
    heap_merge_destroy s (Some a) NULL = Ok (delete a (<[c := hc]> s), Some c) ∧
    (c ∉ dom s) ∧ is_heap hc ∧ size hc = size ha ∧ is_min hc = is_min ha ∧
    contents hc ≡ₚ contents ha.
Proof.
  intros Ha [Hlen Hsz].
  destruct (heap_build_from_array_spec s (data ha) (size ha) (is_min ha))
    as (c & hc & Hbuild & Hc & Hrest); [lia|].
  assert (a ≠ c) by (intros ->; apply Hc, elem_of_dom; eauto).
  exists c, hc. unfold heap_merge_destroy, load. rewrite Ha.
  cbn [mbind outcome_bind]. rewrite Hbuild. cbn [mbind outcome_bind heap_destroy].
  rewrite lookup_insert_ne, Ha by done. cbn [mbind outcome_bind].
  split; [done|]. split; [done|]. destruct Hrest as (Hh & Hs & Hm & Hp).
  split; [done|]. split; [done|]. split; [done|].
  by rewrite Hp.
Qed.

End ArrayHeapProofs.

(** ** Binary search trees *)

Module BSTProofs.
Import BST PtrTree.

Abbreviation rep := (PtrTree.rep left right key).

(** What the operations compute, on the tree that the root owns. *)
Fixpoint insert_t (t : tree Z) (k : Z) : tree Z :=
  match t with
  | Leaf => Node Leaf k Leaf
  | Node l x r =>
      if (k <? x)%Z then Node (insert_t l k) x r
      else if (k >? x)%Z then Node l x (insert_t r k)
      else t
  end.

(** The key of the leftmost node ([d] when the tree is empty). *)
Fixpoint min_t (t : tree Z) (d : Z) : Z :=
  match t with
  | Leaf => d
  | Node l x _ => min_t l x
  end.

Fixpoint delete_t (t : tree Z) (k : Z) : tree Z :=
  match t with
  | Leaf => Leaf
  | Node l x r =>
      if (k <? x)%Z then Node (delete_t l k) x r
      else if (k >? x)%Z then Node l x (delete_t r k)
      else
        match l, r with
        | Leaf, Leaf => Leaf
        | Leaf, _ => r
        | _, Leaf => l
        | _, _ => Node l (min_t r x) (delete_t r (min_t r x))
        end
  end.

(** BST property: all keys on the left are smaller, all keys on the right
    are larger than the key of the node. *)
Fixpoint bst_ordered (t : tree Z) : Prop :=
  match t with
  | Leaf => True
  | Node l x r =>
      Forall (λ y, (y < x)%Z) (inorder l) ∧ Forall (λ y, (x < y)%Z) (inorder r)
      ∧ bst_ordered l ∧ bst_ordered r
  end.

Lemma bst_ordered_sorted t : bst_ordered t ↔ StronglySorted Z.lt (inorder t).
Proof.
  induction t as [|l IHl x r IHr]; simpl.
  - split; [constructor|done].
  - rewrite StronglySorted_app, StronglySorted_cons, IHl, IHr, !Forall_forall.
    split.
    + intros (Hl & Hr & Sl & Sr). split_and!; try done.
      intros x1 x2 H1 [->|H2]%elem_of_cons; [by apply Hl|].
      specialize (Hl _ H1). specialize (Hr _ H2). simpl in *. lia.
    + intros (Hlr & Sl & Hr & Sr). split_and!; try done.
      intros y Hy. apply (Hlr y x Hy). by left.
Qed.

Lemma insert_t_elem_of t k y :
  y ∈ inorder (insert_t t k) ↔ y = k ∨ y ∈ inorder t.
Proof.
  induction t as [|l IHl x r IHr]; simpl; [set_solver|].
  destruct (k <? x)%Z eqn:E1; [|destruct (k >? x)%Z eqn:E2]; simpl.
  - clear IHr. set_solver.
  - clear IHl. set_solver.
  - assert (k = x) by lia. set_solver.
Qed.

Lemma insert_t_bst t k : bst_ordered t → bst_ordered (insert_t t k).
Proof.
  induction t as [|l IHl x r IHr]; simpl.
  - intros _. split_and!; done.
  - intros (Hl & Hr & Bl & Br).
    destruct (k <? x)%Z eqn:E1; [|destruct (k >? x)%Z eqn:E2]; simpl.
    + split_and!; [|done|by apply IHl|done].
      rewrite Forall_forall in *. intros y [->|Hy]%insert_t_elem_of; [lia|auto].
    + split_and!; [done| |done|by apply IHr].
      rewrite Forall_forall in *. intros y [->|Hy]%insert_t_elem_of; [lia|auto].
    + done.
Qed.

Lemma insert_t_size t k : size (insert_t t k) ≤ S (size t).
Proof.
  induction t as [|l IHl x r IHr]; simpl; [lia|].
  destruct (k <? x)%Z; [|destruct (k >? x)%Z]; simpl; lia.
Qed.

Lemma inorder_min_t t d :
  inorder t = [] ∧ t = Leaf ∨ ∃ rest, inorder t = min_t t d :: rest.
Proof.
  revert d. induction t as [|l IHl x r _]; intros d; [by left|]. right. simpl.
  destruct (IHl x) as [[Hl ->]|[rest Hl]]; simpl.
  - by eexists.
  - rewrite Hl. by eexists.
Qed.

Lemma filter_id (P : Z → Prop) `{!∀ x, Decision (P x)} (l : list Z) :
  Forall P l → filter P l = l.
Proof.
  induction 1 as [|x l Hx _ IH]; [done|]. by rewrite filter_cons_True, IH.
Qed.

Lemma delete_t_inorder t : ∀ k,
  bst_ordered t → inorder (delete_t t k) = filter (λ y, y ≠ k) (inorder t).
Proof.
  induction t as [|l IHl x r IHr]; intros k; simpl; [done|].
  intros (Hl & Hr & Bl & Br).
  assert (Fl : ∀ k', (x <= k')%Z → filter (λ y, y ≠ k') (inorder l) = inorder l).
  { intros k' Hk'. apply filter_id. eapply Forall_impl; [exact Hl|].
    simpl. intros; lia. }
  assert (Fr : ∀ k', (k' <= x)%Z → filter (λ y, y ≠ k') (inorder r) = inorder r).
  { intros k' Hk'. apply filter_id. eapply Forall_impl; [exact Hr|].
    simpl. intros; lia. }
  rewrite filter_app, filter_cons.
  destruct (k <? x)%Z eqn:E1; [|destruct (k >? x)%Z eqn:E2].
  - simpl. rewrite IHl by done. rewrite decide_True by lia.
    by rewrite (Fr k) by lia.
  - simpl. rewrite IHr by done. rewrite decide_True by lia.
    by rewrite (Fl k) by lia.
  - assert (k = x) as -> by lia. rewrite decide_False by (intros ?; done).
    rewrite Fl, Fr by lia.
    destruct l as [|ll lx lr]; [by destruct r|].
    destruct r as [|rl rx rr]; [by rewrite app_nil_r|].
    set (l := Node ll lx lr) in *. set (r := Node rl rx rr) in *.
    change (inorder (Node l (min_t r x) (delete_t r (min_t r x))))
      with (inorder l ++ min_t r x :: inorder (delete_t r (min_t r x))).
    rewrite IHr by done. f_equal.
    destruct (inorder_min_t r x) as [[_ ?]|[rest Hrest]]; [done|].
    rewrite Hrest. rewrite filter_cons, decide_False by (intros ?; done).
    f_equal. apply filter_id.
    apply bst_ordered_sorted in Br. rewrite Hrest in Br.
    apply StronglySorted_cons in Br as [Hlt _].
    eapply Forall_impl; [exact Hlt|]. simpl. intros; lia.
Qed.

Lemma sorted_filter (R : relation Z) (P : Z → Prop) `{!∀ x, Decision (P x)} l :
  StronglySorted R l → StronglySorted R (filter P l).
Proof.
  induction 1 as [|x l _ IH Hx]; [constructor|].
  rewrite filter_cons. destruct (decide (P x)); [|done].
  constructor; [done|]. rewrite Forall_forall in *.
  intros y [_ Hy]%list_elem_of_filter. auto.
Qed.

Lemma delete_t_bst t k : bst_ordered t → bst_ordered (delete_t t k).
Proof.
  intros Hb. apply bst_ordered_sorted. rewrite delete_t_inorder by done.
  apply sorted_filter. by apply bst_ordered_sorted.
Qed.

Lemma delete_t_size t k : size (delete_t t k) ≤ size t.
Proof.
  revert k. induction t as [|l IHl x r IHr]; intros k; simpl; [lia|].
  destruct (k <? x)%Z; [|destruct (k >? x)%Z]; simpl.
  - specialize (IHl k). lia.
  - specialize (IHr k). lia.
  - destruct l; [destruct r; simpl; lia|]. destruct r; [simpl; lia|].
    specialize (IHr (min_t (Node r1 x1 r2) x)). simpl in *. lia.
Qed.

Lemma bst_load_Some (s : store) a n : s !! a = Some n → load s (Some a) = Ok n.
Proof. intros H. unfold load. by rewrite H. Qed.

Lemma bst_update_Some (s : store) a n f :
  s !! a = Some n → update s (Some a) f = Ok (<[a := f n]> s).
Proof. intros H. unfold update. by rewrite H. Qed.

Lemma bst_malloc_fresh (s : store) : malloc s ∉ dom s.
Proof. unfold malloc. apply is_fresh. Qed.

Lemma rep_left_null (s : store) n t F :
  rep s (left n) t F → left n = NULL → t = Leaf ∧ F = ∅.
Proof. intros H E. rewrite E in H. by inversion H. Qed.

Lemma bst_insert_null fuel k (s : store) :
  ∃ s' r F',
    bst_insert fuel s NULL k = Ok (s', r) ∧ rep s' r (insert_t Leaf k) F' ∧
    ∅ ⊆ F' ∧ F' ⊆ ∅ ∪ {[malloc s]} ∧
    (∀ q, q ∈ dom s → q ∉ (∅ : gset addr) → s' !! q = s !! q).
Proof.
  pose proof (bst_malloc_fresh s) as Hm.
  exists (<[malloc s := mkNode k NULL NULL]> s), (Some (malloc s)),
    ({[malloc s]} ∪ ∅ ∪ ∅).
  split; [by destruct fuel|]. split.
  { apply (rep_node left right key _ _ (mkNode k NULL NULL) Leaf Leaf ∅ ∅);
      [apply lookup_insert_eq | constructor | constructor | set_solver..]. }
  split; [set_solver|]. split; [set_solver|].
  intros q Hq _. apply lookup_insert_ne. intros <-. done.
Qed.

Lemma bst_insert_spec fuel k : ∀ (s : store) root t F,
  rep s root t F → height t ≤ fuel →
  ∃ s' r F',
    bst_insert fuel s root k = Ok (s', r) ∧ rep s' r (insert_t t k) F' ∧
    F ⊆ F' ∧ F' ⊆ F ∪ {[malloc s]} ∧
    (∀ q, q ∈ dom s → q ∉ F → s' !! q = s !! q).
Proof.
  induction fuel as [|fuel IH]; intros s root t F Hr Hh.
  - destruct Hr; [apply bst_insert_null | simpl in Hh; lia].
  - destruct Hr as [|a n tl tr Fl Fr Hl Hrl Hrr Hnl Hnr Hlr]; [apply bst_insert_null|].
    simpl in Hh. cbn [bst_insert insert_t].
    rewrite (bst_load_Some _ _ _ Hl). cbn [mbind outcome_bind].
    pose proof (bst_malloc_fresh s) as Hm.
    assert (Hadom : a ∈ dom s) by (apply elem_of_dom; eauto).
    pose proof (rep_dom _ _ _ _ _ _ _ Hrl) as HFl.
    pose proof (rep_dom _ _ _ _ _ _ _ Hrr) as HFr.
    destruct (k <? key n)%Z; [|destruct (k >? key n)%Z].
    + destruct (IH s (left n) tl Fl Hrl) as (s1 & l' & Fl' & Hi & Hr1 & Hs1 & Hs2 & Hfr);
        [lia|].
      rewrite Hi. cbn [mbind outcome_bind].
      assert (Ha1 : s1 !! a = Some n) by (rewrite Hfr; done).
      rewrite (bst_update_Some _ _ _ _ Ha1). cbn [mbind outcome_bind].
      eexists _, (Some a), ({[a]} ∪ Fl' ∪ Fr). split; [done|]. split; [|split; [|split]].
      * apply (rep_node left right key _ a (set_left l' n) _ tr Fl' Fr).
        -- apply lookup_insert_eq.
        -- eapply rep_frame; [done|]. intros q Hq. apply lookup_insert_ne. fp_solver.
        -- eapply rep_frame; [done|]. intros q Hq.
           rewrite lookup_insert_ne by fp_solver. apply Hfr; fp_solver.
        -- fp_solver.
        -- done.
        -- fp_solver.
      * fp_solver.
      * fp_solver.
      * intros q Hq HqF. rewrite lookup_insert_ne by fp_solver. apply Hfr; fp_solver.
    + destruct (IH s (right n) tr Fr Hrr) as (s1 & r' & Fr' & Hi & Hr1 & Hs1 & Hs2 & Hfr);
        [lia|].
      rewrite Hi. cbn [mbind outcome_bind].
      assert (Ha1 : s1 !! a = Some n) by (rewrite Hfr; done).
      rewrite (bst_update_Some _ _ _ _ Ha1). cbn [mbind outcome_bind].
      eexists _, (Some a), ({[a]} ∪ Fl ∪ Fr'). split; [done|]. split; [|split; [|split]].
      * apply (rep_node left right key _ a (set_right r' n) tl _ Fl Fr').
        -- apply lookup_insert_eq.
        -- eapply rep_frame; [done|]. intros q Hq.
           rewrite lookup_insert_ne by fp_solver. apply Hfr; fp_solver.
        -- eapply rep_frame; [done|]. intros q Hq. apply lookup_insert_ne. fp_solver.
        -- done.
        -- fp_solver.
        -- fp_solver.
      * fp_solver.
      * fp_solver.
      * intros q Hq HqF. rewrite lookup_insert_ne by fp_solver. apply Hfr; fp_solver.
    + exists s, (Some a), ({[a]} ∪ Fl ∪ Fr). split; [done|].
      split; [by apply rep_node|]. split; [done|]. split; [fp_solver|done].
Qed.

Lemma bst_min_loop_spec fuel : ∀ (s : store) a t F d,
  rep s (Some a) t F → height t ≤ S fuel →
  ∃ a' n',
    bst_min_loop fuel s (Some a) = Ok (Some a') ∧ a' ∈ F ∧
    s !! a' = Some n' ∧ key n' = min_t t d.
Proof.
  induction fuel as [|fuel IH]; intros s a t F d Hr Hh.
  - inversion Hr as [|a' n tl tr Fl Fr Hl Hrl Hrr]; subst. simpl in Hh.
    destruct tl; [|simpl in Hh; lia]. inversion Hrl as [E1|]; subst.
    exists a, n. cbn [bst_min_loop]. rewrite (bst_load_Some _ _ _ Hl).
    cbn [mbind outcome_bind]. rewrite <- E1. split; [done|].
    split; [set_solver|done].
  - inversion Hr as [|a' n tl tr Fl Fr Hl Hrl Hrr]; subst. simpl in Hh.
    cbn [bst_min_loop]. rewrite (bst_load_Some _ _ _ Hl). cbn [mbind outcome_bind].
    destruct (left n) as [al|] eqn:El.
    + destruct (IH s al tl Fl (key n) Hrl) as (a' & n' & Hm & Ha' & Hl' & Hk); [lia|].
      exists a', n'. split; [done|]. split; [set_solver|]. split; [done|].
      inversion Hrl; subst. done.
    + inversion Hrl; subst. exists a, n. split; [done|]. split; [set_solver|done].
Qed.

Lemma bst_delete_spec fuel : ∀ (s : store) root t F k,
  rep s root t F → height t ≤ fuel →
  ∃ s' r F',
    bst_delete fuel s root k = Ok (s', r) ∧ rep s' r (delete_t t k) F' ∧
    F' ⊆ F ∧ (∀ q, q ∉ F → s' !! q = s !! q).
Proof.
  induction fuel as [|fuel IH]; intros s root t F k Hr Hh.
  { destruct Hr; [|simpl in Hh; lia].
    exists s, NULL, ∅. split; [done|]. split; [constructor|]. done. }
  destruct Hr as [|a n tl tr Fl Fr Hl Hrl Hrr Hnl Hnr Hlr].
  { exists s, NULL, ∅. split; [done|]. split; [constructor|]. done. }
  simpl in Hh. cbn [bst_delete delete_t].
  rewrite (bst_load_Some _ _ _ Hl). cbn [mbind outcome_bind].
  destruct (k <? key n)%Z; [|destruct (k >? key n)%Z].
  - destruct (IH s (left n) tl Fl k Hrl) as (s1 & l' & Fl' & Hi & Hr1 & Hs1 & Hfr);
      [lia|].
    rewrite Hi. cbn [mbind outcome_bind].
    assert (Ha1 : s1 !! a = Some n) by (rewrite Hfr; done).
    rewrite (bst_update_Some _ _ _ _ Ha1). cbn [mbind outcome_bind].
    eexists _, (Some a), ({[a]} ∪ Fl' ∪ Fr). split; [done|]. split; [|split].
    + apply (rep_node left right key _ a (set_left l' n) _ tr Fl' Fr).
      * apply lookup_insert_eq.
      * eapply rep_frame; [done|]. intros q Hq. apply lookup_insert_ne. fp_solver.
      * eapply rep_frame; [done|]. intros q Hq.
        rewrite lookup_insert_ne by fp_solver. apply Hfr; fp_solver.
      * fp_solver.
      * done.
      * fp_solver.
    + fp_solver.
    + intros q Hq. rewrite lookup_insert_ne by fp_solver. apply Hfr; fp_solver.
  - destruct (IH s (right n) tr Fr k Hrr) as (s1 & r' & Fr' & Hi & Hr1 & Hs1 & Hfr);
      [lia|].
    rewrite Hi. cbn [mbind outcome_bind].
    assert (Ha1 : s1 !! a = Some n) by (rewrite Hfr; done).
    rewrite (bst_update_Some _ _ _ _ Ha1). cbn [mbind outcome_bind].
    eexists _, (Some a), ({[a]} ∪ Fl ∪ Fr'). split; [done|]. split; [|split].
    + apply (rep_node left right key _ a (set_right r' n) tl _ Fl Fr').
      * apply lookup_insert_eq.
      * eapply rep_frame; [done|]. intros q Hq.
        rewrite lookup_insert_ne by fp_solver. apply Hfr; fp_solver.
      * eapply rep_frame; [done|]. intros q Hq. apply lookup_insert_ne. fp_solver.
      * done.
      * fp_solver.
      * fp_solver.
    + fp_solver.
    + intros q Hq. rewrite lookup_insert_ne by fp_solver. apply Hfr; fp_solver.
  - (* the node to delete is the root *)
    destruct (left n) as [al|] eqn:El; destruct (right n) as [ar|] eqn:Er.
    + (* two children *)
      destruct tl as [|tll tlx tlr]; [inversion Hrl|].
      destruct tr as [|trl trx trr]; [inversion Hrr|].
      set (tl := Node tll tlx tlr) in *. set (tr := Node trl trx trr) in *.
      change (delete_t tr (min_t trl trx)) with (delete_t tr (min_t tr (key n))).
      change (min_t trl trx) with (min_t tr (key n)).
      unfold bst_min. rewrite bool_decide_true by done.
      cbn [assert mbind outcome_bind].
      destruct (bst_min_loop_spec fuel s ar tr Fr (key n) Hrr)
        as (sa & ns & Hmin & Hsa & Hls & Hks); [lia|].
      rewrite Hmin. cbn [mbind outcome_bind].
      rewrite (bst_load_Some _ _ _ Hls). cbn [mbind outcome_bind].
      rewrite (bst_update_Some _ _ _ _ Hl). cbn [mbind outcome_bind].
      assert (Hsa_ne : a ≠ sa) by (intros ->; done).
      rewrite Hks. set (s1 := <[a := set_key (min_t tr (key n)) n]> s).
      assert (Ha1 : s1 !! a = Some (set_key (min_t tr (key n)) n))
        by apply lookup_insert_eq.
      assert (Hsa1 : s1 !! sa = Some ns)
        by (unfold s1; rewrite lookup_insert_ne by done; exact Hls).
      rewrite (bst_load_Some _ _ _ Ha1). cbn [mbind outcome_bind].
      rewrite (bst_load_Some _ _ _ Hsa1). cbn [mbind outcome_bind].
      change (right (set_key (min_t tr (key n)) n)) with (right n).
      rewrite Er, Hks.
      destruct (IH s1 (Some ar) tr Fr (min_t tr (key n)))
        as (s2 & r' & Fr' & Hi & Hr1 & Hs1 & Hfr); [|lia|].
      { eapply rep_frame; [done|]. intros q Hq. apply lookup_insert_ne. fp_solver. }
      rewrite Hi. cbn [mbind outcome_bind].
      assert (Ha2 : s2 !! a = Some (set_key (min_t tr (key n)) n)).
      { by rewrite Hfr. }
      rewrite (bst_update_Some _ _ _ _ Ha2). cbn [mbind outcome_bind].
      eexists _, (Some a), ({[a]} ∪ Fl ∪ Fr'). split; [done|]. split; [|split].
      * apply (rep_node left right key _ a
                 (set_right r' (set_key (min_t tr (key n)) n)) tl _ Fl Fr').
        -- apply lookup_insert_eq.
        -- cbn [left set_right set_key]. rewrite El.
           eapply rep_frame; [exact Hrl|]. intros q Hq.
           rewrite lookup_insert_ne by fp_solver. rewrite Hfr by fp_solver.
           apply lookup_insert_ne. fp_solver.
        -- cbn [right set_right].
           eapply rep_frame; [exact Hr1|]. intros q Hq. apply lookup_insert_ne. fp_solver.
        -- done.
        -- fp_solver.
        -- fp_solver.
      * fp_solver.
      * intros q Hq. rewrite lookup_insert_ne by fp_solver.
        rewrite Hfr by fp_solver. apply lookup_insert_ne. fp_solver.
    + (* only a left child *)
      inversion Hrr; subst.
      destruct tl as [|tll tlx tlr]; [inversion Hrl|].
      cbn [free]. rewrite Hl. cbn [mbind outcome_bind].
      exists (delete a s), (Some al), Fl. split; [done|]. split; [|split].
      * eapply rep_frame; [done|]. intros q Hq. apply lookup_delete_ne. fp_solver.
      * fp_solver.
      * intros q Hq. apply lookup_delete_ne. fp_solver.
    + (* only a right child *)
      inversion Hrl; subst.
      destruct tr as [|trl trx trr]; [inversion Hrr|].
      cbn [free]. rewrite Hl. cbn [mbind outcome_bind].
      exists (delete a s), (Some ar), Fr. split; [done|]. split; [|split].
      * eapply rep_frame; [done|]. intros q Hq. apply lookup_delete_ne. fp_solver.
      * fp_solver.
      * intros q Hq. apply lookup_delete_ne. fp_solver.
    + (* a leaf *)
      inversion Hrl; inversion Hrr; subst.
      cbn [free]. rewrite Hl. cbn [mbind outcome_bind].
      exists (delete a s), NULL, ∅. split; [done|]. split; [constructor|split].
      * set_solver.
      * intros q Hq. apply lookup_delete_ne. fp_solver.
Qed.

Lemma bst_inorder_spec fuel : ∀ (s : store) root t F,
  rep s root t F → height t ≤ fuel → bst_inorder fuel s root = Ok (inorder t).
Proof.
  induction fuel as [|fuel IH]; intros s root t F Hr Hh.
  - destruct Hr; [done | simpl in Hh; lia].
  - destruct Hr as [|a n tl tr Fl Fr Hl Hrl Hrr Hnl Hnr Hlr]; [done|].
    simpl in Hh. cbn [bst_inorder]. rewrite (bst_load_Some _ _ _ Hl).
    cbn [mbind outcome_bind].
    rewrite (IH _ _ _ _ Hrl) by lia. rewrite (IH _ _ _ _ Hrr) by lia. done.
Qed.

Lemma bst_search_equiv fuel : ∀ (s : store) root k,
  bst_search_recursive fuel s root k = bst_search_iterative fuel s root k.
Proof.
  unfold bst_search_iterative.
  induction fuel as [|fuel IH]; intros s root k; [by destruct root|].
  destruct root as [a|]; [|done].
  cbn [bst_search_recursive bst_search_iterative_loop].
  destruct (load s (Some a)) as [n| | |]; cbn [mbind outcome_bind]; try done.
  destruct (key n =? k)%Z; [done|]. destruct (k <? key n)%Z; apply IH.
Qed.

Lemma rep_key_elem_of (s : store) p t F a n :
  rep s p t F → a ∈ F → s !! a = Some n → key n ∈ inorder t.
Proof.
  induction 1 as [|a' n' tl tr Fl Fr Hl _ IH1 _ IH2 _ _ _]; intros Ha Hn;
    [set_solver|].
  simpl. destruct (decide (a = a')) as [->|Hne].
  - rewrite Hl in Hn. injection Hn as ->. set_solver.
  - assert (a ∈ Fl ∨ a ∈ Fr) as [?|?] by set_solver.
    + specialize (IH1 ltac:(done) Hn). set_solver.
    + specialize (IH2 ltac:(done) Hn). set_solver.
Qed.

Lemma bst_search_recursive_spec fuel : ∀ (s : store) root t F k,
  rep s root t F → height t ≤ fuel →
  ∃ r,
    bst_search_recursive fuel s root k = Ok r ∧
    (r = NULL ∨ ∃ a n, r = Some a ∧ a ∈ F ∧ s !! a = Some n ∧ key n = k) ∧
    (bst_ordered t → k ∈ inorder t → r ≠ NULL).
Proof.
  induction fuel as [|fuel IH]; intros s root t F k Hr Hh.
  { destruct Hr; [|simpl in Hh; lia].
    exists NULL. split; [done|]. split; [by left|]. set_solver. }
  destruct Hr as [|a n tl tr Fl Fr Hl Hrl Hrr Hnl Hnr Hlr].
  { exists NULL. split; [done|]. split; [by left|]. set_solver. }
  simpl in Hh. cbn [bst_search_recursive]. rewrite (bst_load_Some _ _ _ Hl).
  cbn [mbind outcome_bind].
  destruct (key n =? k)%Z eqn:E; [|destruct (k <? key n)%Z eqn:E1].
  - exists (Some a). split; [done|]. split; [|done].
    right. exists a, n. apply Z.eqb_eq in E. split_and!; [done|set_solver|done..].
  - destruct (IH s (left n) tl Fl k Hrl) as (r & Hs & Hres & Hin); [lia|].
    exists r. split; [done|]. split.
    + destruct Hres as [?|(a' & n' & ? & ? & ? & ?)]; [by left|].
      right. exists a', n'. split_and!; [done|set_solver|done..].
    + simpl. intros (Bl & Br & Sl & Sr) Hk. apply Hin; [done|].
      apply Z.eqb_neq in E. apply Z.ltb_lt in E1. rewrite Forall_forall in Br.
      apply elem_of_app in Hk as [?|[->|Hk%Br]%elem_of_cons];
        [done | done | simpl in Hk; lia].
  - destruct (IH s (right n) tr Fr k Hrr) as (r & Hs & Hres & Hin); [lia|].
    exists r. split; [done|]. split.
    + destruct Hres as [?|(a' & n' & ? & ? & ? & ?)]; [by left|].
      right. exists a', n'. split_and!; [done|set_solver|done..].
    + simpl. intros (Bl & Br & Sl & Sr) Hk. apply Hin; [done|].
      apply Z.eqb_neq in E. apply Z.ltb_ge in E1. rewrite Forall_forall in Bl.
      apply elem_of_app in Hk as [Hk%Bl|[->|?]%elem_of_cons];
        [simpl in Hk; lia | done | done].
Qed.

(** A sequence of calls on one tree. *)
Inductive op := Insert (k : Z) | Delete (k : Z).

Definition bst_apply (fuel : nat) (st : store * ptr) (o : op)
  : outcome (store * ptr) :=
  match o with
  | Insert k => bst_insert fuel st.1 st.2 k
  | Delete k => bst_delete fuel st.1 st.2 k
  end.

Fixpoint bst_run (fuel : nat) (ops : list op) (st : store * ptr)
  : outcome (store * ptr) :=
  match ops with
  | [] => Ok st
  | o :: ops => st ← bst_apply fuel st o; bst_run fuel ops st
  end.

Lemma bst_run_spec fuel ops : ∀ (s : store) root t F,
  rep s root t F → bst_ordered t → size t + length ops ≤ fuel →
  ∃ s' r t' F',
    bst_run fuel ops (s, root) = Ok (s', r) ∧ rep s' r t' F' ∧
    bst_ordered t' ∧ size t' ≤ size t + length ops.
Proof.
  induction ops as [|o ops IH]; intros s root t F Hr Hb Hsz.
  { exists s, root, t, F. split; [done|]. split; [done|]. split; [done|lia]. }
  simpl in Hsz. pose proof (height_le_size t) as Hht.
  cbn [bst_run]. destruct o as [k|k]; cbn [bst_apply fst snd].
  - destruct (bst_insert_spec fuel k s root t F Hr) as (s1 & r1 & F1 & Hi & Hr1 & _);
      [lia|].
    rewrite Hi. cbn [mbind outcome_bind]. pose proof (insert_t_size t k).
    destruct (IH s1 r1 _ F1 Hr1) as (s' & r & t' & F' & Hrun & Hr' & Hb' & Hsz');
      [by apply insert_t_bst | lia |].
    exists s', r, t', F'. split; [done|]. split; [done|]. split; [done|simpl; lia].
  - destruct (bst_delete_spec fuel s root t F k Hr) as (s1 & r1 & F1 & Hi & Hr1 & _);
      [lia|].
    rewrite Hi. cbn [mbind outcome_bind]. pose proof (delete_t_size t k).
    destruct (IH s1 r1 _ F1 Hr1) as (s' & r & t' & F' & Hrun & Hr' & Hb' & Hsz');
      [by apply delete_t_bst | lia |].
    exists s', r, t', F'. split; [done|]. split; [done|]. split; [done|simpl; lia].
Qed.

(** *** Insertions and deletions that change nothing *)

Lemma insert_t_height t k : height (insert_t t k) ≤ S (height t).
Proof.
  induction t as [|l IHl x r IHr]; simpl; [lia|].
  destruct (k <? x)%Z; [simpl; lia|]. destruct (k >? x)%Z; simpl; lia.
Qed.

Lemma set_left_id (n : BST.Node) : set_left (left n) n = n.
Proof. by destruct n. Qed.

Lemma set_right_id (n : BST.Node) : set_right (right n) n = n.
Proof. by destruct n. Qed.

(** A key that the search tree holds is found on the search path, and
    [bst_insert] then writes every link back as it was. *)
Lemma bst_insert_present fuel k : ∀ (s : store) root t F,
  rep s root t F → height t ≤ fuel → bst_ordered t → k ∈ inorder t →
  bst_insert fuel s root k = Ok (s, root).
Proof.
  induction fuel as [|fuel IH]; intros s root t F Hr Hh Hb Hk.
  { destruct Hr; [|simpl in Hh; lia]. set_solver. }
  destruct Hr as [|a n tl tr Fl Fr Hl Hrl Hrr Hnl Hnr Hlr]; [set_solver|].
  simpl in Hh, Hb, Hk. destruct Hb as (Bl & Br & Sl & Sr).
  rewrite Forall_forall in Bl. rewrite Forall_forall in Br.
  cbn [bst_insert]. rewrite (bst_load_Some _ _ _ Hl). cbn [mbind outcome_bind].
  destruct (k <? key n)%Z eqn:E1; [|destruct (k >? key n)%Z eqn:E2].
  - apply Z.ltb_lt in E1.
    rewrite (IH s (left n) tl Fl Hrl); [|lia|done|].
    + cbn [mbind outcome_bind]. rewrite (bst_update_Some _ _ _ _ Hl).
      cbn [mbind outcome_bind]. by rewrite set_left_id, insert_id.
    + apply elem_of_app in Hk as [?|[->|Hk%Br]%elem_of_cons];
        [done | lia | simpl in Hk; lia].
  - apply Z.gtb_lt in E2.
    rewrite (IH s (right n) tr Fr Hrr); [|lia|done|].
    + cbn [mbind outcome_bind]. rewrite (bst_update_Some _ _ _ _ Hl).
      cbn [mbind outcome_bind]. by rewrite set_right_id, insert_id.
    + apply elem_of_app in Hk as [Hk%Bl|[->|?]%elem_of_cons];
        [simpl in Hk; lia | lia | done].
  - done.
Qed.

(** A key that the tree does not hold leads [bst_delete] to a [NULL]
    link; every link on the way is written back as it was. *)
Lemma bst_delete_absent fuel k : ∀ (s : store) root t F,
  rep s root t F → height t ≤ fuel → k ∉ inorder t →
  bst_delete fuel s root k = Ok (s, root).
Proof.
  induction fuel as [|fuel IH]; intros s root t F Hr Hh Hk.
  { destruct Hr; [done|simpl in Hh; lia]. }
  destruct Hr as [|a n tl tr Fl Fr Hl Hrl Hrr Hnl Hnr Hlr]; [done|].
  simpl in Hh, Hk.
  cbn [bst_delete]. rewrite (bst_load_Some _ _ _ Hl). cbn [mbind outcome_bind].
  destruct (k <? key n)%Z eqn:E1; [|destruct (k >? key n)%Z eqn:E2].
  - rewrite (IH s (left n) tl Fl Hrl); [|lia|set_solver].
    cbn [mbind outcome_bind]. rewrite (bst_update_Some _ _ _ _ Hl).
    cbn [mbind outcome_bind]. by rewrite set_left_id, insert_id.
  - rewrite (IH s (right n) tr Fr Hrr); [|lia|set_solver].
    cbn [mbind outcome_bind]. rewrite (bst_update_Some _ _ _ _ Hl).
    cbn [mbind outcome_bind]. by rewrite set_right_id, insert_id.
  - apply Z.ltb_ge in E1. rewrite Z.gtb_ltb in E2. apply Z.ltb_ge in E2.
    exfalso. apply Hk. assert (k = key n) as -> by lia. set_solver.
Qed.

(** *** [bst_min] *)

Lemma bst_min_spec fuel (s : store) a t F :
  rep s (Some a) t F → bst_ordered t → height t ≤ S fuel →
  ∃ a' n',
    bst_min fuel s (Some a) = Ok (Some a') ∧ a' ∈ F ∧ s !! a' = Some n' ∧
    key n' ∈ inorder t ∧ Forall (Z.le (key n')) (inorder t).
Proof.
  intros Hr Hb Hh.
  destruct (bst_min_loop_spec fuel s a t F 0%Z Hr Hh) as (a' & n' & Hm & Ha' & Hl' & Hk).
  exists a', n'. unfold bst_min. rewrite bool_decide_true by done.
  cbn [assert mbind outcome_bind]. split; [done|]. split; [done|]. split; [done|].
  apply bst_ordered_sorted in Hb.
  destruct (inorder_min_t t 0%Z) as [[_ ->]|[rest Hin]]; [inversion Hr|].
  rewrite Hin in Hb |- *. rewrite Hk. split; [set_solver|].
  apply StronglySorted_cons in Hb as [Hlt _]. constructor; [lia|].
  eapply Forall_impl; [exact Hlt|]. simpl. intros; lia.
Qed.

(** *** The traversals *)

Fixpoint postorder {A} (t : tree A) : list A :=
  match t with Leaf => [] | Node l x r => postorder l ++ postorder r ++ [x] end.

Lemma postorder_preorder {A} (t : tree A) : postorder t ≡ₚ preorder t.
Proof.
  induction t as [|l IHl x r IHr]; [done|]. simpl. rewrite IHl, IHr.
  solve_Permutation.
Qed.

Lemma bst_preorder_spec fuel : ∀ (s : store) root t F,
  rep s root t F → height t ≤ fuel → bst_preorder fuel s root = Ok (preorder t).
Proof.
  induction fuel as [|fuel IH]; intros s root t F Hr Hh.
  - destruct Hr; [done | simpl in Hh; lia].
  - destruct Hr as [|a n tl tr Fl Fr Hl Hrl Hrr Hnl Hnr Hlr]; [done|].
    simpl in Hh. cbn [bst_preorder]. rewrite (bst_load_Some _ _ _ Hl).
    cbn [mbind outcome_bind].
    rewrite (IH _ _ _ _ Hrl) by lia. rewrite (IH _ _ _ _ Hrr) by lia. done.
Qed.

Lemma bst_postorder_spec fuel : ∀ (s : store) root t F,
  rep s root t F → height t ≤ fuel → bst_postorder fuel s root = Ok (postorder t).
Proof.
  induction fuel as [|fuel IH]; intros s root t F Hr Hh.
  - destruct Hr; [done | simpl in Hh; lia].
  - destruct Hr as [|a n tl tr Fl Fr Hl Hrl Hrr Hnl Hnr Hlr]; [done|].
    simpl in Hh. cbn [bst_postorder]. rewrite (bst_load_Some _ _ _ Hl).
    cbn [mbind outcome_bind].
    rewrite (IH _ _ _ _ Hrl) by lia. rewrite (IH _ _ _ _ Hrr) by lia. done.
Qed.

(** *** [bst_free] *)

Lemma bst_free_spec fuel : ∀ (s : store) h t F,
  rep s h t F → height t ≤ fuel →
  ∃ s',
    bst_free fuel s h = Ok s' ∧ dom s' = dom s ∖ F ∧
    (∀ q, q ∉ F → s' !! q = s !! q).
Proof.
  induction fuel as [|fuel IH]; intros s h t F Hr Hsz.
  - destruct Hr; [|simpl in Hsz; lia]. exists s. split; [done|]. split; [set_solver|done].
  - destruct Hr as [|a n tl tr Fl Fr Hl Hrl Hrr Hnl Hnr Hlr].
    { exists s. split; [done|]. split; [set_solver|done]. }
    simpl in Hsz. cbn [bst_free]. rewrite (bst_load_Some _ _ _ Hl).
    cbn [mbind outcome_bind].
    destruct (IH s (left n) tl Fl Hrl) as (s1 & Hd1 & Hdom1 & Hfr1); [lia|].
    rewrite Hd1. cbn [mbind outcome_bind].
    assert (Hl1 : s1 !! a = Some n) by (rewrite Hfr1; done).
    rewrite (bst_load_Some _ _ _ Hl1). cbn [mbind outcome_bind].
    destruct (IH s1 (right n) tr Fr) as (s2 & Hd2 & Hdom2 & Hfr2); [|lia|].
    { eapply rep_frame; [done|]. intros q Hq. apply Hfr1. fp_solver. }
    rewrite Hd2. cbn [mbind outcome_bind free].
    assert (s2 !! a = Some n) as -> by (rewrite Hfr2; done).
    exists (delete a s2). split; [done|]. split.
    + rewrite dom_delete_L, Hdom2, Hdom1. fp_solver.
    + intros q Hq. rewrite lookup_delete_ne by fp_solver.
      rewrite Hfr2 by fp_solver. apply Hfr1. fp_solver.
Qed.

(** *** Searching after an insertion or a deletion *)

Lemma bst_search_absent fuel (s : store) root t F k :
  rep s root t F → height t ≤ fuel → k ∉ inorder t →
  bst_search_recursive fuel s root k = Ok NULL.
Proof.
  intros Hr Hh Hk.
  destruct (bst_search_recursive_spec fuel s root t F k Hr Hh) as (r & Hs & Hres & _).
  destruct Hres as [->|(a & n & -> & Ha & Hn & <-)]; [done|].
  exfalso. apply Hk. by eapply rep_key_elem_of.
Qed.

Lemma bst_search_present fuel (s : store) root t F k :
  rep s root t F → height t ≤ fuel → bst_ordered t → k ∈ inorder t →
  ∃ a n, bst_search_recursive fuel s root k = Ok (Some a) ∧ a ∈ F ∧
         s !! a = Some n ∧ key n = k.
Proof.
  intros Hr Hh Hb Hk.
  destruct (bst_search_recursive_spec fuel s root t F k Hr Hh) as (r & Hs & Hres & Hin).
  destruct Hres as [->|(a & n & -> & Ha & Hn & <-)]; [by destruct (Hin Hb Hk)|].
  by exists a, n.
Qed.

Lemma delete_t_height t : ∀ k, height (delete_t t k) ≤ height t.
Proof.
  induction t as [|l IHl x r IHr]; intros k; [done|]. cbn [delete_t].
  destruct (k <? x)%Z; [|destruct (k >? x)%Z].
  - specialize (IHl k). simpl. lia.
  - specialize (IHr k). simpl. lia.
  - destruct l as [|ll lx lr], r as [|rl rx rr]; [simpl; lia..|].
    specialize (IHr (min_t (Node rl rx rr) x)).
    cbn [height] in *. lia.
Qed.

(** The footprint of a tree has one address for each node. *)
Lemma rep_size (s : store) p t F : rep s p t F → base.size F = PtrTree.size t.
Proof.
  induction 1 as [|a n tl tr Fl Fr Hl _ IHl _ IHr Hnl Hnr Hlr]; [done|].
  rewrite size_union by set_solver. rewrite size_union by set_solver.
  rewrite size_singleton, IHl, IHr. done.
Qed.

Lemma rep_root_label (s : store) a n t F :
  rep s (Some a) t F → s !! a = Some n →
  head (preorder t) = Some (key n) ∧ last (postorder t) = Some (key n).
Proof.
  inversion 1 as [|a' n' tl tr Fl Fr Hl]; subst. intros Hn.
  assert (n' = n) as -> by congruence. split; [done|].
  cbn [postorder]. by rewrite app_assoc, last_snoc.
Qed.

End BSTProofs.

(** ** Treaps *)

Module TreapProofs.
Import Treap.

(** BST property: all keys on the left are smaller, all keys on the right
    are larger than the key of the node. *)
Fixpoint bst_ordered (t : TreapNode) : Prop :=
  match t with
  | Leaf => True
  | Node l k _ r =>
      Forall (λ x, (x < k)%Z) (treap_inorder l)
      ∧ Forall (λ x, (k < x)%Z) (treap_inorder r)
      ∧ bst_ordered l ∧ bst_ordered r
  end.

Definition root_priority_le (t : TreapNode) (p : Z) : Prop :=
  match t with Leaf => True | Node _ _ q _ => (q <= p)%Z end.

(** Max-heap property: the priority of a node is at least the priority
    of each of its children. *)
Fixpoint max_heap (t : TreapNode) : Prop :=
  match t with
  | Leaf => True
  | Node l _ p r =>
      root_priority_le l p ∧ root_priority_le r p ∧ max_heap l ∧ max_heap r
  end.

Definition valid_treap (t : TreapNode) : Prop := bst_ordered t ∧ max_heap t.

Lemma treap_bst_ordered_sorted t :
  bst_ordered t ↔ StronglySorted Z.lt (treap_inorder t).
Proof.
  induction t as [|l IHl k p r IHr]; simpl.
  - split; [constructor|done].
  - rewrite StronglySorted_app, StronglySorted_cons, IHl, IHr, !Forall_forall.
    split.
    + intros (Hl & Hr & Sl & Sr). split_and!; try done.
      intros x1 x2 H1 [->|H2]%elem_of_cons; [by apply Hl|].
      specialize (Hl _ H1). specialize (Hr _ H2). lia.
    + intros (Hlr & Sl & Hr & Sr). split_and!; try done.
      intros x Hx. apply (Hlr x k Hx). by left.
Qed.

Lemma sorted_lt_le (l : list Z) : StronglySorted Z.lt l → StronglySorted Z.le l.
Proof.
  induction 1 as [|x l _ IH Hx]; constructor; [done|].
  eapply Forall_impl; [exact Hx|]. simpl. intros; lia.
Qed.

Lemma root_priority_le_trans t p q :
  root_priority_le t p → (p <= q)%Z → root_priority_le t q.
Proof. destruct t; simpl; [done|lia]. Qed.

Lemma treap_split_inorder t k :
  treap_inorder (treap_split t k).1 ++ treap_inorder (treap_split t k).2
  = treap_inorder t.
Proof.
  induction t as [|l IHl tk tp r IHr]; simpl; [done|].
  destruct (k <=? tk)%Z.
  - destruct (treap_split l k) as [l1 l2]; simpl in *.
    by rewrite <- IHl, <- app_assoc.
  - destruct (treap_split r k) as [r1 r2]; simpl in *.
    by rewrite <- IHr, <- app_assoc.
Qed.

Lemma treap_split_bounds t k :
  StronglySorted Z.le (treap_inorder t) →
  Forall (λ x, (x < k)%Z) (treap_inorder (treap_split t k).1)
  ∧ Forall (λ x, (k <= x)%Z) (treap_inorder (treap_split t k).2).
Proof.
  induction t as [|l IHl tk tp r IHr]; simpl; [done|].
  rewrite StronglySorted_app, StronglySorted_cons. intros (Hlr & Sl & Hr & Sr).
  destruct (k <=? tk)%Z eqn:E.
  - apply Z.leb_le in E. destruct (IHl Sl) as [H1 H2].
    destruct (treap_split l k) as [l1 l2]; simpl in *.
    split; [done|]. apply Forall_app. split; [done|].
    constructor; [done|]. eapply Forall_impl; [exact Hr|]. simpl. intros; lia.
  - apply Z.leb_gt in E. destruct (IHr Sr) as [H1 H2].
    destruct (treap_split r k) as [r1 r2]; simpl in *.
    split; [|done]. apply Forall_app. split.
    + apply Forall_forall. intros x Hx.
      assert (x <= tk)%Z by (apply (Hlr x tk Hx); by left). lia.
    + by constructor.
Qed.

Lemma treap_split_max_heap t k :
  max_heap t →
  max_heap (treap_split t k).1 ∧ max_heap (treap_split t k).2
  ∧ ∀ p, root_priority_le t p →
         root_priority_le (treap_split t k).1 p
         ∧ root_priority_le (treap_split t k).2 p.
Proof.
  induction t as [|l IHl tk tp r IHr]; simpl; [done|].
  intros (Hl & Hr & Ml & Mr).
  destruct (k <=? tk)%Z.
  - destruct (IHl Ml) as (M1 & M2 & Hp).
    destruct (treap_split l k) as [l1 l2]; simpl in *.
    destruct (Hp tp Hl) as [Hp1 Hp2]. split_and!; try done.
    intros p Hle. split; [|done]. by eapply root_priority_le_trans.
  - destruct (IHr Mr) as (M1 & M2 & Hp).
    destruct (treap_split r k) as [r1 r2]; simpl in *.
    destruct (Hp tp Hr) as [Hp1 Hp2]. split_and!; try done.
    intros p Hle. split; [done|]. by eapply root_priority_le_trans.
Qed.

Lemma treap_merge_inorder l r :
  treap_inorder (treap_merge l r) = treap_inorder l ++ treap_inorder r.
Proof.
  revert r. induction l as [|ll IHll lk lp lr IHlr]; intros r; [done|].
  induction r as [|rl IHrl rk rp rr _].
  - simpl. by rewrite app_nil_r.
  - cbn [treap_merge]. destruct (lp >? rp)%Z.
    + cbn [treap_inorder]. rewrite IHlr. cbn [treap_inorder].
      by rewrite <- app_assoc.
    + cbn [treap_inorder]. cbn [treap_merge] in IHrl. rewrite IHrl.
      cbn [treap_inorder]. by rewrite <- !app_assoc.
Qed.

Lemma treap_insert_inorder t k p :
  treap_inorder (treap_insert t k p)
  = treap_inorder (treap_split t k).1 ++ k :: treap_inorder (treap_split t k).2.
Proof.
  unfold treap_insert, treap_new_node. destruct (treap_split t k) as [l r].
  rewrite !treap_merge_inorder. simpl. by rewrite <- app_assoc.
Qed.

Lemma treap_remove_subset t k x :
  x ∈ treap_inorder (treap_remove t k) → x ∈ treap_inorder t.
Proof.
  induction t as [|l IHl tk tp r IHr]; simpl; [done|].
  destruct (tk =? k)%Z; [|destruct (k <? tk)%Z]; simpl.
  - rewrite treap_merge_inorder. set_solver.
  - set_solver.
  - set_solver.
Qed.

Lemma treap_remove_sorted (R : relation Z) t k :
  StronglySorted R (treap_inorder t) →
  StronglySorted R (treap_inorder (treap_remove t k)).
Proof.
  induction t as [|l IHl tk tp r IHr]; simpl; [done|].
  rewrite StronglySorted_app, StronglySorted_cons, Forall_forall.
  intros (Hlr & Sl & Hr & Sr).
  destruct (tk =? k)%Z; [|destruct (k <? tk)%Z]; simpl.
  - rewrite treap_merge_inorder. apply StronglySorted_app. split_and!; try done.
    intros x1 x2 H1 H2. apply Hlr; [done|]. by right.
  - apply StronglySorted_app. split_and!; [|by apply IHl|].
    + intros x1 x2 H1%treap_remove_subset H2. by apply Hlr.
    + apply StronglySorted_cons. by rewrite Forall_forall.
  - apply StronglySorted_app. split_and!; [|done|].
    + intros x1 x2 H1 [->|H2%treap_remove_subset]%elem_of_cons;
        apply Hlr; try done; [by left|by right].
    + apply StronglySorted_cons. rewrite Forall_forall. split; [|by apply IHr].
      intros x Hx%treap_remove_subset. by apply Hr.
Qed.

Lemma treap_insert_sorted_le t k p :
  StronglySorted Z.le (treap_inorder t) →
  StronglySorted Z.le (treap_inorder (treap_insert t k p)).
Proof.
  intros Hs. rewrite treap_insert_inorder.
  destruct (treap_split_bounds t k Hs) as [H1 H2].
  pose proof (treap_split_inorder t k) as Heq. rewrite <- Heq in Hs.
  apply StronglySorted_app in Hs as (Hlr & Sl & Sr).
  rewrite Forall_forall in H1. rewrite Forall_forall in H2.
  apply StronglySorted_app. split_and!; [|done|].
  - intros x1 x2 Hx1 [->|Hx2]%elem_of_cons.
    + specialize (H1 _ Hx1). simpl in H1. lia.
    + by apply Hlr.
  - apply StronglySorted_cons. by rewrite Forall_forall.
Qed.

Lemma treap_insert_sorted_lt t k p :
  k ∉ treap_inorder t →
  StronglySorted Z.lt (treap_inorder t) →
  StronglySorted Z.lt (treap_inorder (treap_insert t k p)).
Proof.
  intros Hk Hs. rewrite treap_insert_inorder.
  destruct (treap_split_bounds t k (sorted_lt_le _ Hs)) as [H1 H2].
  pose proof (treap_split_inorder t k) as Heq. rewrite <- Heq in Hs, Hk.
  apply StronglySorted_app in Hs as (Hlr & Sl & Sr).
  rewrite Forall_forall in H1. rewrite Forall_forall in H2.
  apply StronglySorted_app. split_and!; [|done|].
  - intros x1 x2 Hx1 [->|Hx2]%elem_of_cons.
    + by apply H1.
    + by apply Hlr.
  - apply StronglySorted_cons. rewrite Forall_forall. split; [|done].
    intros x Hx. specialize (H2 _ Hx). simpl in H2.
    assert (x ≠ k) by (intros ->; apply Hk; set_solver). lia.
Qed.

(** A sequence of calls on one treap. *)
Inductive op := Insert (k : Z) (rand : Z) | Remove (k : Z).

Definition treap_apply (t : TreapNode) (o : op) : TreapNode :=
  match o with
  | Insert k rand => treap_insert t k rand
  | Remove k => treap_remove t k
  end.

Definition treap_run (ops : list op) (t : TreapNode) : TreapNode :=
  fold_left treap_apply ops t.

(** No call inserts a key that the treap holds at that moment. *)
Fixpoint inserts_absent_keys (ops : list op) (t : TreapNode) : Prop :=
  match ops with
  | [] => True
  | o :: ops =>
      match o with
      | Insert k _ => k ∉ treap_inorder t
      | Remove _ => True
      end ∧ inserts_absent_keys ops (treap_apply t o)
  end.

Lemma treap_run_sorted_le ops : ∀ t,
  StronglySorted Z.le (treap_inorder t) →
  StronglySorted Z.le (treap_inorder (treap_run ops t)).
Proof.
  induction ops as [|o ops IH]; intros t Hs; [done|].
  simpl. apply IH. destruct o; simpl.
  - by apply treap_insert_sorted_le.
  - by apply treap_remove_sorted.
Qed.

Lemma treap_run_sorted_lt ops : ∀ t,
  inserts_absent_keys ops t →
  StronglySorted Z.lt (treap_inorder t) →
  StronglySorted Z.lt (treap_inorder (treap_run ops t)).
Proof.
  induction ops as [|o ops IH]; intros t Hf Hs; [done|].
  destruct Hf as [Ho Hf]. simpl. apply IH; [done|]. destruct o; simpl.
  - by apply treap_insert_sorted_lt.
  - by apply treap_remove_sorted.
Qed.

(** *** [treap_merge] and the heap order of the priorities *)

Lemma treap_merge_max_heap l : ∀ r,
  max_heap l → max_heap r →
  max_heap (treap_merge l r)
  ∧ ∀ p, root_priority_le l p → root_priority_le r p →
         root_priority_le (treap_merge l r) p.
Proof.
  induction l as [|ll IHll lk lp lr IHlr]; intros r Ml Mr; [done|].
  induction r as [|rl IHrl rk rp rr _]; [done|].
  destruct Ml as (Hll & Hlr & Mll & Mlr). destruct Mr as (Hrl & Hrr & Mrl & Mrr).
  cbn [treap_merge]. destruct (lp >? rp)%Z eqn:E.
  - apply Z.gtb_lt in E.
    destruct (IHlr (Node rl rk rp rr) Mlr) as [M Hp]; [done|].
    split; [|done]. cbn [max_heap]. split_and!; try done.
    apply Hp; [done|]. simpl. lia.
  - rewrite Z.gtb_ltb in E. apply Z.ltb_ge in E.
    cbn [treap_merge] in IHrl. destruct (IHrl Mrl) as [M Hp].
    split; [|done]. cbn [max_heap]. split_and!; try done.
    apply Hp; [|done]. simpl. lia.
Qed.

Lemma treap_merge_bst_ordered l r :
  bst_ordered l → bst_ordered r →
  (∀ x y, x ∈ treap_inorder l → y ∈ treap_inorder r → (x < y)%Z) →
  bst_ordered (treap_merge l r).
Proof.
  rewrite !treap_bst_ordered_sorted, treap_merge_inorder. intros Hl Hr Hlr.
  by apply StronglySorted_app.
Qed.

Lemma treap_insert_max_heap t k p : max_heap t → max_heap (treap_insert t k p).
Proof.
  intros Mt. unfold treap_insert, treap_new_node.
  destruct (treap_split_max_heap t k Mt) as (M1 & M2 & _).
  destruct (treap_split t k) as [l r]; simpl in *.
  apply treap_merge_max_heap; [|done]. by apply treap_merge_max_heap.
Qed.

Lemma treap_remove_max_heap t k :
  max_heap t →
  max_heap (treap_remove t k)
  ∧ ∀ p, root_priority_le t p → root_priority_le (treap_remove t k) p.
Proof.
  induction t as [|l IHl tk tp r IHr]; [done|].
  intros (Hl & Hr & Ml & Mr). cbn [treap_remove].
  destruct (tk =? k)%Z; [|destruct (k <? tk)%Z].
  - destruct (treap_merge_max_heap l r Ml Mr) as [M Hp]. split; [done|].
    intros p Hle. simpl in Hle.
    apply Hp; eapply root_priority_le_trans; done.
  - destruct (IHl Ml) as [M Hp]. split; [|done].
    cbn [max_heap]. split_and!; try done. by apply Hp.
  - destruct (IHr Mr) as [M Hp]. split; [|done].
    cbn [max_heap]. split_and!; try done. by apply Hp.
Qed.

Lemma treap_filter_id (P : Z → Prop) `{!∀ x, Decision (P x)} (l : list Z) :
  Forall P l → filter P l = l.
Proof.
  induction 1 as [|x l Hx _ IH]; [done|].
  rewrite filter_cons, decide_True by done. by rewrite IH.
Qed.

(** On a search tree [treap_remove] takes out the one node with the key,
    if there is one. *)
Lemma treap_remove_inorder t k :
  bst_ordered t →
  treap_inorder (treap_remove t k) = filter (λ y, y ≠ k) (treap_inorder t).
Proof.
  induction t as [|l IHl tk tp r IHr]; [done|].
  intros (Hl & Hr & Bl & Br). cbn [treap_remove treap_inorder].
  rewrite filter_app, filter_cons.
  destruct (tk =? k)%Z eqn:E; [|destruct (k <? tk)%Z eqn:E1].
  - apply Z.eqb_eq in E. subst tk. rewrite decide_False by (intros H; by apply H).
    rewrite treap_merge_inorder.
    rewrite !treap_filter_id; [done| |].
    + eapply Forall_impl; [exact Hr|]. simpl. intros; lia.
    + eapply Forall_impl; [exact Hl|]. simpl. intros; lia.
  - apply Z.eqb_neq in E. apply Z.ltb_lt in E1.
    rewrite decide_True by done. cbn [treap_inorder]. rewrite IHl by done.
    rewrite (treap_filter_id _ (treap_inorder r)); [done|].
    eapply Forall_impl; [exact Hr|]. simpl. intros; lia.
  - apply Z.eqb_neq in E. apply Z.ltb_ge in E1.
    rewrite decide_True by done. cbn [treap_inorder]. rewrite IHr by done.
    rewrite (treap_filter_id _ (treap_inorder l)); [done|].
    eapply Forall_impl; [exact Hl|]. simpl. intros; lia.
Qed.

(** *** [treap_search] *)

(** The search only needs the in-order sequence to be non-decreasing, so
    it also works on a treap that holds a key more than once. *)
Lemma treap_search_spec t k :
  StronglySorted Z.le (treap_inorder t) →
  treap_search t k = true ↔ k ∈ treap_inorder t.
Proof.
  induction t as [|l IHl tk tp r IHr]; simpl.
  - intros _. split; [done|]. by intros ?%elem_of_nil.
  - rewrite StronglySorted_app, StronglySorted_cons, Forall_forall.
    intros (Hlr & Sl & Hr & Sr).
    destruct (k =? tk)%Z eqn:E; [|destruct (k <? tk)%Z eqn:E1].
    + apply Z.eqb_eq in E. subst. split; [|done]. intros _. set_solver.
    + apply Z.eqb_neq in E. apply Z.ltb_lt in E1. rewrite (IHl Sl).
      split; [set_solver|].
      intros [?|[->|Hk%Hr]%elem_of_cons]%elem_of_app; [done|done|lia].
    + apply Z.eqb_neq in E. apply Z.ltb_ge in E1. rewrite (IHr Sr).
      split; [set_solver|].
      intros [Hk|[->|?]%elem_of_cons]%elem_of_app; [|done|done].
      specialize (Hlr k tk Hk ltac:(by left)). lia.
Qed.

End TreapProofs.

(** * The properties of the specification *)

(** ** Binomial heaps: the consolidation after a link *)

(** C5. After [binomial_insert(&h, 1)] and [binomial_insert(&h, 2)] on an
    empty heap the degrees along the sibling chain of the root list are
    1, 0: they are not ascending, and the second root is at the same time
    the child of the first.  [binomial_link] makes the root with the
    larger key a child but leaves the [sibling] field of the surviving
    root pointing at it when that root is the first argument. *)
Theorem binomial_insert_root_degrees_not_ascending :
  ('(s, h) ← Binomial.binomial_insert 2 ∅ Binomial.binomial_create 1;
   Binomial.binomial_insert 2 s h 2)
  = Ok (BinomialProofs.s12, BinomialProofs.h12)
  ∧ Binomial.root_degrees 2 BinomialProofs.s12 (Binomial.head BinomialProofs.h12)
    = Ok [1; 0]%Z
  ∧ ¬ StronglySorted Z.lt [1; 0]%Z
  ∧ (∃ n, BinomialProofs.s12 !! 0 = Some n
          ∧ Binomial.child n = Some 1 ∧ Binomial.sibling n = Some 1).
Proof.
  split; [exact BinomialProofs.insert_1_2|]. split; [by vm_compute|]. split.
  - intros H. apply StronglySorted_cons in H as [H _].
    apply Forall_cons in H as [H _]. lia.
  - eexists. split; [by vm_compute|]. done.
Qed.

(** C1. On the binomial heap built by inserting 1 and then 2 into an
    empty heap, the drain loop (find-min, delete-min until the root list
    is empty) yields nothing: whatever the step budget, the first
    [binomial_delete_min] is still inside the consolidation loop of
    [binomial_merge]. *)
Theorem binomial_drain_after_inserts_diverges :
  ('(s, h) ← Binomial.binomial_insert 2 ∅ Binomial.binomial_create 1;
   Binomial.binomial_insert 2 s h 2)
  = Ok (BinomialProofs.s12, BinomialProofs.h12)
  ∧ ∀ fuel,
      Binomial.binomial_drain fuel BinomialProofs.s12 BinomialProofs.h12
      = OutOfFuel.
Proof.
  split; [exact BinomialProofs.insert_1_2|]. apply BinomialProofs.binomial_drain_12.
Qed.

(** C2. Merging the one-element binomial heaps {1} and {2}, each of which
    drains to its own key, gives a heap whose drain never delivers the two
    elements: it does not return for any step budget. *)
Theorem binomial_merge_then_drain_diverges :
  ∃ s a b,
    ('(s, a) ← Binomial.binomial_insert 2 ∅ Binomial.binomial_create 1;
     '(s, b) ← Binomial.binomial_insert 2 s Binomial.binomial_create 2;
     Ok (s, a, b)) = Ok (s, a, b)
    ∧ Binomial.binomial_drain 3 s a = Ok [1%Z]
    ∧ Binomial.binomial_drain 3 s b = Ok [2%Z]
    ∧ Binomial.binomial_merge 2 s a b
      = Ok (BinomialProofs.s12, BinomialProofs.h12)
    ∧ ∀ fuel,
        Binomial.binomial_drain fuel BinomialProofs.s12 BinomialProofs.h12
        = OutOfFuel.
Proof.
  eexists _, _, _. split; [by vm_compute|]. split; [by vm_compute|].
  split; [by vm_compute|]. split; [by vm_compute|].
  apply BinomialProofs.binomial_drain_12.
Qed.

(** ** Operations on an empty structure *)

(** C4. On an empty instance [heap_peek], [heap_pop], [leftist_find_min],
    [leftist_delete_min], [skew_find_min], [skew_delete_min] and
    [binomial_find_min] stop at their [assert]; [binomial_delete_min] has
    no such check and reads [n->sibling] through the [NULL] head. *)
Theorem empty_structure_operations
    (h : ArrayHeap.BinaryHeap) (sl : Leftist.store) (ss : Skew.store)
    (sb : Binomial.store) (fuel : nat) :
  ArrayHeap.size h = 0 →
  ArrayHeap.heap_peek h = Abort
  ∧ ArrayHeap.heap_pop h = Abort
  ∧ Leftist.leftist_find_min sl NULL = Abort
  ∧ Leftist.leftist_delete_min fuel sl NULL = Abort
  ∧ Skew.skew_find_min ss NULL = Abort
  ∧ Skew.skew_delete_min fuel ss NULL = Abort
  ∧ Binomial.binomial_find_min fuel sb Binomial.binomial_create = Abort
  ∧ Binomial.binomial_delete_min fuel sb Binomial.binomial_create = Fault.
Proof.
  intros Hsz. split_and!; try done.
  - by apply ArrayHeapProofs.heap_peek_empty.
  - by apply ArrayHeapProofs.heap_pop_empty.
  - apply BinomialProofs.binomial_delete_min_empty.
Qed.

Lemma empty_structure_operations_witness :
  ArrayHeap.heap_pop (ArrayHeap.mkHeap [0; 0; 0; 0]%Z 0 4 true) = Abort
  ∧ Binomial.binomial_delete_min 5 ∅ Binomial.binomial_create = Fault.
Proof.
  pose proof (empty_structure_operations
                (ArrayHeap.mkHeap [0; 0; 0; 0]%Z 0 4 true) ∅ ∅ ∅ 5 eq_refl)
    as (_ & H1 & _ & _ & _ & _ & _ & H2).
  exact (conj H1 H2).
Defined.

(** ** Leftist heaps: the null-path-length invariant *)

(** C6. If [a] and [b] are separate leftist heaps in which every node
    stores [1 + min (npl left) (npl right)] (with [-1] for an absent
    child) and has [npl left >= npl right], then [leftist_merge],
    [leftist_insert] and [leftist_delete_min] return, and the heap they
    return has the same two properties at every node. *)
Theorem leftist_npl_invariant
    (fuel : nat) (s : Leftist.store) (a b : ptr) (k : Z)
    (ta tb : PtrTree.tree (Z * Z)) (Fa Fb : gset addr) :
  LeftistProofs.rep s a ta Fa → LeftistProofs.rep s b tb Fb → Fa ## Fb →
  LeftistProofs.leftist ta → LeftistProofs.leftist tb →
  PtrTree.size ta + PtrTree.size tb + 1 ≤ fuel →
  (∃ s' r t,
     Leftist.leftist_merge fuel s a b = Ok (s', r)
     ∧ LeftistProofs.rep s' r t (Fa ∪ Fb) ∧ LeftistProofs.leftist t)
  ∧ (∃ s' r t F,
       Leftist.leftist_insert fuel s a k = Ok (s', r)
       ∧ LeftistProofs.rep s' r t F ∧ LeftistProofs.leftist t)
  ∧ (a ≠ NULL →
     ∃ s' r t F,
       Leftist.leftist_delete_min fuel s a = Ok (s', r)
       ∧ LeftistProofs.rep s' r t F ∧ LeftistProofs.leftist t).
Proof.
  intros Ha Hb Hd La Lb Hsz. split_and!.
  - destruct (LeftistProofs.leftist_merge_spec fuel s a b ta tb Fa Fb)
      as (s' & r & t & Hm & Hmg & Hr & _); [done..|lia|].
    exists s', r, t. split; [done|]. split; [done|].
    by eapply LeftistProofs.leftist_merged_leftist.
  - destruct (LeftistProofs.leftist_insert_spec fuel s a ta Fa k Ha)
      as (s' & r & t & Hm & Hmg & Hr & _); [lia|].
    eexists s', r, t, _. split; [done|]. split; [done|].
    eapply LeftistProofs.leftist_merged_leftist; [done..|]. simpl. done.
  - intros Hnz. destruct a as [a|]; [|done].
    destruct ta as [|l x r]; [inversion Ha|]. simpl in Hsz.
    destruct (LeftistProofs.leftist_delete_min_spec fuel s a l x r Fa Ha)
      as (s' & p & t & Hm & Hmg & Hr & _); [lia|].
    destruct La as (_ & _ & Ll & Lr).
    eexists s', p, t, _. split; [done|]. split; [done|].
    by eapply LeftistProofs.leftist_merged_leftist.
Qed.

Definition leftist_two_nodes : Leftist.store :=
  <[1 := Leftist.mkNode 2 0 NULL NULL]> (<[0 := Leftist.mkNode 1 0 NULL NULL]> ∅).

Lemma leftist_two_nodes_rep a k :
  leftist_two_nodes !! a = Some (Leftist.mkNode k 0 NULL NULL) →
  LeftistProofs.rep leftist_two_nodes (Some a)
    (PtrTree.Node PtrTree.Leaf (k, 0%Z) PtrTree.Leaf) ({[a]} ∪ ∅ ∪ ∅).
Proof.
  intros H.
  apply (PtrTree.rep_node Leftist.left Leftist.right LeftistProofs.label _ a
           (Leftist.mkNode k 0 NULL NULL) PtrTree.Leaf PtrTree.Leaf ∅ ∅);
    [done | constructor | constructor | set_solver..].
Qed.

Lemma leftist_npl_invariant_witness :
  ∃ s' r t,
    Leftist.leftist_merge 3 leftist_two_nodes (Some 0) (Some 1) = Ok (s', r)
    ∧ LeftistProofs.rep s' r t (({[0]} ∪ ∅ ∪ ∅) ∪ ({[1]} ∪ ∅ ∪ ∅))
    ∧ LeftistProofs.leftist t.
Proof.
  refine (proj1 (leftist_npl_invariant 3 leftist_two_nodes (Some 0) (Some 1) 7%Z
            _ _ _ _ (leftist_two_nodes_rep 0 1%Z eq_refl)
            (leftist_two_nodes_rep 1 2%Z eq_refl) _ _ _ _)).
  - set_solver.
  - simpl. split_and!; done.
  - simpl. split_and!; done.
  - simpl. lia.
Defined.

(** ** Treaps: split *)

(** C7. For a valid treap [t] (BST-ordered by key, max-heap-ordered by
    priority) and a key [k], [treap_split] returns two trees: every key of
    the first is smaller than [k], every key of the second is at least
    [k], together they hold exactly the keys of [t], and both are valid
    treaps again. *)
Theorem treap_split_spec (t : Treap.TreapNode) (k : Z) :
  TreapProofs.valid_treap t →
  Forall (λ x, (x < k)%Z) (Treap.treap_inorder (Treap.treap_split t k).1)
  ∧ Forall (λ x, (k <= x)%Z) (Treap.treap_inorder (Treap.treap_split t k).2)
  ∧ Treap.treap_inorder (Treap.treap_split t k).1
    ++ Treap.treap_inorder (Treap.treap_split t k).2
    ≡ₚ Treap.treap_inorder t
  ∧ TreapProofs.valid_treap (Treap.treap_split t k).1
  ∧ TreapProofs.valid_treap (Treap.treap_split t k).2.
Proof.
  intros [Hb Hm].
  pose proof (TreapProofs.treap_split_inorder t k) as Heq.
  apply TreapProofs.treap_bst_ordered_sorted in Hb.
  destruct (TreapProofs.treap_split_bounds t k (TreapProofs.sorted_lt_le _ Hb))
    as [H1 H2].
  destruct (TreapProofs.treap_split_max_heap t k Hm) as (M1 & M2 & _).
  rewrite <- Heq in Hb. apply StronglySorted_app in Hb as (_ & S1 & S2).
  split_and!; try done.
  - by rewrite Heq.
  - split; [by apply TreapProofs.treap_bst_ordered_sorted | done].
  - split; [by apply TreapProofs.treap_bst_ordered_sorted | done].
Qed.

Lemma treap_split_spec_witness :
  Treap.treap_split
    (Treap.Node (Treap.Node Treap.Leaf 2 3 Treap.Leaf) 5 10
                (Treap.Node Treap.Leaf 8 7 Treap.Leaf)) 5
  = (Treap.Node Treap.Leaf 2 3 Treap.Leaf,
     Treap.Node Treap.Leaf 5 10 (Treap.Node Treap.Leaf 8 7 Treap.Leaf))
  ∧ Forall (λ x, (x < 5)%Z) [2%Z].
Proof.
  split; [reflexivity|].
  refine (proj1 (treap_split_spec
            (Treap.Node (Treap.Node Treap.Leaf 2 3 Treap.Leaf) 5 10
                        (Treap.Node Treap.Leaf 8 7 Treap.Leaf)) 5 _)).
  split; simpl.
  - split_and!; try done; repeat constructor.
  - split_and!; try done; lia.
Defined.

(** ** Array heaps: merging opposite orderings *)

(** C8. [heap_merge] and [heap_merge_destroy], called on two heaps of
    which one is a min-heap and the other a max-heap, stop at the
    assertion "Heaps must be of same type to merge"; no heap is returned. *)
Theorem heap_merge_opposite_orderings_abort
    (s : ArrayHeap.store) (a b : addr) (ha hb : ArrayHeap.BinaryHeap) :
  s !! a = Some ha → s !! b = Some hb →
  ArrayHeap.is_min ha ≠ ArrayHeap.is_min hb →
  ArrayHeap.heap_merge s (Some a) (Some b) = Abort
  ∧ ArrayHeap.heap_merge_destroy s (Some a) (Some b) = Abort.
Proof.
  intros Ha Hb Hne. split.
  - by eapply ArrayHeapProofs.heap_merge_mismatch.
  - by eapply ArrayHeapProofs.heap_merge_destroy_mismatch.
Qed.

Definition min_and_max_heap : ArrayHeap.store :=
  <[1 := ArrayHeap.mkHeap [9; 4]%Z 2 2 false]>
    (<[0 := ArrayHeap.mkHeap [1; 3]%Z 2 2 true]> ∅).

Lemma heap_merge_opposite_orderings_abort_witness :
  ArrayHeap.heap_merge min_and_max_heap (Some 0) (Some 1) = Abort
  ∧ ArrayHeap.heap_merge_destroy min_and_max_heap (Some 0) (Some 1) = Abort.
Proof.
  apply (heap_merge_opposite_orderings_abort min_and_max_heap 0 1
           (ArrayHeap.mkHeap [1; 3]%Z 2 2 true)
           (ArrayHeap.mkHeap [9; 4]%Z 2 2 false)).
  - reflexivity.
  - reflexivity.
  - simpl. discriminate.
Defined.

(** ** Merges that keep their arguments *)

(** C9. [heap_merge] leaves every heap object that exists before the call
    as it is (buffer, size, capacity and ordering flag) and returns a new
    object.  [leftist_merge_persistent] and [skew_merge_persistent] leave
    the trees of [a] and [b] as they are, node for node (keys, shape and,
    for leftist heaps, npl fields), and the tree they return occupies
    addresses that are disjoint from those of [a] and of [b]. *)
Theorem persistent_merge_preserves_inputs
    (fuel : nat)
    (sh : ArrayHeap.store) (ha hb : ptr)
    (sl : Leftist.store) (la lb : ptr) (tla tlb : PtrTree.tree (Z * Z))
    (Fla Flb : gset addr)
    (ss : Skew.store) (sa sb : ptr) (tsa tsb : PtrTree.tree Z)
    (Fsa Fsb : gset addr) :
  LeftistProofs.rep sl la tla Fla → LeftistProofs.rep sl lb tlb Flb →
  SkewProofs.rep ss sa tsa Fsa → SkewProofs.rep ss sb tsb Fsb →
  PtrTree.size tla + PtrTree.size tlb ≤ fuel →
  PtrTree.size tsa + PtrTree.size tsb ≤ fuel →
  (∀ sh' r,
     ArrayHeap.heap_merge sh ha hb = Ok (sh', r) →
     (∀ q h, sh !! q = Some h → sh' !! q = Some h)
     ∧ (r = NULL ∨ ∃ c, r = Some c ∧ (c ∉ dom sh) ∧ is_Some (sh' !! c)))
  ∧ (∃ sl' r t F,
       Leftist.leftist_merge_persistent fuel sl la lb = Ok (sl', r)
       ∧ LeftistProofs.rep sl' la tla Fla ∧ LeftistProofs.rep sl' lb tlb Flb
       ∧ LeftistProofs.rep sl' r t F ∧ F ## Fla ∧ F ## Flb)
  ∧ (∃ ss' r t F,
       Skew.skew_merge_persistent fuel ss sa sb = Ok (ss', r)
       ∧ SkewProofs.rep ss' sa tsa Fsa ∧ SkewProofs.rep ss' sb tsb Fsb
       ∧ SkewProofs.rep ss' r t F ∧ F ## Fsa ∧ F ## Fsb).
Proof.
  intros Hla Hlb Hsa Hsb Hl Hs. split_and!.
  - intros sh' r [Hfr Hr]%ArrayHeapProofs.heap_merge_frame. split; [|done].
    intros q h Hq. rewrite Hfr; [done|]. apply elem_of_dom. eauto.
  - destruct (LeftistProofs.leftist_merge_persistent_spec fuel sl la lb tla tlb Fla Flb)
      as (sl' & r & t & F & Hm & _ & Hr & Hd & Hfr); [done..|].
    pose proof (PtrTree.rep_dom _ _ _ _ _ _ _ Hla).
    pose proof (PtrTree.rep_dom _ _ _ _ _ _ _ Hlb).
    exists sl', r, t, F. split_and!; try done.
    + eapply PtrTree.rep_frame; [done|]. intros q Hq. apply Hfr. set_solver.
    + eapply PtrTree.rep_frame; [done|]. intros q Hq. apply Hfr. set_solver.
    + set_solver.
    + set_solver.
  - destruct (SkewProofs.skew_merge_persistent_spec fuel ss sa sb tsa tsb Fsa Fsb)
      as (ss' & r & t & F & Hm & _ & Hr & Hd & Hfr); [done..|].
    pose proof (PtrTree.rep_dom _ _ _ _ _ _ _ Hsa).
    pose proof (PtrTree.rep_dom _ _ _ _ _ _ _ Hsb).
    exists ss', r, t, F. split_and!; try done.
    + eapply PtrTree.rep_frame; [done|]. intros q Hq. apply Hfr. set_solver.
    + eapply PtrTree.rep_frame; [done|]. intros q Hq. apply Hfr. set_solver.
    + set_solver.
    + set_solver.
Qed.

Definition skew_two_nodes : Skew.store :=
  <[1 := Skew.mkNode 2 NULL NULL]> (<[0 := Skew.mkNode 1 NULL NULL]> ∅).

Lemma skew_two_nodes_rep a k :
  skew_two_nodes !! a = Some (Skew.mkNode k NULL NULL) →
  SkewProofs.rep skew_two_nodes (Some a)
    (PtrTree.Node PtrTree.Leaf k PtrTree.Leaf) ({[a]} ∪ ∅ ∪ ∅).
Proof.
  intros H.
  apply (PtrTree.rep_node Skew.left Skew.right Skew.key _ a
           (Skew.mkNode k NULL NULL) PtrTree.Leaf PtrTree.Leaf ∅ ∅);
    [done | constructor | constructor | set_solver..].
Qed.

Lemma persistent_merge_preserves_inputs_witness :
  ∃ ss' r t F,
    Skew.skew_merge_persistent 2 skew_two_nodes (Some 0) (Some 1) = Ok (ss', r)
    ∧ SkewProofs.rep ss' (Some 0)
        (PtrTree.Node PtrTree.Leaf 1%Z PtrTree.Leaf) ({[0]} ∪ ∅ ∪ ∅)
    ∧ SkewProofs.rep ss' (Some 1)
        (PtrTree.Node PtrTree.Leaf 2%Z PtrTree.Leaf) ({[1]} ∪ ∅ ∪ ∅)
    ∧ SkewProofs.rep ss' r t F
    ∧ F ## {[0]} ∪ ∅ ∪ ∅ ∧ F ## {[1]} ∪ ∅ ∪ ∅.
Proof.
  refine (proj2 (proj2 (persistent_merge_preserves_inputs 2
            min_and_max_heap (Some 0) (Some 1)
            leftist_two_nodes (Some 0) (Some 1) _ _ _ _
            skew_two_nodes (Some 0) (Some 1) _ _ _ _
            (leftist_two_nodes_rep 0 1%Z eq_refl)
            (leftist_two_nodes_rep 1 2%Z eq_refl)
            (skew_two_nodes_rep 0 1%Z eq_refl)
            (skew_two_nodes_rep 1 2%Z eq_refl) _ _))); simpl; lia.
Defined.

(** ** Binary search trees: the two searches *)

(** C10. On every tree, [bst_search_recursive] and [bst_search_iterative]
    return, and they return the same pointer: either [NULL], or a node of
    the tree that holds the key.  They return [NULL] when the key is not
    in the tree, and on a binary search tree they find every key that is
    in it. *)
Theorem bst_search_recursive_iterative_agree
    (fuel : nat) (s : BST.store) (root : ptr) (t : PtrTree.tree Z)
    (F : gset addr) (k : Z) :
  BSTProofs.rep s root t F → PtrTree.height t ≤ fuel →
  ∃ r,
    BST.bst_search_recursive fuel s root k = Ok r
    ∧ BST.bst_search_iterative fuel s root k = Ok r
    ∧ (r = NULL ∨ ∃ a n, r = Some a ∧ a ∈ F ∧ s !! a = Some n ∧ BST.key n = k)
    ∧ (k ∉ PtrTree.inorder t → r = NULL)
    ∧ (BSTProofs.bst_ordered t → k ∈ PtrTree.inorder t → r ≠ NULL).
Proof.
  intros Hr Hh.
  destruct (BSTProofs.bst_search_recursive_spec fuel s root t F k Hr Hh)
    as (r & Hs & Hres & Hin).
  exists r. split; [done|]. split; [by rewrite <- BSTProofs.bst_search_equiv|].
  split; [done|]. split; [|done].
  intros Hk. destruct Hres as [?|(a & n & -> & Ha & Hn & <-)]; [done|].
  exfalso. apply Hk. by eapply BSTProofs.rep_key_elem_of.
Qed.

Definition bst_two_nodes : BST.store :=
  <[1 := BST.mkNode 30 NULL NULL]> (<[0 := BST.mkNode 50 (Some 1) NULL]> ∅).

Lemma bst_two_nodes_rep :
  BSTProofs.rep bst_two_nodes (Some 0)
    (PtrTree.Node (PtrTree.Node PtrTree.Leaf 30%Z PtrTree.Leaf) 50%Z PtrTree.Leaf)
    ({[0]} ∪ ({[1]} ∪ ∅ ∪ ∅) ∪ ∅).
Proof.
  apply (PtrTree.rep_node BST.left BST.right BST.key _ 0
           (BST.mkNode 50 (Some 1) NULL) _ PtrTree.Leaf _ ∅);
    [done | | constructor | set_solver..].
  apply (PtrTree.rep_node BST.left BST.right BST.key _ 1
           (BST.mkNode 30 NULL NULL) PtrTree.Leaf PtrTree.Leaf ∅ ∅);
    [done | constructor | constructor | set_solver..].
Qed.

Lemma bst_search_recursive_iterative_agree_witness :
  ∃ r,
    BST.bst_search_recursive 2 bst_two_nodes (Some 0) 30 = Ok r
    ∧ BST.bst_search_iterative 2 bst_two_nodes (Some 0) 30 = Ok r
    ∧ (r = NULL ∨ ∃ a n, r = Some a ∧ a ∈ ({[0]} ∪ ({[1]} ∪ ∅ ∪ ∅) ∪ ∅ : gset addr)
                         ∧ bst_two_nodes !! a = Some n ∧ BST.key n = 30%Z)
    ∧ (30%Z ∉ [30; 50]%Z → r = NULL)
    ∧ (BSTProofs.bst_ordered
         (PtrTree.Node (PtrTree.Node PtrTree.Leaf 30%Z PtrTree.Leaf) 50%Z PtrTree.Leaf)
       → 30%Z ∈ [30; 50]%Z → r ≠ NULL).
Proof.
  apply (bst_search_recursive_iterative_agree 2 bst_two_nodes (Some 0) _ _ 30
           bst_two_nodes_rep).
  simpl. lia.
Defined.

(** ** In-order traversals after insertions and deletions *)

(** The in-order sequences that the operations produce.  Starting from
    the empty tree, after any sequence of [bst_insert] and [bst_delete]
    calls (repeated keys included) [bst_inorder] visits a strictly
    ascending sequence of keys.  Starting from the empty treap, after any
    sequence of [treap_insert] and [treap_remove] calls [treap_inorder]
    visits a non-decreasing sequence of keys, and a strictly ascending one
    when no [treap_insert] is given a key that the treap holds at that
    moment. *)
Theorem inorder_after_operations
    (fuel : nat) (bops : list BSTProofs.op) (tops : list TreapProofs.op) :
  length bops ≤ fuel →
  (∃ s r ks,
     BSTProofs.bst_run fuel bops (∅, NULL) = Ok (s, r)
     ∧ BST.bst_inorder fuel s r = Ok ks ∧ StronglySorted Z.lt ks)
  ∧ StronglySorted Z.le
      (Treap.treap_inorder (TreapProofs.treap_run tops Treap.Leaf))
  ∧ (TreapProofs.inserts_absent_keys tops Treap.Leaf →
     StronglySorted Z.lt
       (Treap.treap_inorder (TreapProofs.treap_run tops Treap.Leaf))).
Proof.
  intros Hf. split_and!.
  - destruct (BSTProofs.bst_run_spec fuel bops ∅ NULL PtrTree.Leaf ∅)
      as (s & r & t & F & Hrun & Hr & Hb & Hsz); [constructor|done|simpl; lia|].
    exists s, r, (PtrTree.inorder t). split; [done|]. split.
    + apply (BSTProofs.bst_inorder_spec _ _ _ _ _ Hr).
      pose proof (PtrTree.height_le_size t). simpl in Hsz. lia.
    + by apply BSTProofs.bst_ordered_sorted.
  - apply TreapProofs.treap_run_sorted_le. constructor.
  - intros H. apply TreapProofs.treap_run_sorted_lt; [done|constructor].
Qed.

Lemma inorder_after_operations_witness :
  ∃ s r ks,
    BSTProofs.bst_run 3
      [BSTProofs.Insert 5; BSTProofs.Insert 5; BSTProofs.Delete 7] (∅, NULL)
    = Ok (s, r)
    ∧ BST.bst_inorder 3 s r = Ok ks ∧ StronglySorted Z.lt ks.
Proof.
  refine (proj1 (inorder_after_operations 3
            [BSTProofs.Insert 5; BSTProofs.Insert 5; BSTProofs.Delete 7]
            [TreapProofs.Insert 5 1; TreapProofs.Insert 5 2] _)).
  simpl. lia.
Defined.

(** C3.  [treap_insert] does not look for the key.  Inserting 5 into the
    valid treap that holds 5 splits it into the empty treap and the treap
    itself (the keys >= 5 go to the right part) and then merges the new
    node 5 with that right part, although [treap_merge] requires every
    key of its first argument to be smaller than every key of its second.
    The result holds the key twice: the in-order sequence 5, 5 is not
    strictly ascending, and the treap is no search tree any more. *)
Lemma treap_insert_duplicate_not_strictly_ascending :
  TreapProofs.valid_treap (TreapProofs.treap_run [TreapProofs.Insert 5 1] Treap.Leaf)
  ∧ Treap.treap_split
      (TreapProofs.treap_run [TreapProofs.Insert 5 1] Treap.Leaf) 5
    = (Treap.Leaf, TreapProofs.treap_run [TreapProofs.Insert 5 1] Treap.Leaf)
  ∧ Treap.treap_inorder
      (TreapProofs.treap_run [TreapProofs.Insert 5 1; TreapProofs.Insert 5 2]
         Treap.Leaf) = [5; 5]%Z
  ∧ ¬ StronglySorted Z.lt
        (Treap.treap_inorder
           (TreapProofs.treap_run [TreapProofs.Insert 5 1; TreapProofs.Insert 5 2]
              Treap.Leaf))
  ∧ ¬ TreapProofs.valid_treap
        (TreapProofs.treap_run [TreapProofs.Insert 5 1; TreapProofs.Insert 5 2]
           Treap.Leaf).
Proof.
  assert (E : Treap.treap_inorder
                (TreapProofs.treap_run
                   [TreapProofs.Insert 5 1; TreapProofs.Insert 5 2] Treap.Leaf)
              = [5; 5]%Z) by reflexivity.
  assert (N : ¬ StronglySorted Z.lt
                  (Treap.treap_inorder
                     (TreapProofs.treap_run
                        [TreapProofs.Insert 5 1; TreapProofs.Insert 5 2] Treap.Leaf))).
  { rewrite E. intros H.
    apply StronglySorted_cons in H as [H _]. apply Forall_cons in H as [H _]. lia. }
  split; [split; simpl; split_and!; done|]. split; [reflexivity|].
  split; [exact E|]. split; [exact N|].
  intros [Hb _]. apply N. by apply TreapProofs.treap_bst_ordered_sorted.
Qed.

(** * Further properties of the operations *)

(** ** Array heaps ([binary_heap.c]) *)

(** A min-heap with two elements whose buffer is full, and a store with
    two such heaps. *)
Definition min_heap_1_3 : ArrayHeap.BinaryHeap := ArrayHeap.mkHeap [1; 3]%Z 2 2 true.
Definition min_heap_2_4 : ArrayHeap.BinaryHeap := ArrayHeap.mkHeap [2; 4]%Z 2 2 true.

Definition two_min_heaps : ArrayHeap.store :=
  <[1 := min_heap_2_4]> (<[0 := min_heap_1_3]> ∅).

Lemma min_heap_1_3_is_heap : ArrayHeapProofs.is_heap min_heap_1_3.
Proof.
  split; [split; simpl; [done|lia]|].
  intros i _ c Hc Hlt. unfold ArrayHeap.LEFT, ArrayHeap.RIGHT in Hc.
  unfold min_heap_1_3 in *. cbn [ArrayHeap.size] in Hlt.
  assert (i = 0 ∧ c = 1) as [-> ->] by lia.
  unfold ArrayHeapProofs.heap_le, ArrayHeapProofs.cell. simpl. lia.
Qed.

Lemma min_heap_1_3_wf : ArrayHeapProofs.wf min_heap_1_3.
Proof. split; simpl; [done|lia]. Qed.

Lemma min_heap_2_4_wf : ArrayHeapProofs.wf min_heap_2_4.
Proof. split; simpl; [done|lia]. Qed.



(** X2. On a heap that is not empty [heap_peek] and [heap_pop] return the
    same value [x]; it is an element of the heap and no element is
    preferred to it (none is smaller in a min-heap, none is larger in a
    max-heap).  [heap_pop] leaves a heap with the other elements. *)
Theorem heap_pop_returns_best (h : ArrayHeap.BinaryHeap) :
  ArrayHeapProofs.is_heap h → 0 < ArrayHeap.size h →
  ∃ x h',
    ArrayHeap.heap_peek h = Ok x
    ∧ ArrayHeap.heap_pop h = Ok (x, h')
    ∧ ArrayHeapProofs.is_heap h'
    ∧ ArrayHeap.is_min h' = ArrayHeap.is_min h
    ∧ ArrayHeap.size h' = ArrayHeap.size h - 1
    ∧ ArrayHeapProofs.contents h ≡ₚ x :: ArrayHeapProofs.contents h'
    ∧ Forall (λ y, if ArrayHeap.is_min h then (x <= y)%Z else (y <= x)%Z)
        (ArrayHeapProofs.contents h).
Proof.
  intros Hh Hpos.
  destruct (ArrayHeapProofs.heap_pop_spec h Hh Hpos)
    as (x & h' & Hp & Hh' & Hs & Hm & Hc & Hbest).
  exists x, h'. split; [by eapply ArrayHeapProofs.heap_pop_peek|].
  split_and!; done.
Qed.

Lemma heap_pop_returns_best_witness :
  ∃ x h',
    ArrayHeap.heap_peek min_heap_1_3 = Ok x
    ∧ ArrayHeap.heap_pop min_heap_1_3 = Ok (x, h')
    ∧ ArrayHeapProofs.is_heap h'
    ∧ ArrayHeap.is_min h' = true
    ∧ ArrayHeap.size h' = 1
    ∧ [1; 3]%Z ≡ₚ x :: ArrayHeapProofs.contents h'
    ∧ Forall (λ y, (x <= y)%Z) [1; 3]%Z.
Proof.
  apply (heap_pop_returns_best min_heap_1_3); [exact min_heap_1_3_is_heap|].
  simpl. lia.
Defined.

(** X3. [heap_build_from_array] on an array with at least [n] cells
    allocates a new heap object and leaves the existing ones alone; the
    object is a heap of the requested ordering whose [n] elements are the
    first [n] cells of the array. *)
Theorem heap_build_from_array_heapifies
    (s : ArrayHeap.store) (arr : list Z) (n : nat) (is_min : bool) :
  n ≤ length arr →
  ∃ c h,
    ArrayHeap.heap_build_from_array s arr n is_min = Ok (<[c := h]> s, Some c)
    ∧ (c ∉ dom s)
    ∧ ArrayHeapProofs.is_heap h
    ∧ ArrayHeap.size h = n
    ∧ ArrayHeap.is_min h = is_min
    ∧ ArrayHeapProofs.contents h ≡ₚ take n arr.
Proof. apply ArrayHeapProofs.heap_build_from_array_spec. Qed.

Lemma heap_build_from_array_heapifies_witness :
  ∃ c h,
    ArrayHeap.heap_build_from_array ∅ [5; 3; 8; 1; 9; 2; 7]%Z 7 false
    = Ok (<[c := h]> ∅, Some c)
    ∧ (c ∉ dom (∅ : ArrayHeap.store))
    ∧ ArrayHeapProofs.is_heap h
    ∧ ArrayHeap.size h = 7
    ∧ ArrayHeap.is_min h = false
    ∧ ArrayHeapProofs.contents h ≡ₚ [5; 3; 8; 1; 9; 2; 7]%Z.
Proof.
  apply (heap_build_from_array_heapifies ∅ [5; 3; 8; 1; 9; 2; 7]%Z 7 false).
  simpl. lia.
Defined.



(** X5. With [NULL] for both arguments [heap_merge] and
    [heap_merge_destroy] return [NULL] and allocate nothing.  With [NULL]
    for one argument they return a new heap object with the elements and
    the ordering of the other argument; [heap_merge] leaves that argument
    as it is, [heap_merge_destroy] frees it. *)
Theorem heap_merge_null_argument
    (s : ArrayHeap.store) (a : addr) (ha : ArrayHeap.BinaryHeap) :
  s !! a = Some ha → ArrayHeapProofs.wf ha →
  ArrayHeap.heap_merge s NULL NULL = Ok (s, NULL)
  ∧ (∃ c hc,
       ArrayHeap.heap_merge s (Some a) NULL = Ok (<[c := hc]> s, Some c)
       ∧ (c ∉ dom s) ∧ ArrayHeapProofs.is_heap hc
       ∧ ArrayHeap.size hc = ArrayHeap.size ha
       ∧ ArrayHeap.is_min hc = ArrayHeap.is_min ha
       ∧ ArrayHeapProofs.contents hc ≡ₚ ArrayHeapProofs.contents ha)
  ∧ (∃ c hc,
       ArrayHeap.heap_merge s NULL (Some a) = Ok (<[c := hc]> s, Some c)
       ∧ (c ∉ dom s) ∧ ArrayHeapProofs.is_heap hc
       ∧ ArrayHeap.size hc = ArrayHeap.size ha
       ∧ ArrayHeap.is_min hc = ArrayHeap.is_min ha
       ∧ ArrayHeapProofs.contents hc ≡ₚ ArrayHeapProofs.contents ha)
  ∧ ArrayHeap.heap_merge_destroy s NULL NULL = Ok (s, NULL)
  ∧ (∃ c hc,
       ArrayHeap.heap_merge_destroy s (Some a) NULL
       = Ok (delete a (<[c := hc]> s), Some c)
       ∧ (c ∉ dom s) ∧ ArrayHeapProofs.is_heap hc
       ∧ ArrayHeap.size hc = ArrayHeap.size ha
       ∧ ArrayHeap.is_min hc = ArrayHeap.is_min ha
       ∧ ArrayHeapProofs.contents hc ≡ₚ ArrayHeapProofs.contents ha)
  ∧ (∃ c hc,
       ArrayHeap.heap_merge_destroy s NULL (Some a)
       = Ok (delete a (<[c := hc]> s), Some c)
       ∧ (c ∉ dom s) ∧ ArrayHeapProofs.is_heap hc
       ∧ ArrayHeap.size hc = ArrayHeap.size ha
       ∧ ArrayHeap.is_min hc = ArrayHeap.is_min ha
       ∧ ArrayHeapProofs.contents hc ≡ₚ ArrayHeapProofs.contents ha).
Proof.
  intros Ha Hwa. split; [done|]. split_and!.
  - by apply ArrayHeapProofs.heap_merge_null_r.
  - by apply ArrayHeapProofs.heap_merge_null_l.
  - done.
  - by apply ArrayHeapProofs.heap_merge_destroy_null_r.
  - by apply ArrayHeapProofs.heap_merge_destroy_null_l.
Qed.

Lemma heap_merge_null_argument_witness :
  ∃ c hc,
    ArrayHeap.heap_merge two_min_heaps NULL (Some 1)
    = Ok (<[c := hc]> two_min_heaps, Some c)
    ∧ (c ∉ dom two_min_heaps) ∧ ArrayHeapProofs.is_heap hc
    ∧ ArrayHeap.size hc = 2
    ∧ ArrayHeap.is_min hc = true
    ∧ ArrayHeapProofs.contents hc ≡ₚ [2; 4]%Z.
Proof.
  refine (proj1 (proj2 (proj2
            (heap_merge_null_argument two_min_heaps 1 min_heap_2_4 _ _)))).
  - reflexivity.
  - exact min_heap_2_4_wf.
Defined.

(** X6. [heap_merge_destroy] of two different heap objects of one
    ordering returns a new heap with the elements of both and frees the
    two arguments; every other object is left as it is.  Called with the
    same object for both arguments it frees that object twice. *)
Theorem heap_merge_destroy_frees_inputs
    (s : ArrayHeap.store) (a b : addr) (ha hb : ArrayHeap.BinaryHeap) :
  s !! a = Some ha → s !! b = Some hb →
  ArrayHeapProofs.wf ha → ArrayHeapProofs.wf hb →
  ArrayHeap.is_min ha = ArrayHeap.is_min hb →
  (a = b → ArrayHeap.heap_merge_destroy s (Some a) (Some b) = Fault)
  ∧ (a ≠ b →
     ∃ s' c hc,
       ArrayHeap.heap_merge_destroy s (Some a) (Some b) = Ok (s', Some c)
       ∧ (c ∉ dom s) ∧ s' !! c = Some hc ∧ s' !! a = None ∧ s' !! b = None
       ∧ (∀ q, q ≠ a → q ≠ b → q ≠ c → s' !! q = s !! q)
       ∧ ArrayHeapProofs.is_heap hc
       ∧ ArrayHeap.is_min hc = ArrayHeap.is_min ha
       ∧ ArrayHeap.size hc = ArrayHeap.size ha + ArrayHeap.size hb
       ∧ ArrayHeapProofs.contents hc
         ≡ₚ ArrayHeapProofs.contents ha ++ ArrayHeapProofs.contents hb).
Proof.
  intros Ha Hb Hwa Hwb Hm. split.
  - intros <-. by eapply ArrayHeapProofs.heap_merge_destroy_same.
  - intros Hab.
    destruct (ArrayHeapProofs.heap_merge_destroy_spec s a b ha hb Ha Hb Hab Hwa Hwb Hm)
      as (c & hc & _ & Hd & Hc & Hh & Hmc & Hsz & Hp).
    assert (a ≠ c) by (intros ->; apply Hc, elem_of_dom; eauto).
    assert (b ≠ c) by (intros ->; apply Hc, elem_of_dom; eauto).
    eexists _, c, hc. split; [exact Hd|]. split; [done|]. split_and!; try done.
    + rewrite !lookup_delete_ne by done. apply lookup_insert_eq.
    + rewrite lookup_delete_ne by done. apply lookup_delete_eq.
    + apply lookup_delete_eq.
    + intros q Hqa Hqb Hqc. by rewrite !lookup_delete_ne, lookup_insert_ne.
Qed.

Lemma heap_merge_destroy_frees_inputs_witness :
  ArrayHeap.heap_merge_destroy two_min_heaps (Some 0) (Some 0) = Fault
  ∧ ∃ s' c hc,
      ArrayHeap.heap_merge_destroy two_min_heaps (Some 0) (Some 1) = Ok (s', Some c)
      ∧ (c ∉ dom two_min_heaps) ∧ s' !! c = Some hc
      ∧ s' !! 0 = None ∧ s' !! 1 = None
      ∧ (∀ q, q ≠ 0 → q ≠ 1 → q ≠ c → s' !! q = two_min_heaps !! q)
      ∧ ArrayHeapProofs.is_heap hc
      ∧ ArrayHeap.is_min hc = true
      ∧ ArrayHeap.size hc = 4
      ∧ ArrayHeapProofs.contents hc ≡ₚ [1; 3; 2; 4]%Z.
Proof.
  split.
  - refine (proj1 (heap_merge_destroy_frees_inputs two_min_heaps 0 0
              min_heap_1_3 min_heap_1_3 _ _ _ _ _) _);
      [reflexivity | reflexivity | exact min_heap_1_3_wf | exact min_heap_1_3_wf
      | reflexivity | reflexivity].
  - refine (proj2 (heap_merge_destroy_frees_inputs two_min_heaps 0 1
              min_heap_1_3 min_heap_2_4 _ _ _ _ _) _);
      [reflexivity | reflexivity | exact min_heap_1_3_wf | exact min_heap_2_4_wf
      | reflexivity | lia].
Defined.

(** X7. [print_pop_sequence] on a heap prints all its elements, in
    non-decreasing order for a min-heap and in non-increasing order for a
    max-heap. *)
Theorem print_pop_sequence_sorted (h : ArrayHeap.BinaryHeap) :
  ArrayHeapProofs.is_heap h →
  ∃ ks,
    ArrayHeap.print_pop_sequence h = Ok ks
    ∧ StronglySorted (if ArrayHeap.is_min h then Z.le else Z.ge) ks
    ∧ ks ≡ₚ ArrayHeapProofs.contents h.
Proof. apply ArrayHeapProofs.print_pop_sequence_spec. Qed.

Lemma print_pop_sequence_sorted_witness :
  ∃ ks,
    ArrayHeap.print_pop_sequence min_heap_1_3 = Ok ks
    ∧ StronglySorted Z.le ks ∧ ks ≡ₚ [1; 3]%Z.
Proof. apply (print_pop_sequence_sorted min_heap_1_3 min_heap_1_3_is_heap). Defined.



(** ** Leftist heaps ([leftist_heap.c]) *)

(** X9. [leftist_merge] of two separate heap-ordered trees returns a
    heap-ordered tree that is made of the nodes of both (it allocates and
    frees nothing) and holds the keys of both;
    [leftist_merge_persistent] returns the same tree in newly allocated
    nodes.  [leftist_insert] allocates one node and returns a heap-ordered
    tree with the new key added. *)
Theorem leftist_merge_keeps_heap_order
    (fuel : nat) (s : Leftist.store) (a b : ptr) (k : Z)
    (ta tb : PtrTree.tree (Z * Z)) (Fa Fb : gset addr) :
  LeftistProofs.rep s a ta Fa → LeftistProofs.rep s b tb Fb → Fa ## Fb →
  LeftistProofs.heap_ordered ta → LeftistProofs.heap_ordered tb →
  PtrTree.size ta + PtrTree.size tb + 1 ≤ fuel →
  (∃ s' r t,
     Leftist.leftist_merge fuel s a b = Ok (s', r)
     ∧ LeftistProofs.rep s' r t (Fa ∪ Fb)
     ∧ LeftistProofs.heap_ordered t
     ∧ LeftistProofs.keys t ≡ₚ LeftistProofs.keys ta ++ LeftistProofs.keys tb
     ∧ dom s' = dom s
     ∧ ∃ s'' r'' F'',
         Leftist.leftist_merge_persistent fuel s a b = Ok (s'', r'')
         ∧ LeftistProofs.rep s'' r'' t F'' ∧ F'' ## dom s)
  ∧ (∃ s' r t,
       Leftist.leftist_insert fuel s a k = Ok (s', r)
       ∧ LeftistProofs.rep s' r t (Fa ∪ {[Leftist.malloc s]})
       ∧ LeftistProofs.heap_ordered t
       ∧ LeftistProofs.keys t ≡ₚ k :: LeftistProofs.keys ta
       ∧ dom s' = dom s ∪ {[Leftist.malloc s]}).
Proof.
  intros Ha Hb Hd Hoa Hob Hsz. split.
  - destruct (LeftistProofs.leftist_merge_spec fuel s a b ta tb Fa Fb)
      as (s' & r & t & Hm & Hmg & Hr & _ & Hdom); [done..|lia|].
    exists s', r, t. split; [done|]. split; [done|].
    split; [by eapply LeftistProofs.leftist_merged_heap_ordered|].
    split; [by apply LeftistProofs.leftist_merged_keys|]. split; [done|].
    destruct (LeftistProofs.leftist_merge_persistent_spec fuel s a b ta tb Fa Fb)
      as (s2 & r2 & t2 & F2 & Hp & Hmg2 & Hr2 & Hd2 & _); [done..|lia|].
    rewrite <- (LeftistProofs.leftist_merged_fun _ _ _ Hmg _ Hmg2) in Hr2.
    by exists s2, r2, F2.
  - destruct (LeftistProofs.leftist_insert_full fuel s a ta Fa k Ha Hoa)
      as (s' & r & t & Hi & Hr & Hdom & _ & Ho & Hk & _); [lia|].
    by exists s', r, t.
Qed.

Lemma leftist_merge_keeps_heap_order_witness :
  ∃ s' r t,
    Leftist.leftist_merge 3 leftist_two_nodes (Some 0) (Some 1) = Ok (s', r)
    ∧ LeftistProofs.rep s' r t (({[0]} ∪ ∅ ∪ ∅) ∪ ({[1]} ∪ ∅ ∪ ∅))
    ∧ LeftistProofs.heap_ordered t
    ∧ LeftistProofs.keys t ≡ₚ [1; 2]%Z
    ∧ dom s' = dom leftist_two_nodes
    ∧ ∃ s'' r'' F'',
        Leftist.leftist_merge_persistent 3 leftist_two_nodes (Some 0) (Some 1)
        = Ok (s'', r'')
        ∧ LeftistProofs.rep s'' r'' t F'' ∧ F'' ## dom leftist_two_nodes.
Proof.
  refine (proj1 (leftist_merge_keeps_heap_order 3 leftist_two_nodes (Some 0) (Some 1)
            7%Z _ _ _ _ (leftist_two_nodes_rep 0 1%Z eq_refl)
            (leftist_two_nodes_rep 1 2%Z eq_refl) _ _ _ _)).
  - set_solver.
  - simpl. split_and!; done.
  - simpl. split_and!; done.
  - simpl. lia.
Defined.

(** X10. On a heap-ordered tree that is not empty [leftist_find_min]
    returns the smallest key, and [leftist_delete_min] frees the root node
    (and nothing else) and returns a heap-ordered tree with the remaining
    keys. *)
Theorem leftist_delete_min_removes_minimum
    (fuel : nat) (s : Leftist.store) (a : addr)
    (t : PtrTree.tree (Z * Z)) (F : gset addr) :
  LeftistProofs.rep s (Some a) t F → LeftistProofs.heap_ordered t →
  PtrTree.size t ≤ fuel →
  ∃ m s' r t',
    Leftist.leftist_find_min s (Some a) = Ok m
    ∧ Forall (Z.le m) (LeftistProofs.keys t)
    ∧ Leftist.leftist_delete_min fuel s (Some a) = Ok (s', r)
    ∧ LeftistProofs.rep s' r t' (F ∖ {[a]})
    ∧ LeftistProofs.heap_ordered t'
    ∧ LeftistProofs.keys t ≡ₚ m :: LeftistProofs.keys t'
    ∧ dom s' = dom s ∖ {[a]}.
Proof.
  intros Hr Ho Hsz. destruct t as [|l x r]; [inversion Hr|]. simpl in Hsz.
  destruct (LeftistProofs.leftist_delete_min_spec fuel s a l x r F Hr)
    as (s' & p & t' & Hd & Hmg & Hr' & _); [lia|].
  exists x.1, s', p, t'.
  split; [by eapply LeftistProofs.leftist_find_min_spec|].
  split; [by apply LeftistProofs.leftist_heap_ordered_root_le|].
  split; [done|]. split; [done|]. destruct Ho as (_ & _ & Hl & Hrr). split_and!.
  - by eapply LeftistProofs.leftist_merged_heap_ordered.
  - rewrite LeftistProofs.keys_node.
    by rewrite (LeftistProofs.leftist_merged_keys _ _ _ Hmg).
  - eapply LeftistProofs.leftist_delete_min_dom; [done| |done]. lia.
Qed.

Lemma leftist_delete_min_removes_minimum_witness :
  ∃ m s' r t',
    Leftist.leftist_find_min leftist_two_nodes (Some 0) = Ok m
    ∧ Forall (Z.le m) [1%Z]
    ∧ Leftist.leftist_delete_min 1 leftist_two_nodes (Some 0) = Ok (s', r)
    ∧ LeftistProofs.rep s' r t' (({[0]} ∪ ∅ ∪ ∅) ∖ {[0]})
    ∧ LeftistProofs.heap_ordered t'
    ∧ [1%Z] ≡ₚ m :: LeftistProofs.keys t'
    ∧ dom s' = dom leftist_two_nodes ∖ {[0]}.
Proof.
  apply (leftist_delete_min_removes_minimum 1 leftist_two_nodes 0 _ _
           (leftist_two_nodes_rep 0 1%Z eq_refl)).
  - simpl. split_and!; done.
  - simpl. lia.
Defined.

(** X11. Heap sort, as the test driver does it: inserting the values of a
    list one by one into the empty heap and then removing the minimum
    until the heap is empty delivers the values in non-decreasing order.
    Every node that was allocated is freed again: the store is the same
    before and after. *)
Theorem leftist_insert_all_drain_sorts
    (fuel : nat) (s : Leftist.store) (vals : list Z) :
  length vals ≤ fuel →
  ∃ s1 h ks,
    Leftist.leftist_insert_all fuel s NULL vals = Ok (s1, h)
    ∧ Leftist.leftist_drain fuel s1 h = Ok (s, ks)
    ∧ StronglySorted Z.le ks
    ∧ ks ≡ₚ vals.
Proof.
  intros Hlen.
  destruct (LeftistProofs.leftist_insert_all_spec fuel vals s NULL PtrTree.Leaf ∅)
    as (s1 & h & t & N & Hi & Hr & HN & Hdom & Hfr & Ho & Hk & Hsz);
    [constructor | done | simpl; lia |].
  simpl in Hsz.
  destruct (LeftistProofs.leftist_drain_spec fuel s1 h t _ Hr Ho)
    as (s2 & ks & Hd & Hs & Hp & Hfr2); [lia|].
  pose proof (LeftistProofs.leftist_drain_dom fuel s1 h t _ s2 ks Hr ltac:(lia) Hd)
    as Hdom2.
  assert (s2 = s) as ->.
  { apply map_eq. intros q. destruct (decide (q ∈ dom s)) as [Hq|Hq].
    - rewrite Hfr2 by set_solver. apply Hfr; set_solver.
    - rewrite (proj1 (not_elem_of_dom s q) Hq). apply not_elem_of_dom.
      rewrite Hdom2, Hdom. set_solver. }
  exists s1, h, ks. split; [done|]. split; [done|]. split; [done|].
  rewrite Hp, Hk. unfold LeftistProofs.keys. simpl. by rewrite app_nil_r.
Qed.

Lemma leftist_insert_all_drain_sorts_witness :
  ∃ s1 h ks,
    Leftist.leftist_insert_all 6 ∅ NULL [5; 3; 9; 1; 7; 2]%Z = Ok (s1, h)
    ∧ Leftist.leftist_drain 6 s1 h = Ok (∅, ks)
    ∧ StronglySorted Z.le ks
    ∧ ks ≡ₚ [5; 3; 9; 1; 7; 2]%Z.
Proof.
  apply (leftist_insert_all_drain_sorts 6 ∅ [5; 3; 9; 1; 7; 2]%Z). simpl. lia.
Defined.

(** X12. The recursion of [leftist_merge] is logarithmic.  On two leftist
    trees with [n] and [m] nodes the calls nest at most
    [log2 (n + 1) + log2 (m + 1)] deep ([fuel] bounds the depth of the
    recursion: every nested call takes one unit), because the call only
    follows right links and a leftist tree whose right spine has [d] nodes
    has at least [2 ^ d - 1] nodes. *)
Theorem leftist_merge_logarithmic_depth
    (fuel : nat) (s : Leftist.store) (a b : ptr)
    (ta tb : PtrTree.tree (Z * Z)) (Fa Fb : gset addr) :
  LeftistProofs.rep s a ta Fa → LeftistProofs.rep s b tb Fb → Fa ## Fb →
  LeftistProofs.leftist ta → LeftistProofs.leftist tb →
  Nat.log2 (PtrTree.size ta + 1) + Nat.log2 (PtrTree.size tb + 1) ≤ fuel →
  2 ^ LeftistProofs.right_spine ta ≤ PtrTree.size ta + 1
  ∧ 2 ^ LeftistProofs.right_spine tb ≤ PtrTree.size tb + 1
  ∧ ∃ s' r t,
      Leftist.leftist_merge fuel s a b = Ok (s', r)
      ∧ LeftistProofs.rep s' r t (Fa ∪ Fb)
      ∧ LeftistProofs.leftist t
      ∧ PtrTree.size t = PtrTree.size ta + PtrTree.size tb.
Proof.
  intros Ha Hb Hd La Lb Hfuel.
  split; [by apply LeftistProofs.leftist_size_bound|].
  split; [by apply LeftistProofs.leftist_size_bound|].
  pose proof (LeftistProofs.leftist_right_spine_log ta La).
  pose proof (LeftistProofs.leftist_right_spine_log tb Lb).
  destruct (LeftistProofs.leftist_merge_spine_spec fuel s a b ta tb Fa Fb)
    as (s' & r & t & Hm & Hmg & Hr & _); [done..|lia|].
  exists s', r, t. split; [done|]. split; [done|].
  split; [by eapply LeftistProofs.leftist_merged_leftist|].
  by apply LeftistProofs.leftist_merged_size.
Qed.

Lemma leftist_merge_logarithmic_depth_witness :
  ∃ s' r t,
    Leftist.leftist_merge 2 leftist_two_nodes (Some 0) (Some 1) = Ok (s', r)
    ∧ LeftistProofs.rep s' r t (({[0]} ∪ ∅ ∪ ∅) ∪ ({[1]} ∪ ∅ ∪ ∅))
    ∧ LeftistProofs.leftist t
    ∧ PtrTree.size t = 2.
Proof.
  refine (proj2 (proj2 (leftist_merge_logarithmic_depth 2 leftist_two_nodes
            (Some 0) (Some 1) _ _ _ _ (leftist_two_nodes_rep 0 1%Z eq_refl)
            (leftist_two_nodes_rep 1 2%Z eq_refl) _ _ _ _))).
  - set_solver.
  - simpl. split_and!; done.
  - simpl. split_and!; done.
  - vm_compute. lia.
Defined.

(** X13. [leftist_destroy] frees every node of the tree and nothing else:
    afterwards the addresses of the tree are unallocated and every other
    node is as before. *)
Theorem leftist_destroy_frees_the_tree
    (fuel : nat) (s : Leftist.store) (h : ptr)
    (t : PtrTree.tree (Z * Z)) (F : gset addr) :
  LeftistProofs.rep s h t F → PtrTree.height t ≤ fuel →
  ∃ s',
    Leftist.leftist_destroy fuel s h = Ok s'
    ∧ dom s' = dom s ∖ F
    ∧ (∀ q, q ∉ F → s' !! q = s !! q).
Proof. apply LeftistProofs.leftist_destroy_spec. Qed.

Lemma leftist_destroy_frees_the_tree_witness :
  ∃ s',
    Leftist.leftist_destroy 1 leftist_two_nodes (Some 0) = Ok s'
    ∧ dom s' = dom leftist_two_nodes ∖ ({[0]} ∪ ∅ ∪ ∅)
    ∧ (∀ q, q ∉ ({[0]} ∪ ∅ ∪ ∅ : gset addr) → s' !! q = leftist_two_nodes !! q).
Proof.
  apply (leftist_destroy_frees_the_tree 1 leftist_two_nodes (Some 0) _ _
           (leftist_two_nodes_rep 0 1%Z eq_refl)).
  simpl. lia.
Defined.

(** X14. [leftist_clone] returns a copy of the tree (same keys, same npl
    fields, same shape) in newly allocated nodes and leaves every existing
    node as it is; [leftist_print] returns on the copy and on the
    original and prints the same sequence [ks] for both, and
    [leftist_destroy] of the copy gives back the store from before the
    clone. *)
Theorem leftist_clone_destroy_round_trip
    (fuel : nat) (s : Leftist.store) (h : ptr)
    (t : PtrTree.tree (Z * Z)) (F : gset addr) :
  LeftistProofs.rep s h t F → PtrTree.size t ≤ fuel →
  ∃ s' c Fc ks,
    Leftist.leftist_clone fuel s h = Ok (s', c)
    ∧ LeftistProofs.rep s' c t Fc
    ∧ LeftistProofs.rep s' h t F
    ∧ Fc ## dom s
    ∧ Leftist.leftist_print fuel s h = Ok ks
    ∧ Leftist.leftist_print fuel s' c = Ok ks
    ∧ ks = (PtrTree.inorder t).*1
    ∧ Leftist.leftist_destroy fuel s' c = Ok s.
Proof.
  intros Hr Hsz.
  destruct (LeftistProofs.leftist_clone_spec fuel s h t F Hr Hsz)
    as (s' & c & Fc & Hc & Hrc & Hd & Hdom & Hfr).
  pose proof (PtrTree.height_le_size t) as Hh.
  pose proof (PtrTree.rep_dom _ _ _ _ _ _ _ Hr) as HF.
  exists s', c, Fc, ((PtrTree.inorder t).*1).
  split; [done|]. split; [done|]. split_and!.
  - eapply PtrTree.rep_frame; [done|]. intros q Hq. apply Hfr. set_solver.
  - done.
  - apply (LeftistProofs.leftist_print_spec fuel s h t F Hr). lia.
  - apply (LeftistProofs.leftist_print_spec fuel s' c t Fc Hrc). lia.
  - done.
  - destruct (LeftistProofs.leftist_destroy_spec fuel s' c t Fc Hrc)
      as (s2 & Hds & Hdom2 & Hfr2); [lia|].
    rewrite Hds. f_equal. apply map_eq. intros q.
    destruct (decide (q ∈ dom s)) as [Hq|Hq].
    + rewrite Hfr2 by set_solver. by apply Hfr.
    + rewrite (proj1 (not_elem_of_dom s q) Hq). apply not_elem_of_dom.
      rewrite Hdom2, Hdom. set_solver.
Qed.

Lemma leftist_clone_destroy_round_trip_witness :
  ∃ s' c Fc ks,
    Leftist.leftist_clone 1 leftist_two_nodes (Some 0) = Ok (s', c)
    ∧ LeftistProofs.rep s' c (PtrTree.Node PtrTree.Leaf (1%Z, 0%Z) PtrTree.Leaf) Fc
    ∧ LeftistProofs.rep s' (Some 0)
        (PtrTree.Node PtrTree.Leaf (1%Z, 0%Z) PtrTree.Leaf) ({[0]} ∪ ∅ ∪ ∅)
    ∧ Fc ## dom leftist_two_nodes
    ∧ Leftist.leftist_print 1 leftist_two_nodes (Some 0) = Ok ks
    ∧ Leftist.leftist_print 1 s' c = Ok ks
    ∧ ks = [1%Z]
    ∧ Leftist.leftist_destroy 1 s' c = Ok leftist_two_nodes.
Proof.
  apply (leftist_clone_destroy_round_trip 1 leftist_two_nodes (Some 0) _ _
           (leftist_two_nodes_rep 0 1%Z eq_refl)).
  simpl. lia.
Defined.

(** ** Skew heaps ([skew_heap.c]) *)

(** X15. [skew_merge] of two separate heap-ordered trees returns a
    heap-ordered tree that is made of the nodes of both (it allocates and
    frees nothing) and holds the keys of both; [skew_merge_persistent]
    returns the same tree in newly allocated nodes.  [skew_insert]
    allocates one node and returns a heap-ordered tree with the new key
    added. *)
Theorem skew_merge_keeps_heap_order
    (fuel : nat) (s : Skew.store) (a b : ptr) (k : Z)
    (ta tb : PtrTree.tree Z) (Fa Fb : gset addr) :
  SkewProofs.rep s a ta Fa → SkewProofs.rep s b tb Fb → Fa ## Fb →
  SkewProofs.heap_ordered ta → SkewProofs.heap_ordered tb →
  PtrTree.size ta + PtrTree.size tb + 1 ≤ fuel →
  (∃ s' r t,
     Skew.skew_merge fuel s a b = Ok (s', r)
     ∧ SkewProofs.rep s' r t (Fa ∪ Fb)
     ∧ SkewProofs.heap_ordered t
     ∧ PtrTree.preorder t ≡ₚ PtrTree.preorder ta ++ PtrTree.preorder tb
     ∧ dom s' = dom s
     ∧ ∃ s'' r'' F'',
         Skew.skew_merge_persistent fuel s a b = Ok (s'', r'')
         ∧ SkewProofs.rep s'' r'' t F'' ∧ F'' ## dom s)
  ∧ (∃ s' r t,
       Skew.skew_insert fuel s a k = Ok (s', r)
       ∧ SkewProofs.rep s' r t (Fa ∪ {[Skew.malloc s]})
       ∧ SkewProofs.heap_ordered t
       ∧ PtrTree.preorder t ≡ₚ k :: PtrTree.preorder ta
       ∧ dom s' = dom s ∪ {[Skew.malloc s]}).
Proof.
  intros Ha Hb Hd Hoa Hob Hsz. split.
  - destruct (SkewProofs.skew_merge_spec fuel s a b ta tb Fa Fb)
      as (s' & r & t & Hm & Hmg & Hr & _ & Hdom); [done..|lia|].
    exists s', r, t. split; [done|]. split; [done|].
    split; [by eapply SkewProofs.skew_merged_heap_ordered|].
    split; [by apply SkewProofs.skew_merged_preorder|]. split; [done|].
    destruct (SkewProofs.skew_merge_persistent_spec fuel s a b ta tb Fa Fb)
      as (s2 & r2 & t2 & F2 & Hp & Hmg2 & Hr2 & Hd2 & _); [done..|lia|].
    rewrite <- (SkewProofs.skew_merged_fun _ _ _ Hmg _ Hmg2) in Hr2.
    by exists s2, r2, F2.
  - destruct (SkewProofs.skew_insert_full fuel s a ta Fa k Ha Hoa)
      as (s' & r & t & Hi & Hr & Hdom & _ & Ho & Hk & _); [lia|].
    by exists s', r, t.
Qed.

Lemma skew_merge_keeps_heap_order_witness :
  ∃ s' r t,
    Skew.skew_merge 3 skew_two_nodes (Some 0) (Some 1) = Ok (s', r)
    ∧ SkewProofs.rep s' r t (({[0]} ∪ ∅ ∪ ∅) ∪ ({[1]} ∪ ∅ ∪ ∅))
    ∧ SkewProofs.heap_ordered t
    ∧ PtrTree.preorder t ≡ₚ [1; 2]%Z
    ∧ dom s' = dom skew_two_nodes
    ∧ ∃ s'' r'' F'',
        Skew.skew_merge_persistent 3 skew_two_nodes (Some 0) (Some 1)
        = Ok (s'', r'')
        ∧ SkewProofs.rep s'' r'' t F'' ∧ F'' ## dom skew_two_nodes.
Proof.
  refine (proj1 (skew_merge_keeps_heap_order 3 skew_two_nodes (Some 0) (Some 1)
            7%Z _ _ _ _ (skew_two_nodes_rep 0 1%Z eq_refl)
            (skew_two_nodes_rep 1 2%Z eq_refl) _ _ _ _)).
  - set_solver.
  - simpl. split_and!; done.
  - simpl. split_and!; done.
  - simpl. lia.
Defined.

(** X16. On a heap-ordered tree that is not empty [skew_find_min] returns
    the smallest key, and [skew_delete_min] frees the root node (and
    nothing else) and returns a heap-ordered tree with the remaining
    keys. *)
Theorem skew_delete_min_removes_minimum
    (fuel : nat) (s : Skew.store) (a : addr)
    (t : PtrTree.tree Z) (F : gset addr) :
  SkewProofs.rep s (Some a) t F → SkewProofs.heap_ordered t →
  PtrTree.size t ≤ fuel →
  ∃ m s' r t',
    Skew.skew_find_min s (Some a) = Ok m
    ∧ Forall (Z.le m) (PtrTree.preorder t)
    ∧ Skew.skew_delete_min fuel s (Some a) = Ok (s', r)
    ∧ SkewProofs.rep s' r t' (F ∖ {[a]})
    ∧ SkewProofs.heap_ordered t'
    ∧ PtrTree.preorder t ≡ₚ m :: PtrTree.preorder t'
    ∧ dom s' = dom s ∖ {[a]}.
Proof.
  intros Hr Ho Hsz. destruct t as [|l x r]; [inversion Hr|]. simpl in Hsz.
  destruct (SkewProofs.skew_delete_min_spec fuel s a l x r F Hr)
    as (s' & p & t' & Hd & Hmg & Hr' & _); [lia|].
  exists x, s', p, t'.
  split; [by eapply SkewProofs.skew_find_min_spec|].
  split; [by apply SkewProofs.skew_heap_ordered_root_le|].
  split; [done|]. split; [done|]. destruct Ho as (_ & _ & Hl & Hrr). split_and!.
  - by eapply SkewProofs.skew_merged_heap_ordered.
  - simpl. by rewrite (SkewProofs.skew_merged_preorder _ _ _ Hmg).
  - eapply SkewProofs.skew_delete_min_dom; [done| |done]. lia.
Qed.

Lemma skew_delete_min_removes_minimum_witness :
  ∃ m s' r t',
    Skew.skew_find_min skew_two_nodes (Some 0) = Ok m
    ∧ Forall (Z.le m) [1%Z]
    ∧ Skew.skew_delete_min 1 skew_two_nodes (Some 0) = Ok (s', r)
    ∧ SkewProofs.rep s' r t' (({[0]} ∪ ∅ ∪ ∅) ∖ {[0]})
    ∧ SkewProofs.heap_ordered t'
    ∧ [1%Z] ≡ₚ m :: PtrTree.preorder t'
    ∧ dom s' = dom skew_two_nodes ∖ {[0]}.
Proof.
  apply (skew_delete_min_removes_minimum 1 skew_two_nodes 0 _ _
           (skew_two_nodes_rep 0 1%Z eq_refl)).
  - simpl. split_and!; done.
  - simpl. lia.
Defined.

(** X17. Heap sort, as the test driver does it: inserting the values of a
    list one by one into the empty skew heap and then removing the
    minimum until the heap is empty delivers the values in non-decreasing
    order.  Every node that was allocated is freed again: the store is
    the same before and after. *)
Theorem skew_insert_all_drain_sorts
    (fuel : nat) (s : Skew.store) (vals : list Z) :
  length vals ≤ fuel →
  ∃ s1 h ks,
    Skew.skew_insert_all fuel s NULL vals = Ok (s1, h)
    ∧ Skew.skew_drain fuel s1 h = Ok (s, ks)
    ∧ StronglySorted Z.le ks
    ∧ ks ≡ₚ vals.
Proof.
  intros Hlen.
  destruct (SkewProofs.skew_insert_all_spec fuel vals s NULL PtrTree.Leaf ∅)
    as (s1 & h & t & N & Hi & Hr & HN & Hdom & Hfr & Ho & Hk & Hsz);
    [constructor | done | simpl; lia |].
  simpl in Hsz.
  destruct (SkewProofs.skew_drain_spec fuel s1 h t _ Hr Ho)
    as (s2 & ks & Hd & Hs & Hp & Hfr2); [lia|].
  pose proof (SkewProofs.skew_drain_dom fuel s1 h t _ s2 ks Hr ltac:(lia) Hd)
    as Hdom2.
  assert (s2 = s) as ->.
  { apply map_eq. intros q. destruct (decide (q ∈ dom s)) as [Hq|Hq].
    - rewrite Hfr2 by set_solver. apply Hfr; set_solver.
    - rewrite (proj1 (not_elem_of_dom s q) Hq). apply not_elem_of_dom.
      rewrite Hdom2, Hdom. set_solver. }
  exists s1, h, ks. split; [done|]. split; [done|]. split; [done|].
  rewrite Hp, Hk. simpl. by rewrite app_nil_r.
Qed.

Lemma skew_insert_all_drain_sorts_witness :
  ∃ s1 h ks,
    Skew.skew_insert_all 6 ∅ NULL [5; 3; 9; 1; 7; 2]%Z = Ok (s1, h)
    ∧ Skew.skew_drain 6 s1 h = Ok (∅, ks)
    ∧ StronglySorted Z.le ks
    ∧ ks ≡ₚ [5; 3; 9; 1; 7; 2]%Z.
Proof.
  apply (skew_insert_all_drain_sorts 6 ∅ [5; 3; 9; 1; 7; 2]%Z). simpl. lia.
Defined.

(** X18. [skew_destroy] frees every node of the tree and nothing else.
    [skew_clone] returns a copy of the tree in newly allocated nodes and
    leaves every existing node as it is; [skew_print] returns on the copy
    and on the original and prints the same sequence [ks] for both, and
    [skew_destroy] of the copy gives back the store from before the
    clone. *)
Theorem skew_clone_destroy_round_trip
    (fuel : nat) (s : Skew.store) (h : ptr) (t : PtrTree.tree Z) (F : gset addr) :
  SkewProofs.rep s h t F → PtrTree.size t ≤ fuel →
  (∃ s',
     Skew.skew_destroy fuel s h = Ok s'
     ∧ dom s' = dom s ∖ F
     ∧ (∀ q, q ∉ F → s' !! q = s !! q))
  ∧ (∃ s' c Fc ks,
       Skew.skew_clone fuel s h = Ok (s', c)
       ∧ SkewProofs.rep s' c t Fc
       ∧ SkewProofs.rep s' h t F
       ∧ Fc ## dom s
       ∧ Skew.skew_print fuel s h = Ok ks
       ∧ Skew.skew_print fuel s' c = Ok ks
       ∧ ks = PtrTree.inorder t
       ∧ Skew.skew_destroy fuel s' c = Ok s).
Proof.
  intros Hr Hsz. pose proof (PtrTree.height_le_size t) as Hh. split.
  { apply (SkewProofs.skew_destroy_spec fuel s h t F Hr). lia. }
  destruct (SkewProofs.skew_clone_spec fuel s h t F Hr Hsz)
    as (s' & c & Fc & Hc & Hrc & Hd & Hdom & Hfr).
  pose proof (PtrTree.rep_dom _ _ _ _ _ _ _ Hr) as HF.
  exists s', c, Fc, (PtrTree.inorder t).
  split; [done|]. split; [done|]. split_and!.
  - eapply PtrTree.rep_frame; [done|]. intros q Hq. apply Hfr. set_solver.
  - done.
  - apply (SkewProofs.skew_print_spec fuel s h t F Hr). lia.
  - apply (SkewProofs.skew_print_spec fuel s' c t Fc Hrc). lia.
  - done.
  - destruct (SkewProofs.skew_destroy_spec fuel s' c t Fc Hrc)
      as (s2 & Hds & Hdom2 & Hfr2); [lia|].
    rewrite Hds. f_equal. apply map_eq. intros q.
    destruct (decide (q ∈ dom s)) as [Hq|Hq].
    + rewrite Hfr2 by set_solver. by apply Hfr.
    + rewrite (proj1 (not_elem_of_dom s q) Hq). apply not_elem_of_dom.
      rewrite Hdom2, Hdom. set_solver.
Qed.

Lemma skew_clone_destroy_round_trip_witness :
  ∃ s' c Fc ks,
    Skew.skew_clone 1 skew_two_nodes (Some 0) = Ok (s', c)
    ∧ SkewProofs.rep s' c (PtrTree.Node PtrTree.Leaf 1%Z PtrTree.Leaf) Fc
    ∧ SkewProofs.rep s' (Some 0)
        (PtrTree.Node PtrTree.Leaf 1%Z PtrTree.Leaf) ({[0]} ∪ ∅ ∪ ∅)
    ∧ Fc ## dom skew_two_nodes
    ∧ Skew.skew_print 1 skew_two_nodes (Some 0) = Ok ks
    ∧ Skew.skew_print 1 s' c = Ok ks
    ∧ ks = [1%Z]
    ∧ Skew.skew_destroy 1 s' c = Ok skew_two_nodes.
Proof.
  refine (proj2 (skew_clone_destroy_round_trip 1 skew_two_nodes (Some 0) _ _
                   (skew_two_nodes_rep 0 1%Z eq_refl) _)).
  simpl. lia.
Defined.

(** ** Binary search trees ([binary_tree.c]) *)

(** X19. [bst_insert] on a search tree returns a search tree whose keys
    are those of the old tree and the new key; a search for the key in
    the new tree returns a node that holds it. *)
Theorem bst_insert_then_search
    (fuel : nat) (s : BST.store) (root : ptr) (t : PtrTree.tree Z)
    (F : gset addr) (k : Z) :
  BSTProofs.rep s root t F → BSTProofs.bst_ordered t →
  PtrTree.height t < fuel →
  ∃ s' r t' F' a n,
    BST.bst_insert fuel s root k = Ok (s', r)
    ∧ BSTProofs.rep s' r t' F'
    ∧ BSTProofs.bst_ordered t'
    ∧ (∀ y, y ∈ PtrTree.inorder t' ↔ y = k ∨ y ∈ PtrTree.inorder t)
    ∧ BST.bst_search_iterative fuel s' r k = Ok (Some a)
    ∧ a ∈ F' ∧ s' !! a = Some n ∧ BST.key n = k.
Proof.
  intros Hr Hb Hh.
  destruct (BSTProofs.bst_insert_spec fuel k s root t F Hr)
    as (s' & r & F' & Hi & Hr' & _); [lia|].
  pose proof (BSTProofs.insert_t_height t k) as Hh'.
  pose proof (BSTProofs.insert_t_bst t k Hb) as Hb'.
  destruct (BSTProofs.bst_search_present fuel s' r _ F' k Hr')
    as (a & n & Hs & Ha & Hn & Hk); [lia | done | |].
  { apply BSTProofs.insert_t_elem_of. by left. }
  exists s', r, (BSTProofs.insert_t t k), F', a, n.
  split; [done|]. split; [done|]. split; [done|].
  split; [intros y; apply BSTProofs.insert_t_elem_of|].
  split; [by rewrite <- BSTProofs.bst_search_equiv|done].
Qed.

Lemma bst_insert_then_search_witness :
  ∃ s' r t' F' a n,
    BST.bst_insert 3 bst_two_nodes (Some 0) 40 = Ok (s', r)
    ∧ BSTProofs.rep s' r t' F'
    ∧ BSTProofs.bst_ordered t'
    ∧ (∀ y, y ∈ PtrTree.inorder t' ↔ y = 40%Z ∨ y ∈ [30; 50]%Z)
    ∧ BST.bst_search_iterative 3 s' r 40 = Ok (Some a)
    ∧ a ∈ F' ∧ s' !! a = Some n ∧ BST.key n = 40%Z.
Proof.
  apply (bst_insert_then_search 3 bst_two_nodes (Some 0) _ _ 40 bst_two_nodes_rep).
  - simpl. split_and!; try done; repeat constructor.
  - simpl. lia.
Defined.

(** X20. Updates without effect.  [bst_insert] with a key that the search
    tree already holds, and [bst_delete] with a key that the tree does not
    hold, return the root they were given and leave the store as it is:
    nothing is allocated or freed and no node changes. *)
Theorem bst_update_without_effect
    (fuel : nat) (s : BST.store) (root : ptr) (t : PtrTree.tree Z)
    (F : gset addr) (k : Z) :
  BSTProofs.rep s root t F → PtrTree.height t ≤ fuel →
  (BSTProofs.bst_ordered t → k ∈ PtrTree.inorder t →
   BST.bst_insert fuel s root k = Ok (s, root))
  ∧ (k ∉ PtrTree.inorder t → BST.bst_delete fuel s root k = Ok (s, root)).
Proof.
  intros Hr Hh. split.
  - intros Hb Hk. by eapply BSTProofs.bst_insert_present.
  - intros Hk. by eapply BSTProofs.bst_delete_absent.
Qed.

Lemma bst_update_without_effect_witness :
  BST.bst_insert 2 bst_two_nodes (Some 0) 30 = Ok (bst_two_nodes, Some 0)
  ∧ BST.bst_delete 2 bst_two_nodes (Some 0) 40 = Ok (bst_two_nodes, Some 0).
Proof.
  pose proof (bst_update_without_effect 2 bst_two_nodes (Some 0) _ _ 30
                bst_two_nodes_rep ltac:(simpl; lia)) as [H1 _].
  pose proof (bst_update_without_effect 2 bst_two_nodes (Some 0) _ _ 40
                bst_two_nodes_rep ltac:(simpl; lia)) as [_ H2].
  split.
  - apply H1.
    + simpl. split_and!; try done; repeat constructor.
    + simpl. set_solver.
  - apply H2. simpl. set_solver.
Defined.

(** X21. [bst_delete] on a search tree returns a search tree made of
    nodes of the old one; its keys are the old keys without the deleted
    key, in the same order, nodes outside the tree are left as they are,
    and a search for the deleted key returns [NULL]. *)
Theorem bst_delete_then_search
    (fuel : nat) (s : BST.store) (root : ptr) (t : PtrTree.tree Z)
    (F : gset addr) (k : Z) :
  BSTProofs.rep s root t F → BSTProofs.bst_ordered t →
  PtrTree.height t ≤ fuel →
  ∃ s' r t' F',
    BST.bst_delete fuel s root k = Ok (s', r)
    ∧ BSTProofs.rep s' r t' F' ∧ F' ⊆ F
    ∧ BSTProofs.bst_ordered t'
    ∧ PtrTree.inorder t' = filter (λ y, y ≠ k) (PtrTree.inorder t)
    ∧ (∀ q, q ∉ F → s' !! q = s !! q)
    ∧ BST.bst_search_iterative fuel s' r k = Ok NULL.
Proof.
  intros Hr Hb Hh.
  destruct (BSTProofs.bst_delete_spec fuel s root t F k Hr Hh)
    as (s' & r & F' & Hd & Hr' & HF & Hfr).
  pose proof (BSTProofs.delete_t_height t k) as Hh'.
  pose proof (BSTProofs.delete_t_inorder t k Hb) as Hin.
  exists s', r, (BSTProofs.delete_t t k), F'.
  split; [done|]. split; [done|]. split; [done|].
  split; [by apply BSTProofs.delete_t_bst|]. split; [done|]. split; [done|].
  rewrite <- BSTProofs.bst_search_equiv.
  eapply BSTProofs.bst_search_absent; [done|lia|].
  rewrite Hin. intros [Hk _]%list_elem_of_filter. done.
Qed.

Lemma bst_delete_then_search_witness :
  ∃ s' r t' F',
    BST.bst_delete 2 bst_two_nodes (Some 0) 50 = Ok (s', r)
    ∧ BSTProofs.rep s' r t' F' ∧ F' ⊆ {[0]} ∪ ({[1]} ∪ ∅ ∪ ∅) ∪ ∅
    ∧ BSTProofs.bst_ordered t'
    ∧ PtrTree.inorder t' = filter (λ y, y ≠ 50%Z) [30; 50]%Z
    ∧ (∀ q, q ∉ ({[0]} ∪ ({[1]} ∪ ∅ ∪ ∅) ∪ ∅ : gset addr) →
            s' !! q = bst_two_nodes !! q)
    ∧ BST.bst_search_iterative 2 s' r 50 = Ok NULL.
Proof.
  apply (bst_delete_then_search 2 bst_two_nodes (Some 0) _ _ 50 bst_two_nodes_rep).
  - simpl. split_and!; try done; repeat constructor.
  - simpl. lia.
Defined.

(** X22. On a search tree that is not empty [bst_min] returns a node of
    the tree whose key is the smallest key of the tree; on [NULL] it stops
    at its assertion. *)
Theorem bst_min_is_minimum
    (fuel : nat) (s : BST.store) (a : addr) (t : PtrTree.tree Z) (F : gset addr) :
  BSTProofs.rep s (Some a) t F → BSTProofs.bst_ordered t →
  PtrTree.height t ≤ S fuel →
  BST.bst_min fuel s NULL = Abort
  ∧ ∃ a' n',
      BST.bst_min fuel s (Some a) = Ok (Some a')
      ∧ a' ∈ F ∧ s !! a' = Some n'
      ∧ BST.key n' ∈ PtrTree.inorder t
      ∧ Forall (Z.le (BST.key n')) (PtrTree.inorder t).
Proof.
  intros Hr Hb Hh. split; [done|]. by apply BSTProofs.bst_min_spec.
Qed.

Lemma bst_min_is_minimum_witness :
  ∃ a' n',
    BST.bst_min 1 bst_two_nodes (Some 0) = Ok (Some a')
    ∧ a' ∈ ({[0]} ∪ ({[1]} ∪ ∅ ∪ ∅) ∪ ∅ : gset addr)
    ∧ bst_two_nodes !! a' = Some n'
    ∧ BST.key n' ∈ [30; 50]%Z
    ∧ Forall (Z.le (BST.key n')) [30; 50]%Z.
Proof.
  refine (proj2 (bst_min_is_minimum 1 bst_two_nodes 0 _ _ bst_two_nodes_rep _ _)).
  - simpl. split_and!; try done; repeat constructor.
  - simpl. lia.
Defined.

(** X23. The three traversals return, and each calls the visitor once for
    every node of the tree: the three sequences are permutations of each
    other and as long as the tree has nodes.  The pre-order sequence
    starts with the key of the root and the post-order sequence ends with
    it; on a search tree the in-order sequence is strictly ascending. *)
Theorem bst_traversals_visit_every_node
    (fuel : nat) (s : BST.store) (root : ptr) (t : PtrTree.tree Z) (F : gset addr) :
  BSTProofs.rep s root t F → PtrTree.height t ≤ fuel →
  ∃ pre ino post,
    BST.bst_preorder fuel s root = Ok pre
    ∧ BST.bst_inorder fuel s root = Ok ino
    ∧ BST.bst_postorder fuel s root = Ok post
    ∧ pre ≡ₚ ino ∧ post ≡ₚ ino
    ∧ length ino = size F
    ∧ (∀ a n, root = Some a → s !! a = Some n →
              head pre = Some (BST.key n) ∧ last post = Some (BST.key n))
    ∧ (BSTProofs.bst_ordered t → StronglySorted Z.lt ino).
Proof.
  intros Hr Hh.
  exists (PtrTree.preorder t), (PtrTree.inorder t), (BSTProofs.postorder t).
  split; [by eapply BSTProofs.bst_preorder_spec|].
  split; [by eapply BSTProofs.bst_inorder_spec|].
  split; [by eapply BSTProofs.bst_postorder_spec|].
  split; [by rewrite PtrTree.inorder_preorder|].
  split; [by rewrite PtrTree.inorder_preorder, BSTProofs.postorder_preorder|].
  split; [|split].
  - rewrite (BSTProofs.rep_size _ _ _ _ Hr), PtrTree.inorder_preorder.
    apply PtrTree.length_preorder.
  - intros a n -> Hn. by eapply BSTProofs.rep_root_label.
  - apply BSTProofs.bst_ordered_sorted.
Qed.

Lemma bst_traversals_visit_every_node_witness :
  ∃ pre ino post,
    BST.bst_preorder 2 bst_two_nodes (Some 0) = Ok pre
    ∧ BST.bst_inorder 2 bst_two_nodes (Some 0) = Ok ino
    ∧ BST.bst_postorder 2 bst_two_nodes (Some 0) = Ok post
    ∧ pre ≡ₚ ino ∧ post ≡ₚ ino
    ∧ length ino = size ({[0]} ∪ ({[1]} ∪ ∅ ∪ ∅) ∪ ∅ : gset addr)
    ∧ (∀ a n, Some 0 = Some a → bst_two_nodes !! a = Some n →
              head pre = Some (BST.key n) ∧ last post = Some (BST.key n))
    ∧ (BSTProofs.bst_ordered
         (PtrTree.Node (PtrTree.Node PtrTree.Leaf 30%Z PtrTree.Leaf) 50%Z PtrTree.Leaf)
       → StronglySorted Z.lt ino).
Proof.
  apply (bst_traversals_visit_every_node 2 bst_two_nodes (Some 0) _ _
           bst_two_nodes_rep).
  simpl. lia.
Defined.

(** X24. [bst_free] frees every node of the tree and nothing else:
    afterwards the addresses of the tree are unallocated and every other
    node is as before. *)
Theorem bst_free_frees_the_tree
    (fuel : nat) (s : BST.store) (root : ptr) (t : PtrTree.tree Z) (F : gset addr) :
  BSTProofs.rep s root t F → PtrTree.height t ≤ fuel →
  ∃ s',
    BST.bst_free fuel s root = Ok s'
    ∧ dom s' = dom s ∖ F
    ∧ (∀ q, q ∉ F → s' !! q = s !! q).
Proof. apply BSTProofs.bst_free_spec. Qed.

Lemma bst_free_frees_the_tree_witness :
  ∃ s',
    BST.bst_free 2 bst_two_nodes (Some 0) = Ok s'
    ∧ dom s' = dom bst_two_nodes ∖ ({[0]} ∪ ({[1]} ∪ ∅ ∪ ∅) ∪ ∅)
    ∧ (∀ q, q ∉ ({[0]} ∪ ({[1]} ∪ ∅ ∪ ∅) ∪ ∅ : gset addr) →
            s' !! q = bst_two_nodes !! q).
Proof.
  apply (bst_free_frees_the_tree 2 bst_two_nodes (Some 0) _ _ bst_two_nodes_rep).
  simpl. lia.
Defined.

(** ** Treaps ([treap.c]) *)

(** A treap with the keys 2, 5, 8 and one with the key 9. *)
Definition treap_2_5_8 : Treap.TreapNode :=
  Treap.Node (Treap.Node Treap.Leaf 2 3 Treap.Leaf) 5 10
             (Treap.Node Treap.Leaf 8 7 Treap.Leaf).

Lemma treap_2_5_8_valid : TreapProofs.valid_treap treap_2_5_8.
Proof.
  split; simpl.
  - split_and!; try done; repeat constructor.
  - split_and!; try done; lia.
Qed.

(** X25. [treap_merge] of two valid treaps (search tree by key, max-heap
    by priority) in which every key of the first is smaller than every
    key of the second returns a valid treap; its in-order sequence is the
    one of the first followed by the one of the second. *)
Theorem treap_merge_valid (l r : Treap.TreapNode) :
  TreapProofs.valid_treap l → TreapProofs.valid_treap r →
  (∀ x y, x ∈ Treap.treap_inorder l → y ∈ Treap.treap_inorder r → (x < y)%Z) →
  TreapProofs.valid_treap (Treap.treap_merge l r)
  ∧ Treap.treap_inorder (Treap.treap_merge l r)
    = Treap.treap_inorder l ++ Treap.treap_inorder r.
Proof.
  intros [Bl Ml] [Br Mr] Hlr. split; [|apply TreapProofs.treap_merge_inorder].
  split; [by apply TreapProofs.treap_merge_bst_ordered|].
  by apply TreapProofs.treap_merge_max_heap.
Qed.

Lemma treap_merge_valid_witness :
  TreapProofs.valid_treap
    (Treap.treap_merge treap_2_5_8 (Treap.Node Treap.Leaf 9 12 Treap.Leaf))
  ∧ Treap.treap_inorder
      (Treap.treap_merge treap_2_5_8 (Treap.Node Treap.Leaf 9 12 Treap.Leaf))
    = [2; 5; 8; 9]%Z.
Proof.
  apply (treap_merge_valid treap_2_5_8 (Treap.Node Treap.Leaf 9 12 Treap.Leaf)).
  - exact treap_2_5_8_valid.
  - split; simpl; split_and!; done.
  - simpl. intros x y Hx Hy. apply list_elem_of_singleton in Hy. subst y.
    repeat (apply elem_of_cons in Hx as [->|Hx]; [lia|]).
    by apply elem_of_nil in Hx.
Defined.

(** X26. On a valid treap, [treap_insert] of a key that the treap does
    not hold returns a valid treap with the key added, whatever priority
    the new node draws, and [treap_remove] returns a valid treap whose
    in-order sequence is the old one without the removed key. *)
Theorem treap_insert_remove_valid (t : Treap.TreapNode) (k rand : Z) :
  TreapProofs.valid_treap t →
  (k ∉ Treap.treap_inorder t →
   TreapProofs.valid_treap (Treap.treap_insert t k rand)
   ∧ Treap.treap_inorder (Treap.treap_insert t k rand)
     ≡ₚ k :: Treap.treap_inorder t)
  ∧ TreapProofs.valid_treap (Treap.treap_remove t k)
  ∧ Treap.treap_inorder (Treap.treap_remove t k)
    = filter (λ y, y ≠ k) (Treap.treap_inorder t).
Proof.
  intros [Hb Hm]. split_and!.
  - intros Hk. split; [split|].
    + apply TreapProofs.treap_bst_ordered_sorted.
      apply TreapProofs.treap_insert_sorted_lt; [done|].
      by apply TreapProofs.treap_bst_ordered_sorted.
    + by apply TreapProofs.treap_insert_max_heap.
    + rewrite TreapProofs.treap_insert_inorder.
      rewrite <- Permutation_middle.
      by rewrite TreapProofs.treap_split_inorder.
  - split.
    + apply TreapProofs.treap_bst_ordered_sorted.
      apply TreapProofs.treap_remove_sorted.
      by apply TreapProofs.treap_bst_ordered_sorted.
    + by apply TreapProofs.treap_remove_max_heap.
  - by apply TreapProofs.treap_remove_inorder.
Qed.

Lemma treap_insert_remove_valid_witness :
  (TreapProofs.valid_treap (Treap.treap_insert treap_2_5_8 4 20)
   ∧ Treap.treap_inorder (Treap.treap_insert treap_2_5_8 4 20)
     ≡ₚ [4; 2; 5; 8]%Z)
  ∧ TreapProofs.valid_treap (Treap.treap_remove treap_2_5_8 5)
  ∧ Treap.treap_inorder (Treap.treap_remove treap_2_5_8 5) = [2; 8]%Z.
Proof.
  pose proof (treap_insert_remove_valid treap_2_5_8 4 20 treap_2_5_8_valid)
    as [H1 _].
  pose proof (treap_insert_remove_valid treap_2_5_8 5 20 treap_2_5_8_valid)
    as [_ H2].
  split; [|exact H2]. apply H1. simpl. intros Hx.
  repeat (apply elem_of_cons in Hx as [Hx|Hx]; [lia|]).
  by apply elem_of_nil in Hx.
Defined.

(** X27. On a treap whose in-order sequence is non-decreasing (keys may
    repeat) [treap_search] returns [true] exactly for the keys that the
    treap holds.  So a search for a key after [treap_insert] of that key
    returns [true], and on a treap with strictly ascending keys a search
    after [treap_remove] of the key returns [false]. *)
Theorem treap_search_finds_exactly_the_keys (t : Treap.TreapNode) (k rand : Z) :
  StronglySorted Z.le (Treap.treap_inorder t) →
  (Treap.treap_search t k = true ↔ k ∈ Treap.treap_inorder t)
  ∧ Treap.treap_search (Treap.treap_insert t k rand) k = true
  ∧ (StronglySorted Z.lt (Treap.treap_inorder t) →
     Treap.treap_search (Treap.treap_remove t k) k = false).
Proof.
  intros Hs. split; [by apply TreapProofs.treap_search_spec|]. split.
  - apply TreapProofs.treap_search_spec.
    + by apply TreapProofs.treap_insert_sorted_le.
    + rewrite TreapProofs.treap_insert_inorder. set_solver.
  - intros Hlt. apply not_true_is_false. intros Hf.
    apply TreapProofs.treap_search_spec in Hf.
    + rewrite TreapProofs.treap_remove_inorder in Hf
        by (by apply TreapProofs.treap_bst_ordered_sorted).
      apply list_elem_of_filter in Hf as [Hne _]. done.
    + by apply TreapProofs.treap_remove_sorted.
Qed.

Lemma treap_search_finds_exactly_the_keys_witness :
  (Treap.treap_search treap_2_5_8 8 = true ↔ 8%Z ∈ [2; 5; 8]%Z)
  ∧ Treap.treap_search (Treap.treap_insert treap_2_5_8 8 1) 8 = true
  ∧ (StronglySorted Z.lt [2; 5; 8]%Z →
     Treap.treap_search (Treap.treap_remove treap_2_5_8 8) 8 = false).
Proof.
  apply (treap_search_finds_exactly_the_keys treap_2_5_8 8 1).
  simpl. repeat constructor; lia.
Defined.

(** ** Binomial heaps ([binomial_heap.c]) *)

(** Two roots of degree 0 that are not linked to each other. *)
Definition binomial_two_roots : Binomial.store :=
  <[1 := Binomial.mkNode 3 0 NULL NULL NULL]>
    (<[0 := Binomial.mkNode 7 0 NULL NULL (Some 1)]> ∅).

(** X28. [binomial_link] of two different nodes makes the node with the
    larger key (the second one on a tie) the first child of the other:
    its parent is the winner and its sibling is the former first child of
    the winner; the degree of the winner grows by one.  Nothing else is
    written; in particular the [sibling] field of the winner stays as it
    was. *)
Theorem binomial_link_result
    (s : Binomial.store) (a b : addr) (na nb : Binomial.BinomialNode) :
  a ≠ b → s !! a = Some na → s !! b = Some nb →
  Binomial.binomial_link s (Some a) (Some b) =
    if (Binomial.key nb <? Binomial.key na)%Z
    then Ok (<[b := Binomial.mkNode (Binomial.key nb) (Binomial.degree nb + 1)
                      (Binomial.parent nb) (Some a) (Binomial.sibling nb)]>
               (<[a := Binomial.mkNode (Binomial.key na) (Binomial.degree na)
                         (Some b) (Binomial.child na) (Binomial.child nb)]> s),
             Some b)
    else Ok (<[a := Binomial.mkNode (Binomial.key na) (Binomial.degree na + 1)
                      (Binomial.parent na) (Some b) (Binomial.sibling na)]>
               (<[b := Binomial.mkNode (Binomial.key nb) (Binomial.degree nb)
                         (Some a) (Binomial.child nb) (Binomial.child na)]> s),
             Some a).
Proof. apply BinomialProofs.binomial_link_spec. Qed.

Lemma binomial_link_result_witness :
  Binomial.binomial_link binomial_two_roots (Some 0) (Some 1)
  = Ok (<[1 := Binomial.mkNode 3 1 NULL (Some 0) NULL]>
          (<[0 := Binomial.mkNode 7 0 (Some 1) NULL NULL]> binomial_two_roots),
        Some 1).
Proof.
  apply (binomial_link_result binomial_two_roots 0 1
           (Binomial.mkNode 7 0 NULL NULL (Some 1))
           (Binomial.mkNode 3 0 NULL NULL NULL)).
  - lia.
  - reflexivity.
  - reflexivity.
Defined.

(** X29. On a heap whose root list is a chain of nodes that ends in
    [NULL] and is not empty, [binomial_find_min] returns the smallest key
    of the roots (the keys are C ints, so none exceeds [INT_MAX]). *)
Theorem binomial_find_min_smallest_root
    (fuel : nat) (s : Binomial.store) (h : Binomial.BinomialHeap)
    (roots : list Binomial.BinomialNode) :
  BinomialProofs.chain s (Binomial.head h) roots → roots ≠ [] →
  length roots ≤ fuel →
  Forall (λ n, (Binomial.key n <= Binomial.INT_MAX)%Z) roots →
  ∃ m,
    Binomial.binomial_find_min fuel s h = Ok m
    ∧ m ∈ Binomial.key <$> roots
    ∧ Forall (λ n, (m <= Binomial.key n)%Z) roots.
Proof. apply BinomialProofs.binomial_find_min_spec. Qed.

Lemma binomial_find_min_smallest_root_witness :
  ∃ m,
    Binomial.binomial_find_min 2 binomial_two_roots (Binomial.mkHeap (Some 0)) = Ok m
    ∧ m ∈ [7; 3]%Z
    ∧ Forall (λ n, (m <= Binomial.key n)%Z)
        [Binomial.mkNode 7 0 NULL NULL (Some 1); Binomial.mkNode 3 0 NULL NULL NULL].
Proof.
  apply (binomial_find_min_smallest_root 2 binomial_two_roots
           (Binomial.mkHeap (Some 0))
           [Binomial.mkNode 7 0 NULL NULL (Some 1);
            Binomial.mkNode 3 0 NULL NULL NULL]).
  - apply BinomialProofs.chain_cons; [reflexivity|]. cbn [Binomial.sibling].
    apply BinomialProofs.chain_cons; [reflexivity|]. constructor.
  - discriminate.
  - simpl. lia.
  - repeat constructor; simpl; unfold Binomial.INT_MAX; lia.
Defined.

(** X30. Two insertions into an empty binomial heap, in any store.  If
    the second key is smaller than the first, the heap drains to the two
    keys in ascending order.  Otherwise the second insertion leaves the
    new node (key [k2], parent the first root) both as the child and as
    the sibling of the first root (key [k1], the head of the root list),
    and the drain loop never returns: no step budget is enough. *)
Theorem binomial_two_inserts (s : Binomial.store) (k1 k2 : Z) :
  (k1 <= Binomial.INT_MAX)%Z →
  ∃ s2 h2,
    ('(s1, h1) ← Binomial.binomial_insert 2 s Binomial.binomial_create k1;
     Binomial.binomial_insert 2 s1 h1 k2) = Ok (s2, h2)
    ∧ if (k2 <? k1)%Z
      then ∀ fuel, 3 ≤ fuel → Binomial.binomial_drain fuel s2 h2 = Ok [k2; k1]
      else (∃ a0 a1 n0 n1,
              Binomial.head h2 = Some a0 ∧ a0 ≠ a1
              ∧ s2 !! a0 = Some n0 ∧ Binomial.key n0 = k1
              ∧ Binomial.child n0 = Some a1 ∧ Binomial.sibling n0 = Some a1
              ∧ s2 !! a1 = Some n1 ∧ Binomial.key n1 = k2
              ∧ Binomial.parent n1 = Some a0)
           ∧ ∀ fuel, Binomial.binomial_drain fuel s2 h2 = OutOfFuel.
Proof. apply BinomialProofs.binomial_two_inserts_spec. Qed.

Lemma binomial_two_inserts_witness :
  (∃ s2 h2,
     ('(s1, h1) ← Binomial.binomial_insert 2 ∅ Binomial.binomial_create 2;
      Binomial.binomial_insert 2 s1 h1 1) = Ok (s2, h2)
     ∧ ∀ fuel, 3 ≤ fuel → Binomial.binomial_drain fuel s2 h2 = Ok [1; 2]%Z)
  ∧ (∃ s2 h2,
       ('(s1, h1) ← Binomial.binomial_insert 2 ∅ Binomial.binomial_create 1;
        Binomial.binomial_insert 2 s1 h1 2) = Ok (s2, h2)
       ∧ (∃ a0 a1 n0 n1,
            Binomial.head h2 = Some a0 ∧ a0 ≠ a1
            ∧ s2 !! a0 = Some n0 ∧ Binomial.key n0 = 1%Z
            ∧ Binomial.child n0 = Some a1 ∧ Binomial.sibling n0 = Some a1
            ∧ s2 !! a1 = Some n1 ∧ Binomial.key n1 = 2%Z
            ∧ Binomial.parent n1 = Some a0)
         ∧ ∀ fuel, Binomial.binomial_drain fuel s2 h2 = OutOfFuel).
Proof.
  split.
  - apply (binomial_two_inserts ∅ 2 1). unfold Binomial.INT_MAX. lia.
  - apply (binomial_two_inserts ∅ 1 2). unfold Binomial.INT_MAX. lia.
Defined.
